(** * RAiDER tropospheric delay: ray construction, sampling, quadrature
      and parallel dispatch ([delay.py])

    A shallow embedding of the delay engine of [delay.py].  NumPy arrays of
    floats are lists of rationals ([Q], exact arithmetic: rounding error is
    not modelled), index arrays are lists of [nat], Python exceptions are
    the left summand of [result].  The helper module [util] and
    [np.linalg.norm] are not among the embedded sources; they enter as
    the fields of the record [Util], and every function that uses them
    takes the record as its first argument.  The threads of [_parmap] are
    run under an explicit schedule, so that a statement about a parallel
    call can be made for every interleaving. *)

From Stdlib Require Import String Ascii.
From Stdlib Require Import QArith Qround Qabs ZArith Lia Lqa Bool Arith.
From Stdlib Require Import Setoid Morphisms.
From Stdlib Require Import List.
Import ListNotations.

Open Scope Q_scope.

(* ===================================================================== *)
(** ** Python exceptions as an error monad *)
(* ===================================================================== *)

Inductive PyError : Type :=
| ValueError (msg : string)
| IndexError
| TypeError
| ModelError (tag : nat).   (* whatever an atmospheric-model query raises *)

Definition result (A : Type) : Type := (PyError + A)%type.

Definition ret {A} (a : A) : result A := inr a.
Definition raise {A} (e : PyError) : result A := inl e.

Definition bind {A B} (m : result A) (k : A -> result B) : result B :=
  match m with
  | inl e => inl e
  | inr a => k a
  end.

Notation "x <- m ;; k" := (bind m (fun x => k))
  (at level 61, m at next level, right associativity).

Definition succeeds {A} (m : result A) : Prop := exists a, m = inr a.

(* ===================================================================== *)
(** ** Vectors (rows of an (N,3) array) *)
(* ===================================================================== *)

Record vec : Type := mkvec { vx : Q; vy : Q; vz : Q }.

Definition veq (a b : vec) : Prop :=
  vx a == vx b /\ vy a == vy b /\ vz a == vz b.

(** [a + b], elementwise. *)
Definition vadd (a b : vec) : vec :=
  mkvec (vx a + vx b) (vy a + vy b) (vz a + vz b).

(** [t[..., np.newaxis] * v]: one row of the broadcast product. *)
Definition vscale (t : Q) (v : vec) : vec :=
  mkvec (t * vx v) (t * vy v) (t * vz v).

(** [v * k[..., np.newaxis]]: one row, scalar on the right. *)
Definition vscale_r (v : vec) (k : Q) : vec :=
  mkvec (vx v * k) (vy v * k) (vz v * k).

(** [v / l[..., np.newaxis]]: one row. *)
Definition vdiv (v : vec) (l : Q) : vec :=
  mkvec (vx v / l) (vy v / l) (vz v / l).

(** A geodetic point: one row of [llas]. *)
Record lla : Type := mklla { lat : Q; lon : Q; ht : Q }.

(* ===================================================================== *)
(** ** The NumPy primitives the module uses *)
(* ===================================================================== *)

Module np.

(** [x > y] on floats. *)
Definition gt (x y : Q) : bool := negb (Qle_bool x y).

(** [np.linspace(start, stop, num)] (endpoint included): [num] samples,
    the [i]-th at [start + i * step] with [step = (stop - start)/(num - 1)],
    the last one overwritten with [stop]; a single sample is [start];
    a negative [num] raises. *)
Definition linspace (start stop : Q) (num : Z) : result (list Q) :=
  if (num <? 0)%Z then
    raise (ValueError "Number of samples must be non-negative")
  else
    match Z.to_nat num with
    | O => ret []
    | S O => ret [start]
    | S (S k) =>
        let step := (stop - start) / inject_Z (num - 1) in
        ret (map (fun i => inject_Z (Z.of_nat i) * step + start) (seq 0 (S k))
               ++ [stop])
    end.


(** [np.linspace(0, stop, num, dtype=int)] for non-negative integers
    [stop]: the samples [i * step] with [step = stop / (num - 1)], the
    last one overwritten with [stop], cast to integers.  The quotient is
    taken exactly here.  NumPy rounds [step] to a float before it
    multiplies, so where [num - 1] does not divide [stop] a sample of
    NumPy's can be one less than the one here; the two agree on the first
    and the last sample, and on every sample where [num - 1] divides
    [stop] and [stop] is [float_exact]. *)
Definition linspace_int (stop : nat) (num : nat) : list nat :=
  match num with
  | O => []
  | S O => [O]
  | S (S k) => map (fun i => (i * stop) / (S k))%nat (seq 0 (S k)) ++ [stop]
  end.

(** [np.diff(x)]. *)
Fixpoint diff (x : list Q) : list Q :=
  match x with
  | a :: ((b :: _) as tl) => (b - a) :: diff tl
  | _ => []
  end.

(** [y[1:] + y[:-1]]. *)
Fixpoint pairsum (y : list Q) : list Q :=
  match y with
  | a :: ((b :: _) as tl) => (b + a) :: pairsum tl
  | _ => []
  end.

Definition sum (l : list Q) : Q := fold_left Qplus l 0.

(** Elementwise product of two 1-D arrays under NumPy broadcasting:
    equal lengths multiply pairwise, a length-1 operand is stretched,
    anything else raises. *)
Definition bmul (a b : list Q) : result (list Q) :=
  if (length a =? length b)%nat then
    ret (map (fun p => fst p * snd p) (combine a b))
  else
    match a, b with
    | [a0], _ => ret (map (fun y => a0 * y) b)
    | _, [b0] => ret (map (fun x => x * b0) a)
    | _, _ => raise (ValueError "operands could not be broadcast together")
    end.

(** [np.trapz(y, x)] on 1-D arrays:
    [(diff(x) * (y[1:] + y[:-1]) / 2.0).sum()]. *)
Definition trapz (y x : list Q) : result Q :=
  prods <- bmul (diff x) (pairsum y) ;;
  ret (sum (map (fun p => p / 2) prods)).

(** [np.cumsum]. *)
Fixpoint cumsum_from (acc : nat) (l : list nat) : list nat :=
  match l with
  | [] => []
  | a :: tl => (acc + a)%nat :: cumsum_from (acc + a)%nat tl
  end.
Definition cumsum (l : list nat) : list nat := cumsum_from 0 l.

(** [np.roll(a, 1)]: the last element moves to the front. *)
Definition roll1 {A} (l : list A) : list A :=
  match l with
  | [] => []
  | _ => skipn (length l - 1) l ++ firstn (length l - 1) l
  end.

(** [a[0] = v] on an array. *)
Definition set0 {A} (l : list A) (v : A) : result (list A) :=
  match l with
  | [] => raise IndexError
  | _ :: tl => ret (v :: tl)
  end.

(** [np.where(mask)[0]]: the indices at which the mask holds. *)
Fixpoint where_from (i : nat) (mask : list bool) : list nat :=
  match mask with
  | [] => []
  | b :: tl => if b then i :: where_from (S i) tl else where_from (S i) tl
  end.
Definition where_ (mask : list bool) : list nat := where_from 0 mask.

(** [np.concatenate(arrays)]: raises on an empty sequence of arrays. *)
Definition concatenate {A} (ls : list (list A)) : result (list A) :=
  match ls with
  | [] => raise (ValueError "need at least one array to concatenate")
  | _ => ret (concat ls)
  end.

(** [np.zeros(n)]. *)
Definition zeros (n : nat) : list Q := repeat 0 n.

End np.

(** Python slices [a[start:stop]] and [a[:stop]] with non-negative bounds. *)
Definition slice {A} (l : list A) (start stop : nat) : list A :=
  firstn (stop - start) (skipn start l).


(* ===================================================================== *)
(** ** Ray construction, sampling and quadrature *)
(* ===================================================================== *)

(** What [delay.py] takes from the module [util] and from [np.linalg]:
    the reference height, trigonometry in degrees, the two coordinate
    transforms (one point each) and the Euclidean norm of one row. *)
Record Util : Type := mkUtil {
  zref : Q;
  cosd : Q -> Q;
  sind : Q -> Q;
  lla2ecef : Q -> Q -> Q -> vec;
  ecef2lla : vec -> lla;
  norm : vec -> Q
}.

(** The look-vector argument: the [Zenith] marker, an (N,3) array of
    vectors, or an (N,) array of scalars. *)
Inductive LookVecs : Type :=
| Zenith
| Vectors (vs : list vec)
| Scalars (ss : list Q).

(** The atmospheric model: [weather.hydrostatic_delay] and
    [weather.wet_delay], each a batch query that may raise. *)
Record Weather : Type := mkWeather {
  wm_hydrostatic_delay : list vec -> result (list Q);
  wm_wet_delay : list vec -> result (list Q)
}.

(** Step in meters to use when integrating. *)
Definition _STEP : Q := 15.

(** The samples of one ray that survive truncation, with the index at
    which the ray was cut. *)
Record RaySamples : Type := mkRay {
  first_high : nat;
  t_points : list Q;
  positions : list vec
}.

(** [correction]: [None], or what [1/util.cosd(look_vecs)] is. *)
Inductive Correction : Type :=
| NoCorrection
| Correction1 (c : list Q)         (* from an (N,) array *)
| Correction2 (c : list vec).      (* from an (N,3) array *)

Section Delay.

Variable util : Util.

(** Top of the troposphere. *)
Definition _ZREF : Q := zref util.

(** [_too_high(positions, zref)]: index of the first position higher than
    [zref], or [len(positions)] when there is none. *)
Definition _too_high (positions : list vec) (zref : Q) : nat :=
  let positions_lla := map (ecef2lla util) positions in
  let high_indices :=
    np.where_ (map (fun p => np.gt (ht p) zref) positions_lla) in
  match high_indices with
  | i :: _ => i
  | [] => length positions
  end.

(** The look vector the [Zenith] marker stands for at one point:
    the local up vector times [_ZREF - height]. *)
Definition zenith_look_vec (p : lla) : vec :=
  vscale_r (mkvec (cosd util (lat p) * cosd util (lon p))
                  (cosd util (lat p) * sind util (lon p))
                  (sind util (lat p)))
           (_ZREF - ht p).

(** First part of [_common_delay]: the [Zenith] special value and the
    non-raytracing method.  Returns the correction and the look vectors
    to integrate along. *)
Definition resolve_look_vecs (points : list lla) (look_vecs : LookVecs)
    (raytrace : bool) : result (Correction * list vec) :=
  if raytrace then
    match look_vecs with
    | Zenith => ret (NoCorrection, map zenith_look_vec points)
    | Vectors vs => ret (NoCorrection, vs)
    | Scalars _ => raise TypeError      (* len() of the 0-d [steps] *)
    end
  else
    match look_vecs with
    | Zenith => raise TypeError         (* util.cosd of the marker class *)
    | Scalars ss =>
        ret (Correction1 (map (fun a => 1 / cosd util a) ss),
             map zenith_look_vec points)
    | Vectors vs =>
        ret (Correction2
               (map (fun v => mkvec (1 / cosd util (vx v))
                                    (1 / cosd util (vy v))
                                    (1 / cosd util (vz v))) vs),
             map zenith_look_vec points)
    end.


(** The path parameters of one ray before truncation:
    [np.linspace(0, lengths[i], steps[i])] with
    [steps = ceil(lengths / _STEP)].  The count is taken as the integer
    it is, which is what the cast to [np.int64] yields as long as it is
    at most [int64_max], that is for every length below about 1.4e20
    meters. *)
Definition ray_thisspace (look_vec : vec) : result (list Q) :=
  let length_i := norm util look_vec in
  let steps_i := Qceiling (length_i / _STEP) in
  np.linspace 0 length_i steps_i.

(** The sample positions of one ray before truncation:
    [start_positions[i] + thisspace[..., np.newaxis]*scaled_look_vecs[i]]. *)
Definition ray_positions (start : vec) (scaled : vec) (thisspace : list Q)
    : list vec :=
  map (fun t => vadd start (vscale t scaled)) thisspace.

(** The rest of the loop body: cut the ray at the first position above
    [_ZREF] and record the cut index as the ray's number of steps. *)
Definition truncate_ray (start : vec) (scaled : vec) (thisspace : list Q)
    : RaySamples :=
  let position := ray_positions start scaled thisspace in
  let first_high_index := _too_high position _ZREF in
  mkRay first_high_index
        (firstn first_high_index thisspace)
        (firstn first_high_index position).

(** [scaled_look_vecs = look_vecs / lengths[..., np.newaxis]], one row. *)
Definition scaled_look_vec (look_vec : vec) : vec :=
  vdiv look_vec (norm util look_vec).

(** The first loop of [_common_delay], over [range(len(steps))]. *)
Fixpoint sample_rays (look_vecs : list vec) (start_positions : list vec)
    : result (list RaySamples) :=
  match look_vecs with
  | [] => ret []
  | lv :: lvs =>
      thisspace <- ray_thisspace lv ;;
      match start_positions with
      | [] => raise IndexError
      | sp :: sps =>
          rest <- sample_rays lvs sps ;;
          ret (truncate_ray sp (scaled_look_vec lv) thisspace :: rest)
      end
  end.

(** The second loop: one trapezoidal integral per ray over that ray's
    chunk of the batch answer. *)
Fixpoint integrate_rays (indices steps : list nat) (t_points_l : list (list Q))
    (wet_delays : list Q) : result (list Q) :=
  match indices, steps, t_points_l with
  | start :: indices', len :: steps', tp :: t_points_l' =>
      let chunk := slice wet_delays start (start + len) in
      v <- np.trapz chunk tp ;;
      rest <- integrate_rays indices' steps' t_points_l' wet_delays ;;
      ret ((1 # 1000000) * v :: rest)
  | _, _, _ => ret []
  end.

(** [delays *= correction] on an (N,) array. *)
Definition apply_correction (delays : list Q) (correction : Correction)
    : result (list Q) :=
  match correction with
  | NoCorrection => ret delays
  | Correction1 c =>
      if (length c =? length delays)%nat then
        ret (map (fun p => fst p * snd p) (combine delays c))
      else
        match c with
        | [c0] => ret (map (fun d => d * c0) delays)
        | _ => raise (ValueError "operands could not be broadcast together")
        end
  | Correction2 _ =>
      raise (ValueError "non-broadcastable output operand")
  end.

(** [_common_delay(delay, lats, lons, heights, look_vecs, raytrace)].
    The three coordinate columns always come from one (N,3) array and are
    kept together as [points]. *)
Definition _common_delay (delay : list vec -> result (list Q))
    (points : list lla) (look_vecs : LookVecs) (raytrace : bool)
    : result (list Q) :=
  cl <- resolve_look_vecs points look_vecs raytrace ;;
  let correction := fst cl in
  let look_vecs := snd cl in
  let start_positions :=
    map (fun p => lla2ecef util (lat p) (lon p) (ht p)) points in
  rays <- sample_rays look_vecs start_positions ;;
  let steps := map first_high rays in
  positions_a <- np.concatenate (map positions rays) ;;
  wet_delays <- delay positions_a ;;
  indices <- np.set0 (np.roll1 (np.cumsum steps)) 0%nat ;;
  integrals <- integrate_rays indices steps (map t_points rays) wet_delays ;;
  let delays := integrals ++ skipn (length integrals) (np.zeros (length points)) in
  apply_correction delays correction.

(** Compute wet delay along the look vector. *)
Definition wet_delay (weather : Weather) (points : list lla)
    (look_vecs : LookVecs) (raytrace : bool) : result (list Q) :=
  _common_delay (wm_wet_delay weather) points look_vecs raytrace.

(** Compute hydrostatic delay along the look vector. *)
Definition hydrostatic_delay (weather : Weather) (points : list lla)
    (look_vecs : LookVecs) (raytrace : bool) : result (list Q) :=
  _common_delay (wm_hydrostatic_delay weather) points look_vecs raytrace.

End Delay.

(* ===================================================================== *)
(** ** The thread pool of [_parmap] *)
(* ===================================================================== *)

(** [_parmap(f, i)] fills a queue with the enumerated jobs and one [None]
    answer per job, starts [os.cpu_count()] threads running [go], joins
    them and returns the answers.  A thread alternates between taking a
    job off the queue and storing [f(elem)]; it ends when it finds the
    queue empty, and also when [f] raises: an exception that escapes a
    thread's target ends that thread only (the interpreter reports it and
    the other threads and the caller go on).  The threads interleave in
    any order: a schedule lists which thread moves next. *)
Section Parmap.

Context {X Y : Type}.
Variable f : X -> result Y.

Inductive Thread : Type :=
| Ready                          (* about to call [q.get_nowait()] *)
| Holding (i : nat) (elem : X)   (* about to run [answers[i] = f(elem)] *)
| Finished.

Record Pool : Type := mkPool {
  queue : list (nat * X);
  answers : list (option Y);
  threads : list Thread
}.

(** [l[i] = v] on a list that is long enough. *)
Fixpoint set_nth {A} (l : list A) (i : nat) (v : A) : list A :=
  match l, i with
  | [], _ => []
  | _ :: tl, O => v :: tl
  | a :: tl, S i' => a :: set_nth tl i' v
  end.

(** One move of thread [k]. *)
Definition thread_step (s : Pool) (k : nat) : Pool :=
  match nth_error (threads s) k with
  | Some Ready =>
      match queue s with
      | [] => mkPool (queue s) (answers s) (set_nth (threads s) k Finished)
      | (i, elem) :: q' =>
          mkPool q' (answers s) (set_nth (threads s) k (Holding i elem))
      end
  | Some (Holding i elem) =>
      match f elem with
      | inr y =>
          mkPool (queue s) (set_nth (answers s) i (Some y))
                 (set_nth (threads s) k Ready)
      | inl _ =>
          mkPool (queue s) (answers s) (set_nth (threads s) k Finished)
      end
  | Some Finished => s
  | None => s
  end.

(** [enumerate(i)]. *)
Definition enumerate (jobs : list X) : list (nat * X) :=
  combine (seq 0 (length jobs)) jobs.

Definition initial_pool (jobs : list X) (cpu_count : nat) : Pool :=
  mkPool (enumerate jobs) (repeat None (length jobs)) (repeat Ready cpu_count).

(** Thread [k] left to run alone until it ends. *)
Definition run_to_end (s : Pool) (k : nat) : Pool :=
  Nat.iter (2 * length (queue s) + 2) (fun s' => thread_step s' k) s.

(** The joins: whatever the schedule left unfinished runs to its end. *)
Definition join_all (s : Pool) : Pool :=
  fold_left run_to_end (seq 0 (length (threads s))) s.

(** [_parmap(f, i)] under a schedule, once the jobs have been drawn from
    the generator [i]. *)
Definition _parmap (schedule : list nat) (jobs : list X) (cpu_count : nat)
    : list (option Y) :=
  answers (join_all (fold_left thread_step schedule
                       (initial_pool jobs cpu_count))).

End Parmap.

(* ===================================================================== *)
(** ** Batch orchestration *)
(* ===================================================================== *)

(** [a[i]] on a list. *)
Definition getitem {A} (l : list A) (i : nat) : result A :=
  match nth_error l i with
  | Some a => ret a
  | None => raise IndexError
  end.

(** [los.flatten()] of an (N,3) array and [los.reshape(-1, 3)] of a flat
    one. *)
Definition flatten3 (vs : list vec) : list Q :=
  flat_map (fun v => [vx v; vy v; vz v]) vs.

Fixpoint reshape3 (ss : list Q) : result (list vec) :=
  match ss with
  | [] => ret []
  | a :: b :: c :: tl => rest <- reshape3 tl ;; ret (mkvec a b c :: rest)
  | _ => raise (ValueError "cannot reshape array into shape (3)")
  end.

(** A unit of work: [(job_type, start, end)]. *)
Definition Job : Type := (string * nat * nat)%type.

(** The generator expression
    [((name, hindices[i], hindices[i + 1]) for i in range(procs))],
    drawn to its end. *)
Fixpoint draw_jobs (name : string) (hindices : list nat) (range : list nat)
    : result (list Job) :=
  match range with
  | [] => ret []
  | i :: range' =>
      start <- getitem hindices i ;;
      end_ <- getitem hindices (i + 1) ;;
      rest <- draw_jobs name hindices range' ;;
      ret ((name, start, end_) :: rest)
  end.

(** The jobs [delay_from_grid] builds for [n] points on a machine with
    [num_procs] processing units, in the order [_parmap] draws them. *)
Definition grid_jobs (n : nat) (num_procs : nat) : result (list Job) :=
  let hydro_procs := (num_procs / 2)%nat in
  let wet_procs := (num_procs - hydro_procs)%nat in
  let hindices := np.linspace_int n (hydro_procs + 1) in
  hjobs <- draw_jobs "hydro" hindices (seq 0 hydro_procs) ;;
  wjobs <- draw_jobs "wet" hindices (seq 0 wet_procs) ;;
  ret (hjobs ++ wjobs).

(** How Python prints a non-negative integer. *)
Fixpoint nat_digits (fuel n : nat) (acc : string) : string :=
  let d := String (ascii_of_nat (48 + n mod 10)) acc in
  match fuel with
  | O => d
  | S fuel' => if (n <? 10)%nat then d else nat_digits fuel' (n / 10) d
  end.
Definition str_nat (n : nat) : string := nat_digits n n EmptyString.

(** [np.concatenate] over a slice of [_parmap]'s answers.  An answer is
    a one-dimensional array, a [None] left among them is a
    zero-dimensional one.  The number of dimensions of the first entry
    decides: when it is zero the call raises at once, otherwise it
    raises at the first entry whose number differs. *)
Fixpoint all_answers (rs : list (option (list Q))) : option (list (list Q)) :=
  match rs with
  | [] => Some []
  | None :: _ => None
  | Some a :: tl =>
      match all_answers tl with
      | Some r => Some (a :: r)
      | None => None
      end
  end.

(** The index of the first [None], counted from [i]. *)
Fixpoint first_none (i : nat) (rs : list (option (list Q))) : option nat :=
  match rs with
  | [] => None
  | None :: _ => Some i
  | Some _ :: tl => first_none (S i) tl
  end.

Definition zero_dimensional_message : string :=
  "zero-dimensional arrays cannot be concatenated".

Definition dimensions_message (i : nat) : string :=
  ("all the input arrays must have same number of dimensions, but the array at index 0 has 1 dimension(s) and the array at index "
   ++ str_nat i ++ " has 0 dimension(s)")%string.

(** What [np.concatenate] says of a [None] among the arrays. *)
Definition gathering_message (msg : string) : Prop :=
  msg = zero_dimensional_message \/ exists j, msg = dimensions_message j.

Definition concatenate_answers (rs : list (option (list Q)))
    : result (list Q) :=
  match rs with
  | [] => raise (ValueError "need at least one array to concatenate")
  | _ =>
      match all_answers rs with
      | Some arrays => ret (concat arrays)
      | None =>
          match first_none 0 rs with
          | Some (S i) => raise (ValueError (dimensions_message (S i)))
          | _ => raise (ValueError zero_dimensional_message)
          end
      end
  end.

(** [np.stack((hydro, wet))], kept as a pair. *)
Definition stack2 (hydro wet : list Q) : result (list Q * list Q) :=
  if (length hydro =? length wet)%nat then ret (hydro, wet)
  else raise (ValueError "all input arrays must have the same shape").

Section Grid.

Variable util : Util.

(** [os.cpu_count()]. *)
Variable cpu_count : nat.

(** The order in which the threads of [_parmap] move. *)
Variable schedule : list nat.

(** The flattening of [los] at the head of [delay_from_grid]. *)
Definition flatten_los (los : LookVecs) (raytrace : bool) : result LookVecs :=
  match los with
  | Zenith => ret Zenith
  | Vectors vs =>
      if raytrace then ret (Vectors vs) else ret (Scalars (flatten3 vs))
  | Scalars ss =>
      if raytrace then vs <- reshape3 ss ;; ret (Vectors vs)
      else ret (Scalars ss)
  end.

(** [los[start:end]], or the marker itself. *)
Definition slice_los (los : LookVecs) (start end_ : nat) : LookVecs :=
  match los with
  | Zenith => Zenith
  | Vectors vs => Vectors (slice vs start end_)
  | Scalars ss => Scalars (slice ss start end_)
  end.

(** The parallel worker [go(job)] of [delay_from_grid]. *)
Definition go (weather : Weather) (llas : list lla) (los : LookVecs)
    (raytrace : bool) (job : Job) : result (list Q) :=
  let '(job_type, start, end_) := job in
  let my_los := slice_los los start end_ in
  if String.eqb job_type "hydro" then
    hydrostatic_delay util weather (slice llas start end_) my_los raytrace
  else if String.eqb job_type "wet" then
    wet_delay util weather (slice llas start end_) my_los raytrace
  else raise (ValueError "Unknown job type").

(** [delay_from_grid(weather, llas, los, parallel, raytrace)] on the
    flattened list of points; the pair is kept flat (the final reshape to
    the caller's shape does not touch the values). *)
Definition delay_from_grid (weather : Weather) (llas : list lla)
    (los : LookVecs) (parallel : bool) (raytrace : bool)
    : result (list Q * list Q) :=
  los <- flatten_los los raytrace ;;
  if parallel then
    let num_procs := cpu_count in
    let hydro_procs := (num_procs / 2)%nat in
    jobs <- grid_jobs (length llas) num_procs ;;
    let result_ :=
      _parmap (go weather llas los raytrace) schedule jobs cpu_count in
    hydro <- concatenate_answers (firstn hydro_procs result_) ;;
    wet <- concatenate_answers (skipn hydro_procs result_) ;;
    stack2 hydro wet
  else
    hydro <- hydrostatic_delay util weather llas los raytrace ;;
    wet <- wet_delay util weather llas los raytrace ;;
    stack2 hydro wet.

End Grid.

(* ===================================================================== *)
(** ** File-backed entry point *)
(* ===================================================================== *)

(** What [util.gdal_open] returns: an array with its shape. *)
Record Raster : Type := mkRaster {
  shape : list nat;
  data : list Q
}.

(** The [los] argument of [delay_from_files]: the marker, or a file
    holding incidence and heading. *)
Inductive FileLos : Type :=
| ZenithLos
| LosFile (incidence heading : Raster).

(** The message of the shape check, as the three adjacent literals of the
    source spell it: only the first one is a formatted literal, and it
    has no replacement field. *)
Definition shape_message (lats lons hts : Raster) : string :=
  "lat, lon, and ht should have the same shape, but "
  ++ "instead lat had shape {lats.shape}, lon had shape "
  ++ "{lons.shape}, and ht had shape {hts.shape}".

Definition shape_eqb (a b : list nat) : bool :=
  if list_eq_dec Nat.eq_dec a b then true else false.

Section Files.

Variable util : Util.
Variable cpu_count : nat.
Variable schedule : list nat.

(** [losreader.los_to_lv(incidence, heading, lats, lons, hts, zref)],
    flattened to rows. *)
Variable los_to_lv :
  Raster -> Raster -> Raster -> Raster -> Raster -> Q -> result (list vec).

(** [delay_from_files(weather, lat, lon, ht, parallel, los, raytrace)],
    from the arrays [util.gdal_open] read. *)
Definition delay_from_files (weather : Weather) (lats lons hts : Raster)
    (parallel : bool) (los : FileLos) (raytrace : bool)
    : result (list Q * list Q) :=
  los <- match los with
         | ZenithLos => ret Zenith
         | LosFile incidence heading =>
             if raytrace then
               vs <- los_to_lv incidence heading lats lons hts (_ZREF util) ;;
               ret (Vectors vs)
             else ret (Scalars (data incidence))
         end ;;
  if negb (shape_eqb (shape lats) (shape lons)
           && shape_eqb (shape lons) (shape hts)) then
    raise (ValueError (shape_message lats lons hts))
  else
    let llas :=
      map (fun p => mklla (fst (fst p)) (snd (fst p)) (snd p))
          (combine (combine (data lats) (data lons)) (data hts)) in
    delay_from_grid util cpu_count schedule weather llas los parallel raytrace.

End Files.

(** How Python prints a shape tuple. *)
Definition repr_shape (sh : list nat) : string :=
  match sh with
  | [] => "()"
  | [n] => ("(" ++ str_nat n ++ ",)")%string
  | n :: tl =>
      ("(" ++ str_nat n
       ++ fold_right (fun m acc => ", " ++ str_nat m ++ acc) ")" tl)%string
  end.

(** [needle in haystack]. *)
Fixpoint is_prefix (p s : string) : bool :=
  match p, s with
  | EmptyString, _ => true
  | String a p', String b s' => Ascii.eqb a b && is_prefix p' s'
  | _, _ => false
  end.
Fixpoint contains (s needle : string) : bool :=
  is_prefix needle s
  || match s with
     | EmptyString => false
     | String _ s' => contains s' needle
     end.

(* ===================================================================== *)
(** ** A constant atmospheric model *)
(* ===================================================================== *)

(** A model answering the same value at every position. *)
Definition constant_query (c : Q) (ps : list vec) : result (list Q) :=
  ret (map (fun _ => c) ps).

Definition constant_weather (c : Q) : Weather :=
  mkWeather (constant_query c) (constant_query c).

(** A model whose hydrostatic query raises and whose wet query answers
    1 everywhere. *)
Definition raising_weather : Weather :=
  mkWeather (fun _ => raise (ModelError 7)) (constant_query 1).

(** A model whose hydrostatic query raises when one of the queried
    positions has the third coordinate [z], and which answers 1
    everywhere otherwise. *)
Definition raising_at (z : Q) : Weather :=
  mkWeather
    (fun ps =>
       if existsb (fun v => Qeq_bool (vz v) z) ps then raise (ModelError 7)
       else constant_query 1 ps)
    (constant_query 1).

(* ===================================================================== *)
(** ** A rational instance of [util] for concrete runs *)
(* ===================================================================== *)

(** On the polar axis (latitude 90, longitude 0) every quantity the
    engine computes is rational, so the code can be run exactly there.
    Trigonometry is Bhaskara's rational approximation, which is exact at
    0, 60 and 90 degrees; the coordinate transforms and the norm are the
    real ones restricted to the axis. *)
Module PolarAxis.

(** WGS84 semi-minor axis, in meters. *)
Definition b : Q := 63567523142 # 10000.

Definition cosd (x : Q) : Q := (32400 - 4 * x * x) / (32400 + x * x).
Definition sind (x : Q) : Q := cosd (90 - x).

Definition lla2ecef (lat lon h : Q) : vec := mkvec 0 0 (b + h).
Definition ecef2lla (p : vec) : lla := mklla 90 0 (vz p - b).
Definition norm (v : vec) : Q := Qabs (vx v) + Qabs (vy v) + Qabs (vz v).

Definition util : Util := mkUtil 15000 cosd sind lla2ecef ecef2lla norm.

(** A height conversion that reads two micrometers too high, as a
    conversion computed in floating point may, and the utilities with
    it in place of the exact one. *)
Definition ecef2lla_high (p : vec) : lla :=
  mklla 90 0 (vz p - b + (2 # 1000000)).

Definition util_high : Util :=
  mkUtil 15000 cosd sind lla2ecef ecef2lla_high norm.

(** The point on the axis at height [h]. *)
Definition pole (h : Q) : lla := mklla 90 0 h.

End PolarAxis.

(* ===================================================================== *)
(** ** Closed forms used in the proofs *)
(* ===================================================================== *)

(** The value [np.trapz(y, x)] has when both arrays have one length. *)
Definition trapz_value (y x : list Q) : Q :=
  np.sum (map (fun p => p / 2)
            (map (fun p => fst p * snd p) (combine (np.diff x) (np.pairsum y)))).

(** The start index of each ray in the batch answer: the exclusive
    running sum of the step counts. *)
Fixpoint offsets (acc : nat) (steps : list nat) : list nat :=
  match steps with
  | [] => []
  | s :: tl => acc :: offsets (acc + s) tl
  end.

(** One scaled integral per ray, each over its own chunk. *)
Fixpoint ray_integrals (chunks t_points_l : list (list Q)) : list Q :=
  match chunks, t_points_l with
  | c :: cs, tp :: tps => (1 # 1000000) * trapz_value c tp :: ray_integrals cs tps
  | _, _ => []
  end.

(** The batch answer cut back into one chunk per ray. *)
Fixpoint chunks_of (steps : list nat) (wet_delays : list Q) : list (list Q) :=
  match steps with
  | [] => []
  | s :: tl => firstn s wet_delays :: chunks_of tl (skipn s wet_delays)
  end.

(** What it is for the samples [r] to be the part of a ray kept for
    integration: the generated parameters and positions split into [r]
    and a cut part; the cut part is empty or starts with a sample higher
    than the reference height; every kept sample has height at most the
    reference height; everything is kept when no sample is higher, and
    nothing when the first sample is. *)
Definition kept_prefix (util : Util) (start scaled : vec)
    (thisspace : list Q) (r : RaySamples) : Prop :=
  let height := fun p => ht (ecef2lla util p) in
  let position := ray_positions start scaled thisspace in
  exists cut_t cut_p,
    thisspace = t_points r ++ cut_t /\
    position = positions r ++ cut_p /\
    length (t_points r) = first_high r /\
    length (positions r) = first_high r /\
    length cut_t = length cut_p /\
    Forall (fun p => height p <= _ZREF util) (positions r) /\
    match cut_p with
    | [] => True
    | p :: _ => _ZREF util < height p
    end /\
    (Forall (fun p => height p <= _ZREF util) position ->
     t_points r = thisspace /\ positions r = position) /\
    (forall p rest, position = p :: rest -> _ZREF util < height p ->
     t_points r = [] /\ positions r = []).

(** What the constant-model check says of one point [p], [L] meters
    below the reference height, and its delay [d].  The Zenith ray of
    [p] ends at the reference height itself, and the cut is at the first
    sample reading strictly higher; so the far end of the ray is kept or
    cut according to what the height conversion reads there.  The
    samples before the far end are those up to [L - spacing]. *)
Definition constant_form (util : Util) (c : Q) (p : lla) (d : Q) : Prop :=
  let lv := zenith_look_vec util p in
  let L := _ZREF util - ht p in
  let n := Qceiling (L / _STEP) in
  let spacing := L / inject_Z (n - 1) in
  let start := lla2ecef util (lat p) (lon p) (ht p) in
  let scaled := scaled_look_vec util lv in
  let height := fun t => ht (ecef2lla util (vadd start (vscale t scaled))) in
  0 < L ->
  norm util lv == L ->
  (L <= _STEP ->
   d == 0 /\
   Qabs (d - (1 # 1000000) * c * L) <= (1 # 1000000) * Qabs c * _STEP) /\
  (_STEP < L ->
   (forall t, 0 <= t -> t <= L - spacing -> height t <= _ZREF util) ->
   (height (norm util lv) <= _ZREF util -> d == (1 # 1000000) * c * L) /\
   (_ZREF util < height (norm util lv) ->
    d == (1 # 1000000) * c * (L - spacing)) /\
   Qabs (d - (1 # 1000000) * c * L)
   <= (1 # 1000000) * Qabs c * (2 * _STEP)).

(** What holds of the pool of [_parmap f jobs] at every moment: there is
    one answer slot per job; whatever is queued or held is a job at its
    own index; and every answer stored is what [f] returned for the job
    at that index. *)
Definition pool_ok {X Y : Type} (f : X -> result Y) (jobs : list X)
    (s : Pool (X:=X) (Y:=Y)) : Prop :=
  length (answers s) = length jobs /\
  (forall i x, In (i, x) (queue s) -> nth_error jobs i = Some x) /\
  (forall i x, In (Holding i x) (threads s) -> nth_error jobs i = Some x) /\
  (forall i y, nth_error (answers s) i = Some (Some y) ->
     exists x, nth_error jobs i = Some x /\ f x = inr y).

(** How many moves thread [k] still has at most before it ends. *)
Definition moves_left {X Y : Type} (s : Pool (X:=X) (Y:=Y)) (k : nat) : nat :=
  match nth_error (threads s) k with
  | Some Ready => 2 * length (queue s) + 1
  | Some (Holding _ _) => 2 * length (queue s) + 2
  | _ => 0
  end.

(** What holds of the pool as long as no job has raised: every job is
    queued, held by a thread or answered; and a thread has ended only
    once the queue was empty. *)
Definition pool_served {X Y : Type} (jobs : list X)
    (s : Pool (X:=X) (Y:=Y)) : Prop :=
  (forall i x, nth_error jobs i = Some x ->
     In (i, x) (queue s) \/ In (Holding i x) (threads s) \/
     exists y, nth_error (answers s) i = Some (Some y)) /\
  (In Finished (threads s) -> queue s = []).

(** A model that answers position by position, and the delay a Zenith
    query computes for one point on such a model: the scaled trapezoidal
    integral of the model along the point's truncated ray. *)
Definition pointwise_query (d : vec -> Q) (ps : list vec) : result (list Q) :=
  ret (map d ps).

Definition pointwise_weather (dh dw : vec -> Q) : Weather :=
  mkWeather (pointwise_query dh) (pointwise_query dw).

Definition ray_delay (d : vec -> Q) (r : RaySamples) : Q :=
  (1 # 1000000) * trapz_value (map d (positions r)) (t_points r).

Definition zenith_point_delay (util : Util) (d : vec -> Q) (p : lla) : Q :=
  match ray_thisspace util (zenith_look_vec util p) with
  | inr ts =>
      ray_delay d
        (truncate_ray util (lla2ecef util (lat p) (lon p) (ht p))
           (scaled_look_vec util (zenith_look_vec util p)) ts)
  | inl _ => 0
  end.

(** The job [delay_from_grid] means for slice [i] of [h] slices of [n]
    points. *)
Definition slice_job (name : string) (n h i : nat) : Job :=
  (name, (i * n / h)%nat, ((i + 1) * n / h)%nat).

(* ===================================================================== *)
(** ** Delays over an area *)
(* ===================================================================== *)

(** A range whose bounds and step are integers small enough for
    [np.arange] to work without rounding: the step is not zero and the
    three are below [2^26] in magnitude, so that the quotient
    [(stop - start)/step], rounded to a float, is an integer only when
    it is one exactly, and every sample is an integer a float holds. *)
Definition integer_range (start stop step : Z) : Prop :=
  (step <> 0 /\
   Z.abs start < 2 ^ 26 /\ Z.abs stop < 2 ^ 26 /\ Z.abs step < 2 ^ 26)%Z.

(** [np.arange(start, stop, step)]: [ceil((stop - start)/step)] samples
    [start + i*step], none when that count is not positive.  A zero step
    raises (which exception depends on the argument types); that is
    [None] here.  The count and the samples are taken exactly.  On floats
    NumPy rounds the quotient before the ceiling and each sample after
    the product, so the count can be one more and a sample one rounding
    off; on an [integer_range] there is no rounding. *)
Definition np_arange (start stop step : Q) : option (list Q) :=
  if Qeq_bool step 0 then None
  else
    Some (map (fun i => start + inject_Z (Z.of_nat i) * step)
            (seq 0 (Z.to_nat (Qceiling ((stop - start) / step))))).

(** [np.array(np.meshgrid(lats, lons, hts)).T.reshape(-1, 3)]: the rows
    of the cartesian product, the heights varying slowest and the
    longitudes fastest. *)
Definition meshgrid_rows (lats lons hts : list Q) : list lla :=
  flat_map (fun h =>
              flat_map (fun la => map (fun lo => mklla la lo h) lons) lats)
           hts.

(** What [delay_over_area] raises: the exception of [np.arange], or one
    of [delay_from_grid]. *)
Inductive AreaError : Type :=
| ArangeError
| GridError (e : PyError).

Section Area.

Variable util : Util.
Variable cpu_count : nat.
Variable schedule : list nat.

(** [delay_over_area(weather, lat_min, lat_max, lat_res, lon_min, lon_max,
    lon_res, ht_min, ht_max, ht_res, los)]. *)
Definition delay_over_area (weather : Weather)
    (lat_min lat_max lat_res lon_min lon_max lon_res ht_min ht_max ht_res : Q)
    (los : LookVecs) : AreaError + (list Q * list Q) :=
  match np_arange lat_min lat_max lat_res with
  | None => inl ArangeError
  | Some lats =>
      match np_arange lon_min lon_max lon_res with
      | None => inl ArangeError
      | Some lons =>
          match np_arange ht_min ht_max ht_res with
          | None => inl ArangeError
          | Some hts =>
              let llas := meshgrid_rows lats lons hts in
              match delay_from_grid util cpu_count schedule weather llas los
                      true true with
              | inl e => inl (GridError e)
              | inr hw => inr hw
              end
          end
      end
  end.

End Area.

(* ===================================================================== *)
(** ** The command-line entry point *)
(* ===================================================================== *)

(** What [losreader.infer_los] returns: an array of shape [(..., 3)],
    kept as its shape and its rows. *)
Record LosArray : Type := mkLosArray {
  los_shape : list nat;
  los_rows : list vec
}.

(** The message of the shape check of [_tropo_delay_with_values], as the
    three adjacent literals of the source spell it: only the middle one
    is a formatted literal. *)
Definition tropo_shape_message (lats lons : Raster) : string :=
  ("I need lats, lons, heights, and los to all be the same shape. "
   ++ ("lats had shape " ++ repr_shape (shape lats)
       ++ ", lons had shape " ++ repr_shape (shape lons) ++ ", ")
   ++ "heights had shape {hts.shape}, and los had shape {los.shape}")%string.

Section Values.

Variable util : Util.
Variable cpu_count : nat.
Variable schedule : list nat.

(** The [los] argument when it is not [None], and
    [losreader.infer_los(los, lats, lons, hts, zref)]. *)
Variable LosSpec : Type.
Variable infer_los :
  LosSpec -> Raster -> Raster -> Raster -> Q -> result LosArray.

(** [_tropo_delay_with_values(los, lats, lons, hts, weather, zref, out,
    time)]; [out] and [time] are not used. *)
Definition _tropo_delay_with_values (los : option LosSpec)
    (lats lons hts : Raster) (weather : Weather) (zref : Q)
    : result (list Q * list Q) :=
  los <- match los with
         | None => ret None
         | Some l => a <- infer_los l lats lons hts zref ;; ret (Some a)
         end ;;
  if negb (shape_eqb (shape hts) (shape lats)
           && shape_eqb (shape lats) (shape lons))
     || match los with
        | None => false
        | Some a => negb (shape_eqb (removelast (los_shape a)) (shape hts))
        end
  then raise (ValueError (tropo_shape_message lats lons))
  else
    let llas :=
      map (fun p => mklla (fst (fst p)) (snd (fst p)) (snd p))
          (combine (combine (data lats) (data lons)) (data hts)) in
    delay_from_grid util cpu_count schedule weather llas
      (match los with
       | None => Zenith
       | Some a => Vectors (los_rows a)
       end) true true.

End Values.

(* ===================================================================== *)
(** ** Zenith, projected and ray-traced maps of one scene *)
(* ===================================================================== *)

(** [a + b] on two arrays of one shape. *)
Definition np_add (a b : list Q) : list Q :=
  map (fun p => fst p + snd p) (combine a b).

(** [np.zeros_like(a)]. *)
Definition zeros_like (a : Raster) : Raster :=
  mkRaster (shape a) (map (fun _ => 0) (data a)).

Section Scene.

Variable util : Util.
Variable cpu_count : nat.
Variable schedule : list nat.
Variable los_to_lv :
  Raster -> Raster -> Raster -> Raster -> Raster -> Q -> result (list vec).

(** [sim_weather_plots(sim_weather, lat, lon, los)] of the test module,
    from the arrays [util.gdal_open] read; it returns the three maps
    [(zenith, cmbd_raytrace, cmbd_cosine)], kept flat. *)
Definition sim_weather_plots (sim_weather : Weather) (lats lons : Raster)
    (incidence heading : Raster) : result (list Q * list Q * list Q) :=
  if negb (shape_eqb (shape lats) (shape lons)) then
    raise (ValueError "all input arrays must have the same shape")
  else
    let llas :=
      map (fun p => mklla (fst p) (snd p) 0)
          (combine (data lats) (data lons)) in
    hw <- delay_from_grid util cpu_count schedule sim_weather llas Zenith
            false true ;;
    let zenith := np_add (fst hw) (snd hw) in
    hw <- delay_from_grid util cpu_count schedule sim_weather llas
            (Scalars (data incidence)) false false ;;
    let cmbd_cosine := np_add (fst hw) (snd hw) in
    lvs <- los_to_lv incidence heading lats lons (zeros_like lats) 15000 ;;
    hw <- delay_from_grid util cpu_count schedule sim_weather llas
            (Vectors lvs) false true ;;
    let cmbd_raytrace := np_add (fst hw) (snd hw) in
    ret (zenith, cmbd_raytrace, cmbd_cosine).

End Scene.

(* ===================================================================== *)
(** ** Command-line arguments ([checkArgs.py]) *)
(* ===================================================================== *)

(** [str.lower()], [str.upper()] and [str.replace('-', '')] on ASCII
    text: the letters A-Z and a-z change case, every other character is
    kept. *)
Definition ascii_lower (c : ascii) : ascii :=
  let n := nat_of_ascii c in
  if ((65 <=? n) && (n <=? 90))%nat then ascii_of_nat (n + 32) else c.

Definition ascii_upper (c : ascii) : ascii :=
  let n := nat_of_ascii c in
  if ((97 <=? n) && (n <=? 122))%nat then ascii_of_nat (n - 32) else c.

Fixpoint str_map (f : ascii -> ascii) (s : string) : string :=
  match s with
  | EmptyString => EmptyString
  | String c s' => String (f c) (str_map f s')
  end.

Definition str_lower : string -> string := str_map ascii_lower.
Definition str_upper : string -> string := str_map ascii_upper.

Fixpoint remove_hyphens (s : string) : string :=
  match s with
  | EmptyString => EmptyString
  | String c s' =>
      if Ascii.eqb c "-" then remove_hyphens s'
      else String c (remove_hyphens s')
  end.

(** Text made of ASCII characters only. *)
Fixpoint ascii_text (s : string) : bool :=
  match s with
  | EmptyString => true
  | String c s' => (nat_of_ascii c <? 128)%nat && ascii_text s'
  end.

(** The exceptions of the command-line layer: those of [PyError],
    [SystemExit] from [p.error(msg)] of the argument parser,
    [NotImplementedError], and whatever an imported function raises. *)
Inductive CliError : Type :=
| Py (e : PyError)
| SystemExit (msg : string)
| NotImplementedError (msg : string)
| Foreign (tag : nat).

Definition cli (A : Type) : Type := (CliError + A)%type.

Definition cli_bind {A B} (m : cli A) (k : A -> cli B) : cli B :=
  match m with
  | inl e => inl e
  | inr a => k a
  end.

Notation "x <~ m ;; k" := (cli_bind m (fun x => k))
  (at level 61, m at next level, right associativity).

(** [d[key]] on a dict written as its items. *)
Fixpoint dict_get (d : list (string * string)) (key : string)
    : option string :=
  match d with
  | [] => None
  | (k, v) :: tl => if String.eqb k key then Some v else dict_get tl key
  end.

Definition outformat_dict : list (string * string) :=
  [("hdf5", "h5"); ("hdf", "h5"); ("h5", "h5"); ("envi", "envi")]%string.

(** [output_format(outformat)].  A failed lookup reaches
    [raise NotImplemented]; [NotImplemented] is not an exception, so the
    statement raises [TypeError]. *)
Definition output_format (outformat : string) : cli string :=
  let outformat := str_lower outformat in
  match dict_get outformat_dict outformat with
  | Some v => inr v
  | None => inl (Py TypeError)
  end.

Section ModelName.

(** [importlib.import_module] and [getattr] on the imported module. *)
Context {PyModule PyObject : Type}.
Variable import_module : string -> cli PyModule.
Variable getattr : PyModule -> string -> cli PyObject.

(** [modelName2Module(model_name)]. *)
Definition modelName2Module (model_name : string) : cli (string * PyObject) :=
  let module_name :=
    ("RAiDER.models." ++ remove_hyphens (str_lower model_name))%string in
  model_module <~ import_module module_name ;;
  wmObject <~ getattr model_module (remove_hyphens (str_upper model_name)) ;;
  inr (module_name, wmObject).

End ModelName.

(** The line-feed character. *)
Definition LF : string := String (ascii_of_nat 10) EmptyString.

(** The [los], [heights] and [weathers] values [checkArgs] builds. *)
Inductive LosChoice : Type :=
| LosFromFile (lineofsight : string)      (* [('los', args.lineofsight)] *)
| LosFromStateVectors (statevectors : string)   (* [('sv', ...)] *)
| LosZenith.

Inductive HeightChoice : Type :=
| HeightsDem (dem : string)               (* [('dem', args.dem)] *)
| HeightsLevels (lvs : list Q)            (* [('lvs', args.heightlvs)] *)
| HeightsDownload.                        (* [('download', None)] *)

Section CheckArgs.

Context {PyModule PyObject : Type}.
Variable import_module : string -> cli PyModule.
Variable getattr : PyModule -> string -> cli PyObject.

(** The values of the arguments this module only passes on. *)
Context {Area BBox Time WrfFiles NetcdfFiles PickleFile LatLon Model : Type}.

(** [am.AllowedModels()]. *)
Variable AllowedModels : list string.

(** The three ways [readLL] is called. *)
Inductive LLSource : Type :=
| FromArea (area : Area)
| FromBoundingBox (bounding_box : BBox)
| FromStationFile (station_file : string).

Variable readLL : LLSource -> cli (LatLon * LatLon).

(** [dt.strftime(time, format)] on a date, the constructor call
    [model_obj()] and [os.path.join]. *)
Variable strftime : Time -> string -> string.
Variable construct : PyObject -> cli Model.
Variable path_join : string -> string -> string.

(** The attributes of [args] the function reads. *)
Record Args : Type := mkArgs {
  heightlvs : option (list Q);
  outformat : option string;
  area : option Area;
  bounding_box : option BBox;
  wmnetcdf : option NetcdfFiles;
  station_file : option string;
  time : option Time;
  model : string;
  wrfmodelfiles : option WrfFiles;
  lineofsight : option string;
  statevectors : option string;
  dem : option string;
  pickleFile : option PickleFile;
  wmLoc : option string;
  out : string;
  zref_arg : Q;
  no_parallel : bool;
  download_only : bool;
  verbose : bool
}.

(** The dict [weathers]: its ['type'] is a string or a model object. *)
Inductive Weathers : Type :=
| WeatherWrf (files : option WrfFiles)            (* type 'wrf', name 'wrf' *)
| WeatherPickle (files : option PickleFile)       (* type and name 'pickle' *)
| WeatherModel (type : Model) (files : option NetcdfFiles) (name : string).

(** The tuple [checkArgs] returns, with what it printed and what it left
    in [args.outformat]. *)
Record Checked : Type := mkChecked {
  c_los : LosChoice;
  c_lat : option LatLon;
  c_lon : option LatLon;
  c_heights : HeightChoice;
  c_flag : option string;
  c_weathers : Weathers;
  c_wmLoc : string;
  c_zref : Q;
  c_outformat : string;
  c_time : option Time;
  c_out : string;
  c_download_only : bool;
  c_parallel : bool;
  c_verbose : bool;
  printed : list string;
  args_outformat : string
}.

Definition is_some {A} (o : option A) : bool :=
  match o with Some _ => true | None => false end.

Definition no_source_message : string :=
  ("You must specify one of the following: " ++ LF
   ++ "              (1) lat/lon files, (2) bounding box, (3) weather model files, or"
   ++ LF
   ++ "              (4) station file containing Lat and Lon columns")%string.

(** The two file names built from the model and the time; the values are
    not used, but [dt.strftime] raises [TypeError] on [None]. *)
Definition geom_file_name (args : Args) (kind : string) : cli string :=
  let m := remove_hyphens (str_lower (model args)) in
  match time args with
  | None => inl (Py TypeError)
  | Some t =>
      inr (m ++ kind ++ strftime t "%Y_%m_%d_T%H_%M_%S" ++ ".dat")%string
  end.

(** [checkArgs(args, p)]. *)
Definition checkArgs (args : Args) : cli Checked :=
  if is_some (heightlvs args)
     && negb (match outformat args with
              | Some f => String.eqb f "hdf5"
              | None => false
              end)
  then inl (Py (ValueError "HDF5 must be used with height levels"))
  else if negb (is_some (area args)) && negb (is_some (bounding_box args))
          && negb (is_some (wmnetcdf args))
          && negb (is_some (station_file args))
  then inl (Py (ValueError no_source_message))
  else if negb (is_some (time args)) && negb (is_some (wmnetcdf args))
  then inl (SystemExit
              "You must specify either the weather model file (--wmnetcdf) or time (--time)")
  else if negb (existsb (String.eqb (model args)) AllowedModels)
  then inl (NotImplementedError
              ("Model " ++ model args ++ " is not an implemented model type"))
  else if String.eqb (model args) "WRF" && negb (is_some (wrfmodelfiles args))
  then inl (SystemExit "Argument --wrfmodelfiles required with --model WRF")
  else
    (* Line of sight *)
    let los :=
      match lineofsight args, statevectors args with
      | Some l, _ => LosFromFile l
      | None, Some sv => LosFromStateVectors sv
      | None, None => LosZenith
      end in
    (* Area *)
    latlon <~ match area args, bounding_box args, station_file args with
              | Some a, _, _ =>
                  ll <~ readLL (FromArea a) ;; inr (Some (fst ll), Some (snd ll))
              | None, Some b, _ =>
                  ll <~ readLL (FromBoundingBox b) ;;
                  inr (Some (fst ll), Some (snd ll))
              | None, None, Some s =>
                  ll <~ readLL (FromStationFile s) ;;
                  inr (Some (fst ll), Some (snd ll))
              | None, None, None => inr (None, None)
              end ;;
    lonFileName <~ geom_file_name args "_Lon_" ;;
    latFileName <~ geom_file_name args "_Lat_" ;;
    (* DEM *)
    let heights :=
      match dem args, heightlvs args with
      | Some d, _ => HeightsDem d
      | None, Some lvs => HeightsLevels lvs
      | None, None => HeightsDownload
      end in
    (* Weather *)
    mm <~ modelName2Module import_module getattr (model args) ;;
    let model_obj := snd mm in
    weathers <~ (if String.eqb (model args) "WRF" then
                   inr (WeatherWrf (wrfmodelfiles args))
                 else if String.eqb (model args) "pickle" then
                   inr (WeatherPickle (pickleFile args))
                 else
                   type <~ construct model_obj ;;
                   inr (WeatherModel type (wmnetcdf args) (model args))) ;;
    let wmLoc :=
      match wmLoc args with
      | Some w => w
      | None => path_join (out args) "weather_files"
      end in
    (* output file format *)
    let args_outformat :=
      match outformat args with
      | Some f => f
      | None =>
          if is_some (heightlvs args) then "hdf5"
          else if is_some (station_file args) then "netcdf"
          else "ENVI"
      end%string in
    let '(outformat, printed) :=
      (if is_some (heightlvs args) then
         ("hdf5",
          if negb (String.eqb (str_lower args_outformat) "hdf5") then
            ["WARNING: input arguments require HDF5 output file type; changing outformat to HDF5"]
          else [])
       else if is_some (station_file args) then
         ("netcdf",
          if negb (String.eqb (str_lower args_outformat) "netcdf") then
            ["WARNING: input arguments require HDF5 output file type; changing outformat to HDF5"]
          else [])
       else if String.eqb (str_lower args_outformat) "hdf5" then
         ("ENVI",
          ["WARNING: output require raster output file; changing outformat to ENVI"])
       else (str_lower args_outformat, []))%string in
    let parallel := negb (no_parallel args) in
    let flag :=
      match area args, bounding_box args, station_file args with
      | Some _, _, _ => Some "files"
      | None, Some _, _ => Some "bounding_box"
      | None, None, Some _ => Some "station_file"
      | None, None, None => None
      end%string in
    inr (mkChecked los (fst latlon) (snd latlon) heights flag weathers wmLoc
           (zref_arg args) outformat (time args) (out args)
           (download_only args) parallel (verbose args) printed
           args_outformat).

End CheckArgs.

(* ===================================================================== *)
(** ** Output file names of [tropo_delay] *)
(* ===================================================================== *)

(** One name of the generator in [tropo_delay],
    [f'{weather_fmt}_{dtyp}_{time.isoformat() + "_" if time is not None
    else empty}{"z" if los is None else "s"}td.{outformat}']; [time_iso]
    is what [time.isoformat()] returns when there is a time, [los_given]
    tells whether [los] is not [None]. *)
Definition output_name (weather_fmt dtyp : string) (time_iso : option string)
    (los_given : bool) (outformat : string) : string :=
  (weather_fmt ++ "_" ++ dtyp ++ "_"
   ++ match time_iso with
      | Some t => t ++ "_"
      | None => EmptyString
      end
   ++ (if los_given then "s" else "z") ++ "td." ++ outformat)%string.

(** [hydroname, wetname], for [dtyp] in [('hydro', 'wet')]. *)
Definition output_names (weather_fmt : string) (time_iso : option string)
    (los_given : bool) (outformat : string) : string * string :=
  (output_name weather_fmt "hydro" time_iso los_given outformat,
   output_name weather_fmt "wet" time_iso los_given outformat).

(* ===================================================================== *)
(** * Properties *)
(* ===================================================================== *)

(** ** The error monad *)

Lemma bind_inr {A B} (m : result A) (k : A -> result B) (b : B) :
  bind m k = inr b -> exists a, m = inr a /\ k a = inr b.
Proof. destruct m as [e|a]; simpl; [discriminate | eauto]. Qed.

(** ** Comparisons on rationals *)

Lemma gt_true_iff (x y : Q) : np.gt x y = true <-> y < x.
Proof.
  unfold np.gt. rewrite negb_true_iff.
  split; intro H.
  - apply Qnot_le_lt. intro Hle. apply Qle_bool_iff in Hle. congruence.
  - destruct (Qle_bool x y) eqn:E; [|reflexivity].
    apply Qle_bool_iff in E. exfalso. apply (Qlt_not_le _ _ H E).
Qed.

Lemma gt_false_iff (x y : Q) : np.gt x y = false <-> x <= y.
Proof.
  unfold np.gt. rewrite negb_false_iff. apply Qle_bool_iff.
Qed.

(** ** [np.where] and the cut index *)

Lemma where_from_nil (mask : list bool) (i : nat) :
  np.where_from i mask = [] -> Forall (fun b => b = false) mask.
Proof.
  revert i. induction mask as [|b tl IH]; intros i H; [constructor|].
  simpl in H. destruct b; [discriminate|].
  constructor; [reflexivity | eauto].
Qed.

Lemma where_from_cons (mask : list bool) (i j : nat) (rest : list nat) :
  np.where_from i mask = j :: rest ->
  exists k, j = (i + k)%nat /\ (k < length mask)%nat /\
            nth_error mask k = Some true /\
            Forall (fun b => b = false) (firstn k mask).
Proof.
  revert i. induction mask as [|b tl IH]; intros i H; [discriminate|].
  simpl in H. destruct b.
  - inversion H; subst. exists O. simpl. repeat split; try lia. constructor.
  - destruct (IH _ H) as (k & -> & Hk & Hn & Hf).
    exists (S k). simpl. repeat split; try lia; auto.
Qed.

Section TooHigh.

Variable util : Util.

Local Abbreviation height p := (ht (ecef2lla util p)).

Lemma too_high_le (ps : list vec) (z : Q) :
  (_too_high util ps z <= length ps)%nat.
Proof.
  unfold _too_high.
  destruct (np.where_ _) as [|j rest] eqn:E; [lia|].
  apply where_from_cons in E. destruct E as (k & -> & Hk & _).
  rewrite !length_map in Hk. lia.
Qed.

Lemma too_high_kept (ps : list vec) (z : Q) :
  Forall (fun p => height p <= z) (firstn (_too_high util ps z) ps).
Proof.
  unfold _too_high.
  destruct (np.where_ _) as [|j rest] eqn:E.
  - apply where_from_nil in E. rewrite firstn_all.
    rewrite map_map in E. rewrite Forall_map in E.
    eapply Forall_impl; [|exact E]. intros p Hp. now apply gt_false_iff.
  - apply where_from_cons in E. destruct E as (k & -> & _ & _ & Hf).
    simpl. rewrite map_map in Hf. rewrite firstn_map, Forall_map in Hf.
    eapply Forall_impl; [|exact Hf]. intros p Hp. now apply gt_false_iff.
Qed.

Lemma too_high_cut (ps : list vec) (z : Q) :
  match skipn (_too_high util ps z) ps with
  | [] => _too_high util ps z = length ps
  | p :: _ => z < height p
  end.
Proof.
  unfold _too_high.
  destruct (np.where_ _) as [|j rest] eqn:E.
  - rewrite skipn_all. reflexivity.
  - apply where_from_cons in E. destruct E as (k & -> & Hk & Hn & _).
    simpl. rewrite map_map in Hn. rewrite nth_error_map in Hn.
    destruct (nth_error ps k) as [p|] eqn:Ep; [|discriminate].
    simpl in Hn. injection Hn as Hn. apply gt_true_iff in Hn.
    pose proof (firstn_skipn k ps) as Hs.
    assert (Hlen : length (firstn k ps) = k).
    { rewrite length_firstn. rewrite !length_map in Hk. lia. }
    destruct (skipn k ps) as [|q tl] eqn:Es.
    + rewrite app_nil_r in Hs. rewrite <- Hs in Ep.
      assert (k < length (firstn k ps))%nat
        by (apply nth_error_Some; congruence).
      lia.
    + rewrite <- Hs in Ep. rewrite nth_error_app2 in Ep by lia.
      rewrite Hlen, Nat.sub_diag in Ep. simpl in Ep. now injection Ep as ->.
Qed.

Lemma too_high_all (ps : list vec) (z : Q) :
  Forall (fun p => height p <= z) ps -> _too_high util ps z = length ps.
Proof.
  intro H. pose proof (too_high_cut ps z) as Hc.
  destruct (skipn _ ps) as [|p tl] eqn:E; [assumption|].
  exfalso.
  assert (In p ps).
  { rewrite <- (firstn_skipn (_too_high util ps z) ps), E.
    apply in_or_app. right. now left. }
  rewrite Forall_forall in H. specialize (H _ H0).
  apply (Qlt_not_le _ _ Hc H).
Qed.

Lemma too_high_first (p : vec) (ps : list vec) (z : Q) :
  z < height p -> _too_high util (p :: ps) z = O.
Proof.
  intro H. unfold _too_high. simpl.
  apply gt_true_iff in H. simpl in H. rewrite H. reflexivity.
Qed.

End TooHigh.

(** One pass of the loop body keeps the prefix that ends just before the
    first sample higher than the reference height. *)
Lemma truncate_ray_kept_prefix (util : Util) (start scaled : vec)
    (thisspace : list Q) :
  kept_prefix util start scaled thisspace
    (truncate_ray util start scaled thisspace).
Proof.
  unfold kept_prefix.
  set (height := fun p => ht (ecef2lla util p)).
  set (position := ray_positions start scaled thisspace).
  set (r := truncate_ray util start scaled thisspace).
  set (k := _too_high util position (_ZREF util)).
  assert (Hlenp : length position = length thisspace)
    by (unfold position, ray_positions; apply length_map).
  assert (Hk : (k <= length position)%nat) by apply too_high_le.
  exists (skipn k thisspace), (skipn k position).
  unfold r, truncate_ray. fold position. fold k. simpl.
  repeat split.
  - symmetry. apply firstn_skipn.
  - symmetry. apply firstn_skipn.
  - rewrite length_firstn. lia.
  - rewrite length_firstn. lia.
  - rewrite !length_skipn. lia.
  - apply too_high_kept.
  - pose proof (too_high_cut util position (_ZREF util)) as Hc.
    fold k in Hc. destruct (skipn k position); [exact I | exact Hc].
  - apply (too_high_all util) in H. fold k in H. rewrite H, Hlenp.
    apply firstn_all.
  - apply (too_high_all util) in H. fold k in H. rewrite H.
    apply firstn_all.
  - unfold k. rewrite H. rewrite (too_high_first util) by assumption.
    reflexivity.
  - unfold k. rewrite H. rewrite (too_high_first util) by assumption.
    reflexivity.
Qed.

(** ** The sampler: [np.linspace] over [ceil(length / _STEP)] points *)

Lemma inject_Z_pred (n : Z) : inject_Z n == inject_Z (n - 1) + 1.
Proof.
  change 1 with (inject_Z 1). rewrite <- inject_Z_plus.
  replace (n - 1 + 1)%Z with n by lia. reflexivity.
Qed.

Lemma div_step (L : Q) : L / _STEP == L * (1 # 15).
Proof. reflexivity. Qed.

(** The step count brackets the length: [(n - 1) * _STEP < L <= n * _STEP]. *)
Lemma steps_bracket (L : Q) :
  15 * inject_Z (Qceiling (L / _STEP) - 1) < L /\
  L <= 15 * (inject_Z (Qceiling (L / _STEP) - 1) + 1).
Proof.
  pose proof (Qle_ceiling (L / _STEP)) as Hle.
  pose proof (Qceiling_lt (L / _STEP)) as Hlt.
  rewrite (inject_Z_pred (Qceiling (L / _STEP))) in Hle.
  set (m := inject_Z (Qceiling (L / _STEP) - 1)) in *.
  rewrite div_step in Hle, Hlt. split; lra.
Qed.

(** The step count of a ray of positive length is positive. *)
Lemma steps_positive (L : Q) : 0 < L -> (1 <= Qceiling (L / _STEP))%Z.
Proof.
  intro HL. destruct (steps_bracket L) as [_ H].
  assert (H0 : 0 < inject_Z (Qceiling (L / _STEP) - 1) + 1) by lra.
  rewrite <- inject_Z_pred in H0.
  rewrite <- (Zlt_Qlt 0) in H0. lia.
Qed.

(** One sample exactly when the ray is no longer than a step. *)
Lemma steps_one_iff (L : Q) :
  0 < L -> (Qceiling (L / _STEP) = 1%Z <-> L <= _STEP).
Proof.
  intro HL. pose proof (steps_positive L HL) as Hpos.
  destruct (steps_bracket L) as [Hlo Hhi].
  set (n := Qceiling (L / _STEP)) in *.
  split; intro H.
  - rewrite H in Hhi. change (inject_Z (1 - 1)) with 0 in Hhi.
    unfold _STEP. lra.
  - unfold _STEP in H.
    assert (Hn : inject_Z (n - 1) < 1) by lra.
    change 1 with (inject_Z 1) in Hn. rewrite <- Zlt_Qlt in Hn. lia.
Qed.

Lemma nth_map_seq (g : nat -> Q) (n i : nat) :
  (i < n)%nat -> nth i (map g (seq 0 n)) 0 = g i.
Proof.
  intro H. rewrite (nth_indep _ 0 (g O)) by (rewrite length_map, length_seq; lia).
  rewrite map_nth, seq_nth by lia. reflexivity.
Qed.

(** The samples [np.linspace(0, L, n)] returns for [n >= 2]. *)
Lemma linspace_nth (L : Q) (n : Z) :
  (2 <= n)%Z ->
  exists ts, np.linspace 0 L n = inr ts /\
    Z.of_nat (length ts) = n /\
    last ts 0 = L /\
    forall i, (i < length ts)%nat ->
      nth i ts 0 == inject_Z (Z.of_nat i) * (L / inject_Z (n - 1)).
Proof.
  intro Hn. unfold np.linspace.
  destruct (n <? 0)%Z eqn:E; [apply Z.ltb_lt in E; lia|].
  destruct (Z.to_nat n) as [|[|k]] eqn:Ek; try lia.
  eexists. split; [reflexivity|].
  assert (Hk : n = Z.of_nat (S (S k))) by lia.
  repeat split.
  - rewrite length_app, length_map, length_seq. simpl length. lia.
  - apply last_last.
  - intros i Hi.
    rewrite length_app, length_map, length_seq in Hi. simpl in Hi.
    destruct (Nat.eq_dec i (S k)) as [->|Hne].
    + rewrite app_nth2 by (rewrite length_map, length_seq; lia).
      rewrite length_map, length_seq, Nat.sub_diag. simpl nth.
      replace (Z.of_nat (S k)) with (n - 1)%Z by lia.
      field. intro H0. change 0 with (inject_Z 0) in H0.
      rewrite inject_Z_injective in H0. lia.
    + rewrite app_nth1 by (rewrite length_map, length_seq; lia).
      rewrite nth_map_seq by lia.
      unfold Qminus. setoid_replace (L + - 0) with L by ring.
      ring.
Qed.




(** ** The jobs of a parallel call *)

Lemma getitem_error {A} (l : list A) (i : nat) (e : PyError) :
  getitem l i = inl e -> e = IndexError /\ (length l <= i)%nat.
Proof.
  unfold getitem. destruct (nth_error l i) eqn:E; [discriminate|].
  intro H. injection H as <-. split; [reflexivity|].
  now apply nth_error_None.
Qed.

(** Drawing jobs can only fail with [IndexError]. *)
Lemma draw_jobs_error (name : string) (hs : list nat) (range : list nat)
    (e : PyError) :
  draw_jobs name hs range = inl e -> e = IndexError.
Proof.
  induction range as [|i tl IH]; simpl; [discriminate|].
  destruct (getitem hs i) eqn:E1; simpl.
  { intro H. injection H as <-. now apply getitem_error in E1. }
  destruct (getitem hs (i + 1)) eqn:E2; simpl.
  { intro H. injection H as <-. now apply getitem_error in E2. }
  destruct (draw_jobs name hs tl); simpl; [|discriminate].
  intro H. injection H as <-. now apply IH.
Qed.

(** Drawing succeeds only when every index and its successor are in
    range. *)
Lemma draw_jobs_in_range (name : string) (hs : list nat) (range : list nat)
    (js : list Job) :
  draw_jobs name hs range = inr js ->
  forall i, In i range -> (i + 1 < length hs)%nat.
Proof.
  revert js. induction range as [|i tl IH]; simpl; intros js H j Hj;
    [contradiction|].
  apply bind_inr in H. destruct H as (s & Hs & H).
  apply bind_inr in H. destruct H as (e & He & H).
  apply bind_inr in H. destruct H as (rest & Hrest & _).
  destruct Hj as [<-|Hj]; [|eauto].
  unfold getitem in He. destruct (nth_error hs (i + 1)) eqn:E; [|discriminate].
  apply nth_error_Some. congruence.
Qed.

Lemma linspace_int_length (stop num : nat) :
  length (np.linspace_int stop num) = num.
Proof.
  unfold np.linspace_int. destruct num as [|[|k]]; try reflexivity.
  rewrite length_app, length_map, length_seq. simpl. lia.
Qed.

(** On an odd number of processing units the wet jobs index [hindices]
    one past its end. *)
Lemma grid_jobs_odd (n h : nat) : grid_jobs n (2 * h + 1) = inl IndexError.
Proof.
  unfold grid_jobs.
  replace ((2 * h + 1) / 2)%nat with h
    by (apply Nat.div_unique with 1%nat; lia).
  replace (2 * h + 1 - h)%nat with (S h) by lia.
  set (hindices := np.linspace_int n (h + 1)).
  assert (Hlen : length hindices = (h + 1)%nat) by apply linspace_int_length.
  clearbody hindices.
  destruct (draw_jobs "hydro" hindices (seq 0 h)) as [e|hjobs] eqn:Eh;
    cbn [bind].
  { rewrite (draw_jobs_error _ _ _ _ Eh). reflexivity. }
  destruct (draw_jobs "wet" hindices (seq 0 (S h))) as [e|wjobs] eqn:Ew;
    cbn [bind].
  { rewrite (draw_jobs_error _ _ _ _ Ew). reflexivity. }
  exfalso.
  pose proof (draw_jobs_in_range _ _ _ _ Ew h) as H.
  assert (Hin : In h (seq 0 (S h))) by (apply in_seq; lia).
  specialize (H Hin). lia.
Qed.

(** C3, at the failing input. With three processing units (one for the
    hydrostatic component, two for the wet one) the wet jobs cannot be
    drawn: the second one reads [hindices[2]] of a two-element array and
    raises, for every number of points; so do all odd unit counts.  The
    wet slices never come to exist, let alone tile the index range. *)
Theorem grid_jobs_three_units_raises :
  forall n : nat,
    grid_jobs n 3 = inl IndexError /\
    forall h : nat, grid_jobs n (2 * h + 1) = inl IndexError.
Proof.
  intro n. split; [apply (grid_jobs_odd n 1) | apply grid_jobs_odd].
Qed.

(** A parallel call on an odd number of processing units raises before
    any worker runs. *)
Lemma delay_from_grid_parallel_odd (util : Util) (h : nat)
    (schedule : list nat) (weather : Weather) (llas : list lla)
    (los los' : LookVecs) (raytrace : bool) :
  flatten_los los raytrace = inr los' ->
  delay_from_grid util (2 * h + 1) schedule weather llas los true raytrace
  = inl IndexError.
Proof.
  intro H. unfold delay_from_grid. rewrite H. cbn [bind]. cbv zeta.
  rewrite grid_jobs_odd. reflexivity.
Qed.

(** C1, at the failing input. Two points on the polar axis, 45 m and
    20 m below the reference height, a model answering 1 everywhere and
    the [Zenith] look vector: the serial call returns the delays of both
    points for both components, the parallel call on three processing
    units (and on one) raises [IndexError], whatever the schedule. *)
Theorem delay_from_grid_parallel_raises_where_serial_succeeds :
  forall schedule : list nat,
    let weather := constant_weather 1 in
    let llas := [PolarAxis.pole 14955; PolarAxis.pole 14980] in
    (exists hydro wet,
       delay_from_grid PolarAxis.util 3 schedule weather llas Zenith false true
       = inr (hydro, wet) /\
       length hydro = 2%nat /\ length wet = 2%nat /\
       Forall2 Qeq hydro [45 # 1000000; 20 # 1000000] /\
       Forall2 Qeq wet [45 # 1000000; 20 # 1000000]) /\
    delay_from_grid PolarAxis.util 3 schedule weather llas Zenith true true
    = inl IndexError /\
    delay_from_grid PolarAxis.util 1 schedule weather llas Zenith true true
    = inl IndexError.
Proof.
  intros schedule weather llas. split; [|split].
  - eexists _, _. split; [vm_compute; reflexivity|].
    repeat split; repeat constructor.
  - apply (delay_from_grid_parallel_odd _ 1 _ _ _ Zenith Zenith). reflexivity.
  - apply (delay_from_grid_parallel_odd _ 0 _ _ _ Zenith Zenith). reflexivity.
Qed.

(** ** The shape check of the file-backed entry point *)

(** The message does not depend on the arrays. *)
Lemma shape_message_constant (a b c a' b' c' : Raster) :
  shape_message a b c = shape_message a' b' c'.
Proof. reflexivity. Qed.

(** Mismatched shapes raise before the grid is entered, whatever the
    model is. *)
Lemma delay_from_files_mismatch (util : Util) (cpu_count : nat)
    (schedule : list nat) los_to_lv (weather : Weather)
    (lats lons hts : Raster) (parallel raytrace : bool) :
  shape_eqb (shape lats) (shape lons) && shape_eqb (shape lons) (shape hts)
  = false ->
  delay_from_files util cpu_count schedule los_to_lv weather lats lons hts
    parallel ZenithLos raytrace
  = inl (ValueError (shape_message lats lons hts)).
Proof.
  intro H. unfold delay_from_files. simpl. rewrite H. reflexivity.
Qed.

(** C9, at the failing input. With latitude of shape (10,10) and
    longitude of shape (5,5) the call raises [ValueError] without
    consulting the model, but the message carries the replacement fields
    unformatted: neither "(10, 10)" nor "(5, 5)" occurs in it. *)
Theorem delay_from_files_message_omits_shapes :
  forall (util : Util) (cpu_count : nat) (schedule : list nat) los_to_lv
         (weather : Weather) (dlat dlon dht : list Q)
         (parallel raytrace : bool),
    let lats := mkRaster [10; 10]%nat dlat in
    let lons := mkRaster [5; 5]%nat dlon in
    let hts := mkRaster [10; 10]%nat dht in
    exists msg,
      delay_from_files util cpu_count schedule los_to_lv weather
        lats lons hts parallel ZenithLos raytrace = inl (ValueError msg) /\
      msg = ("lat, lon, and ht should have the same shape, but instead lat "
             ++ "had shape {lats.shape}, lon had shape {lons.shape}, and ht "
             ++ "had shape {hts.shape}")%string /\
      repr_shape (shape lats) = "(10, 10)"%string /\
      repr_shape (shape lons) = "(5, 5)"%string /\
      contains msg (repr_shape (shape lats)) = false /\
      contains msg (repr_shape (shape lons)) = false.
Proof.
  intros. eexists. split.
  - apply delay_from_files_mismatch. reflexivity.
  - repeat split; reflexivity.
Qed.

(** ** Quadrature *)

Lemma diff_length (x : list Q) : length (np.diff x) = (length x - 1)%nat.
Proof.
  induction x as [|a [|b tl] IH]; try reflexivity.
  change (np.diff (a :: b :: tl)) with ((b - a) :: np.diff (b :: tl)).
  simpl length in *. lia.
Qed.

Lemma pairsum_length (y : list Q) : length (np.pairsum y) = (length y - 1)%nat.
Proof.
  induction y as [|a [|b tl] IH]; try reflexivity.
  change (np.pairsum (a :: b :: tl)) with ((b + a) :: np.pairsum (b :: tl)).
  simpl length in *. lia.
Qed.

(** On arrays of one length [np.trapz] does not raise. *)
Lemma trapz_same_length (y x : list Q) :
  length y = length x -> np.trapz y x = inr (trapz_value y x).
Proof.
  intro H. unfold np.trapz, np.bmul.
  rewrite diff_length, pairsum_length, H, Nat.eqb_refl. reflexivity.
Qed.

Lemma trapz_value_nil (y : list Q) : trapz_value y [] = 0.
Proof. reflexivity. Qed.

Lemma sum_from (l : list Q) (a : Q) : fold_left Qplus l a == a + np.sum l.
Proof.
  unfold np.sum. revert a. induction l as [|b tl IH]; intro a; simpl.
  - ring.
  - rewrite (IH (a + b)), (IH (0 + b)). ring.
Qed.

Lemma sum_cons (a : Q) (l : list Q) : np.sum (a :: l) == a + np.sum l.
Proof. unfold np.sum at 1. simpl. rewrite sum_from. ring. Qed.

(** The trapezoidal rule is exact on a constant: the integral of [c]
    over the samples [x] is [c] times the distance from the first sample
    to the last. *)
Lemma trapz_value_constant (c : Q) (x : list Q) :
  trapz_value (repeat c (length x)) x == c * (last x 0 - hd 0 x).
Proof.
  destruct x as [|a tl]; [unfold trapz_value, np.sum; simpl; ring|].
  revert a. induction tl as [|b tl IH]; intro a.
  - unfold trapz_value, np.sum. simpl. ring.
  - specialize (IH b).
    change (last (a :: b :: tl) 0) with (last (b :: tl) 0).
    change (hd 0 (a :: b :: tl)) with a.
    change (hd 0 (b :: tl)) with b in IH.
    unfold trapz_value in *.
    change (repeat c (length (a :: b :: tl)))
      with (c :: repeat c (length (b :: tl))).
    change (np.diff (a :: b :: tl)) with ((b - a) :: np.diff (b :: tl)).
    destruct tl as [|b' tl].
    + simpl. unfold np.sum. simpl. field.
    + change (repeat c (length (b :: b' :: tl)))
        with (c :: c :: repeat c (length tl)) in *.
      change (np.pairsum (c :: c :: c :: repeat c (length tl)))
        with ((c + c) :: np.pairsum (c :: c :: repeat c (length tl))).
      cbn [combine map fst snd].
      rewrite sum_cons, IH. field.
Qed.

(** ** Start indices *)

Lemma cumsum_from_length (acc : nat) (l : list nat) :
  length (np.cumsum_from acc l) = length l.
Proof. revert acc. induction l; intro acc; simpl; auto. Qed.

Lemma offsets_firstn_cumsum (acc s : nat) (tl : list nat) :
  acc :: firstn (length tl) (np.cumsum_from acc (s :: tl))
  = offsets acc (s :: tl).
Proof.
  revert acc s. induction tl as [|s' tl IH]; intros acc s.
  - reflexivity.
  - change (np.cumsum_from acc (s :: s' :: tl))
      with ((acc + s)%nat :: np.cumsum_from (acc + s) (s' :: tl)).
    change (length (s' :: tl)) with (S (length tl)).
    rewrite firstn_cons, IH. reflexivity.
Qed.

Lemma roll1_set0 {A} (l : list A) (v : A) :
  l <> [] -> np.set0 (np.roll1 l) v = inr (v :: firstn (length l - 1) l).
Proof.
  intro Hne. unfold np.roll1.
  destruct l as [|a l']; [contradiction|].
  set (L := a :: l') in *.
  assert (HL : (length L >= 1)%nat) by (unfold L; simpl; lia).
  clearbody L.
  destruct (skipn (length L - 1) L) as [|x rest] eqn:Es.
  - exfalso. apply (f_equal (@length A)) in Es.
    rewrite length_skipn in Es. simpl in Es. lia.
  - assert (Hr : rest = []).
    { apply (f_equal (@length A)) in Es.
      rewrite length_skipn in Es. simpl in Es.
      destruct rest; [reflexivity | simpl in Es; lia]. }
    subst rest. reflexivity.
Qed.

(** [indices = np.roll(np.cumsum(steps), 1); indices[0] = 0] computes the
    exclusive running sums. *)
Lemma indices_are_offsets (s : nat) (tl : list nat) :
  np.set0 (np.roll1 (np.cumsum (s :: tl))) 0%nat = inr (offsets 0 (s :: tl)).
Proof.
  rewrite roll1_set0 by discriminate.
  unfold np.cumsum. rewrite cumsum_from_length.
  replace (length (s :: tl) - 1)%nat with (length tl) by (simpl; lia).
  rewrite offsets_firstn_cumsum. reflexivity.
Qed.

(** ** The two loops of [_common_delay] *)

Lemma chunks_of_length (steps : list nat) (wet : list Q) :
  length (chunks_of steps wet) = length steps.
Proof.
  revert wet. induction steps as [|s tl IH]; intro wet; simpl; auto.
Qed.

Lemma ray_integrals_length (chunks tps : list (list Q)) :
  length chunks = length tps ->
  length (ray_integrals chunks tps) = length tps.
Proof.
  revert tps. induction chunks as [|c cs IH]; intros [|tp tps] H;
    try discriminate; simpl; auto.
Qed.

(** When the batch answer has one value per surviving sample, the second
    loop integrates every ray over its own chunk and does not raise. *)
Lemma integrate_rays_chunks (steps : list nat) (tps : list (list Q))
    (pre wet : list Q) :
  map (@length Q) tps = steps ->
  length wet = list_sum steps ->
  integrate_rays (offsets (length pre) steps) steps tps (pre ++ wet)
  = inr (ray_integrals (chunks_of steps wet) tps).
Proof.
  revert tps pre wet.
  induction steps as [|s tl IH]; intros tps pre wet Htps Hwet.
  - destruct tps; [reflexivity | discriminate].
  - destruct tps as [|tp tps']; [discriminate|].
    injection Htps as Htp Htps'.
    simpl in Hwet.
    cbn [offsets integrate_rays chunks_of ray_integrals].
    assert (Hslice : slice (pre ++ wet) (length pre) (length pre + s)
                     = firstn s wet).
    { unfold slice. rewrite skipn_app, skipn_all, Nat.sub_diag.
      simpl. f_equal. lia. }
    rewrite Hslice.
    rewrite trapz_same_length
      by (rewrite length_firstn, Htp; lia).
    cbn [bind].
    rewrite <- (firstn_skipn s wet) at 1.
    rewrite app_assoc.
    replace (length pre + s)%nat with (length (pre ++ firstn s wet))
      by (rewrite length_app, length_firstn; lia).
    rewrite IH; [reflexivity | assumption |].
    rewrite length_skipn. lia.
Qed.

Section Engine.

Variable util : Util.

(** The ECEF start position of a point. *)
Local Abbreviation start p := (lla2ecef util (lat p) (lon p) (ht p)).

(** A non-negative length gives a non-negative step count, so the
    sampler does not raise. *)
Lemma ray_thisspace_ok (lv : vec) :
  0 <= norm util lv -> exists ts, ray_thisspace util lv = inr ts.
Proof.
  intro H. unfold ray_thisspace, np.linspace.
  assert (Hc : (0 <= Qceiling (norm util lv / _STEP))%Z).
  { change 0%Z with (Qceiling 0). apply Qceiling_resp_le.
    rewrite div_step. lra. }
  destruct (_ <? 0)%Z eqn:E; [apply Z.ltb_lt in E; lia|].
  destruct (Z.to_nat _) as [|[|k]]; eauto.
Qed.

Lemma truncate_ray_lengths (sp scaled : vec) (ts : list Q) :
  let r := truncate_ray util sp scaled ts in
  length (t_points r) = first_high r /\ length (positions r) = first_high r.
Proof.
  unfold truncate_ray. cbn [t_points positions first_high].
  pose proof (too_high_le util (ray_positions sp scaled ts) (_ZREF util)) as H.
  assert (Hl : length (ray_positions sp scaled ts) = length ts)
    by apply length_map.
  rewrite !length_firstn. lia.
Qed.

(** The first loop, ray by ray. *)
Lemma sample_rays_points (look : lla -> vec) (points : list lla) :
  (forall p, In p points -> exists ts, ray_thisspace util (look p) = inr ts) ->
  exists rays,
    sample_rays util (map look points) (map (fun q => start q) points) = inr rays /\
    Forall2 (fun p r =>
               exists ts, ray_thisspace util (look p) = inr ts /\
                          r = truncate_ray util (start p)
                                (scaled_look_vec util (look p)) ts)
            points rays.
Proof.
  induction points as [|p tl IH]; intro H.
  - exists []. split; [reflexivity | constructor].
  - destruct (H p (or_introl eq_refl)) as (ts & Hts).
    destruct IH as (rays & Hrays & HF); [intros q Hq; apply H; now right|].
    eexists. cbn [map sample_rays]. rewrite Hts. cbn [bind].
    rewrite Hrays. cbn [bind]. split; [reflexivity|].
    constructor; [|exact HF]. exists ts. split; [exact Hts | reflexivity].
Qed.

Lemma rays_steps (look : lla -> vec) (points : list lla)
    (rays : list RaySamples) :
  Forall2 (fun p r =>
             exists ts, ray_thisspace util (look p) = inr ts /\
                        r = truncate_ray util (start p)
                              (scaled_look_vec util (look p)) ts)
          points rays ->
  map (@length Q) (map t_points rays) = map first_high rays /\
  length (concat (map positions rays)) = list_sum (map first_high rays).
Proof.
  induction 1 as [|p r ps rs (ts & _ & ->) _ [IH1 IH2]].
  - split; reflexivity.
  - cbn [map concat list_sum]. rewrite length_app, IH1, IH2.
    destruct (truncate_ray_lengths (start p) (scaled_look_vec util (look p)) ts)
      as [H1 H2].
    cbv zeta in H1, H2. rewrite H1, H2. split; reflexivity.
Qed.

(** What each ray's integral is made of. *)
Lemma ray_integrals_per_ray (rays : list RaySamples) (wet : list Q) :
  length wet = list_sum (map first_high rays) ->
  Forall2 (fun r d =>
             exists chunk,
               length chunk = first_high r /\
               incl chunk wet /\
               d = (1 # 1000000) * trapz_value chunk (t_points r))
          rays
          (ray_integrals (chunks_of (map first_high rays) wet)
             (map t_points rays)).
Proof.
  revert wet. induction rays as [|r rs IH]; intros wet Hlen.
  - constructor.
  - cbn [map chunks_of ray_integrals]. simpl in Hlen. constructor.
    + exists (firstn (first_high r) wet). split; [|split].
      * rewrite length_firstn. lia.
      * intros x Hx. rewrite <- (firstn_skipn (first_high r) wet).
        apply in_or_app. now left.
      * reflexivity.
    + eapply Forall2_impl; [|apply (IH (skipn (first_high r) wet))].
      * intros a b (chunk & H1 & H2 & H3). exists chunk.
        split; [exact H1|]. split; [|exact H3].
        intros x Hx. rewrite <- (firstn_skipn (first_high r) wet).
        apply in_or_app. right. now apply H2.
      * rewrite length_skipn. lia.
Qed.

Lemma Forall2_compose {A B C} (P : A -> B -> Prop) (R : B -> C -> Prop)
    (la : list A) (lb : list B) (lc : list C) :
  Forall2 P la lb -> Forall2 R lb lc ->
  Forall2 (fun a c => exists b, P a b /\ R b c) la lc.
Proof.
  intro H. revert lc. induction H as [|a b la lb Hab _ IH]; intros lc HR.
  - inversion HR. constructor.
  - inversion HR as [|b' c lb' lc' Hbc HR']; subst.
    constructor; [eauto | apply IH; assumption].
Qed.

(** A Zenith query in ray-tracing mode over a non-empty batch, on a model
    that answers one value per position: the call returns, and each
    point's delay is the scaled trapezoidal integral of its own chunk of
    the model's answer over its own surviving path parameters. *)
Lemma common_delay_zenith (delay : list vec -> result (list Q))
    (points : list lla) :
  points <> [] ->
  (forall p, In p points -> 0 <= norm util (zenith_look_vec util p)) ->
  (forall ps, exists ws, delay ps = inr ws /\ length ws = length ps) ->
  exists ds queried wet,
    _common_delay util delay points Zenith true = inr ds /\
    delay queried = inr wet /\
    Forall2 (fun p d =>
               exists ts chunk,
                 ray_thisspace util (zenith_look_vec util p) = inr ts /\
                 let r := truncate_ray util (start p)
                            (scaled_look_vec util (zenith_look_vec util p)) ts in
                 length chunk = first_high r /\
                 incl chunk wet /\
                 d = (1 # 1000000) * trapz_value chunk (t_points r))
            points ds.
Proof.
  intros Hne Hnorm Hdelay.
  destruct (sample_rays_points (zenith_look_vec util) points)
    as (rays & Hrays & HF).
  { intros p Hp. apply ray_thisspace_ok. now apply Hnorm. }
  destruct (rays_steps _ _ _ HF) as [Htps Hsum].
  destruct (Hdelay (concat (map positions rays))) as (wet & Hwet & Hlen).
  rewrite Hsum in Hlen.
  pose proof (ray_integrals_per_ray rays wet Hlen) as HI.
  assert (Hrne : rays <> []).
  { intro E. subst rays. inversion HF. congruence. }
  exists (ray_integrals (chunks_of (map first_high rays) wet)
            (map t_points rays)),
         (concat (map positions rays)), wet.
  split; [|split; [exact Hwet|]].
  - unfold _common_delay. cbn [resolve_look_vecs bind ret fst snd].
    rewrite Hrays. cbn [bind].
    destruct rays as [|r rs]; [contradiction|].
    cbn [map np.concatenate]. cbn [bind ret].
    change (positions r :: map positions rs) with (map positions (r :: rs)).
    rewrite Hwet. cbn [bind].
    rewrite indices_are_offsets. cbn [bind].
    change (first_high r :: map first_high rs)
      with (map first_high (r :: rs)).
    change (t_points r :: map t_points rs) with (map t_points (r :: rs)).
    pose proof (integrate_rays_chunks _ _ [] wet Htps Hlen) as Hint.
    change (length (@nil Q)) with 0%nat in Hint.
    change ([] ++ wet) with wet in Hint.
    rewrite Hint. cbn [bind].
    rewrite ray_integrals_length
      by (rewrite chunks_of_length, !length_map; reflexivity).
    rewrite length_map.
    replace (length (r :: rs)) with (length points)
      by (apply (Forall2_length HF)).
    unfold np.zeros. rewrite skipn_all2 by (rewrite repeat_length; lia).
    rewrite app_nil_r. reflexivity.
  - eapply Forall2_impl; [|apply (Forall2_compose _ _ _ _ _ HF HI)].
    intros p d (r & (ts & Hts & ->) & chunk & H1 & H2 & H3).
    exists ts, chunk. split; [exact Hts|]. cbv zeta. auto.
Qed.

End Engine.

(** ** Samples of a ray and their heights *)

(** The first sample of [np.linspace(0, L, n)] is 0. *)
Lemma linspace_first (L : Q) (n : Z) (t0 : Q) (rest : list Q) :
  np.linspace 0 L n = inr (t0 :: rest) -> t0 == 0.
Proof.
  unfold np.linspace. destruct (n <? 0)%Z; [discriminate|].
  destruct (Z.to_nat n) as [|[|k]]; [discriminate | |].
  - intro H. injection H as <- _. reflexivity.
  - intro H. cbn [seq map app] in H. injection H as <- _. simpl. ring.
Qed.

(** Every sample of [np.linspace(0, L, n)] lies between 0 and [L]. *)
Lemma linspace_bounds (L : Q) (n : Z) (ts : list Q) :
  0 <= L -> np.linspace 0 L n = inr ts ->
  Forall (fun t => 0 <= t <= L) ts.
Proof.
  intros HL H.
  destruct (Z_lt_le_dec n 2) as [Hn|Hn].
  - unfold np.linspace in H. destruct (n <? 0)%Z; [discriminate|].
    destruct (Z.to_nat n) as [|[|k]] eqn:E; try lia.
    + injection H as <-. constructor.
    + injection H as <-. constructor; [lra | constructor].
  - destruct (linspace_nth L n Hn) as (ts' & Hts & Hlen & _ & Hnth).
    rewrite H in Hts. injection Hts as <-.
    apply Forall_forall. intros t Ht.
    destruct (In_nth _ _ 0 Ht) as (i & Hi & <-).
    rewrite (Hnth i Hi).
    assert (Hm : 0 < inject_Z (n - 1)).
    { change 0 with (inject_Z 0). rewrite <- Zlt_Qlt. lia. }
    assert (Hi0 : 0 <= inject_Z (Z.of_nat i)).
    { change 0 with (inject_Z 0). rewrite <- Zle_Qle. lia. }
    assert (Hi1 : inject_Z (Z.of_nat i) <= inject_Z (n - 1)).
    { rewrite <- Zle_Qle. lia. }
    set (m := inject_Z (n - 1)) in *. set (q := inject_Z (Z.of_nat i)) in *.
    assert (Hd : 0 <= L / m) by (apply Qle_shift_div_l; lra).
    split.
    + apply Qmult_le_0_compat; assumption.
    + setoid_replace L with (m * (L / m)) at 2 by (field; lra).
      apply Qmult_le_compat_r; assumption.
Qed.

Lemma vadd_zero (start scaled : vec) (t : Q) :
  t == 0 -> veq (vadd start (vscale t scaled)) start.
Proof.
  intro H. unfold veq, vadd, vscale. cbn [vx vy vz].
  rewrite H. repeat split; ring.
Qed.

Lemma Forall2_in_l {A B} (P : A -> B -> Prop) (l : list A) (l' : list B) :
  Forall2 P l l' -> Forall2 (fun a b => In a l /\ P a b) l l'.
Proof.
  induction 1 as [|a b l l' Hab _ IH]; constructor.
  - split; [now left | assumption].
  - eapply Forall2_impl; [|exact IH].
    intros x y [Hin Hp]. split; [now right | assumption].
Qed.

(** ** Serial Zenith queries, point by point *)

(** A serial Zenith call in ray-tracing mode over a non-empty batch, on a
    model whose two queries answer one value per position, all of them
    in [V]: the call returns both components, and every property [P]
    that holds of a point's scaled integral over any chunk of values in
    [V] holds of the point's two delays. *)
Lemma delay_from_grid_serial_zenith (util : Util) (cpu_count : nat)
    (schedule : list nat) (weather : Weather) (llas : list lla)
    (V : Q -> Prop) (P : lla -> Q -> Prop) :
  llas <> [] ->
  (forall p, In p llas -> 0 <= norm util (zenith_look_vec util p)) ->
  (forall ps, exists ws, wm_hydrostatic_delay weather ps = inr ws /\
                         length ws = length ps /\ Forall V ws) ->
  (forall ps, exists ws, wm_wet_delay weather ps = inr ws /\
                         length ws = length ps /\ Forall V ws) ->
  (forall p ts chunk,
     In p llas ->
     ray_thisspace util (zenith_look_vec util p) = inr ts ->
     let r := truncate_ray util (lla2ecef util (lat p) (lon p) (ht p))
                (scaled_look_vec util (zenith_look_vec util p)) ts in
     length chunk = first_high r ->
     Forall V chunk ->
     P p ((1 # 1000000) * trapz_value chunk (t_points r))) ->
  exists hydro wet,
    delay_from_grid util cpu_count schedule weather llas Zenith false true
    = inr (hydro, wet) /\
    hydrostatic_delay util weather llas Zenith true = inr hydro /\
    wet_delay util weather llas Zenith true = inr wet /\
    Forall2 P llas hydro /\ Forall2 P llas wet.
Proof.
  intros Hne Hnorm Hh Hw HP.
  assert (Hcomp : forall delay,
    (forall ps, exists ws, delay ps = inr ws /\
                           length ws = length ps /\ Forall V ws) ->
    exists ds, _common_delay util delay llas Zenith true = inr ds /\
               Forall2 P llas ds).
  { intros delay Hd.
    destruct (common_delay_zenith util delay llas Hne Hnorm)
      as (ds & queried & wet & Hds & Hq & HF).
    { intro ps. destruct (Hd ps) as (ws & H1 & H2 & _). eauto. }
    exists ds. split; [exact Hds|].
    destruct (Hd queried) as (ws & Hws & _ & HV).
    rewrite Hq in Hws. injection Hws as <-.
    eapply Forall2_impl; [|apply Forall2_in_l; exact HF].
    intros p d (Hin & ts & chunk & Hts & Hlen & Hincl & ->).
    apply HP; try assumption.
    apply Forall_forall. intros x Hx.
    rewrite Forall_forall in HV. apply HV, Hincl, Hx. }
  destruct (Hcomp _ Hh) as (hydro & Hhy & HFh).
  destruct (Hcomp _ Hw) as (wet & Hwe & HFw).
  exists hydro, wet. unfold delay_from_grid, hydrostatic_delay, wet_delay.
  cbn [flatten_los bind ret]. rewrite Hhy, Hwe. cbn [bind].
  unfold stack2.
  rewrite <- (Forall2_length HFh), <- (Forall2_length HFw), Nat.eqb_refl.
  repeat split; assumption.
Qed.

(** A ray that starts above the reference height keeps no sample. *)
Lemma ray_above_reference (util : Util) (p : lla) (ts : list Q) :
  (forall v w, veq v w -> ht (ecef2lla util v) == ht (ecef2lla util w)) ->
  ht (ecef2lla util (lla2ecef util (lat p) (lon p) (ht p))) == ht p ->
  _ZREF util < ht p ->
  ray_thisspace util (zenith_look_vec util p) = inr ts ->
  t_points (truncate_ray util (lla2ecef util (lat p) (lon p) (ht p))
              (scaled_look_vec util (zenith_look_vec util p)) ts) = [].
Proof.
  intros Hproper Hround Hhigh Hts.
  unfold truncate_ray. cbn [t_points].
  destruct ts as [|t0 rest]; [reflexivity|].
  apply linspace_first in Hts.
  cbn [ray_positions map]. rewrite too_high_first; [reflexivity|].
  rewrite (Hproper _ _ (vadd_zero _ _ _ Hts)), Hround. exact Hhigh.
Qed.

Lemma scaled_zero_integral (chunk : list Q) :
  (1 # 1000000) * trapz_value chunk [] == 0.
Proof. rewrite trapz_value_nil. ring. Qed.

(** C8. For every point whose geodetic height strictly exceeds the
    reference height, a query with the Zenith look vector returns
    delay 0 for both the hydrostatic and the wet component, and the call
    does not raise (the batch is not empty, the norm is non-negative,
    converting a start position back gives the point's height, and the
    model answers one value per position). *)
Theorem zenith_above_reference_height_gives_zero :
  forall (util : Util) (cpu_count : nat) (schedule : list nat)
         (weather : Weather) (llas : list lla),
    llas <> [] ->
    (forall v, 0 <= norm util v) ->
    (forall v w, veq v w -> ht (ecef2lla util v) == ht (ecef2lla util w)) ->
    (forall p, In p llas ->
       ht (ecef2lla util (lla2ecef util (lat p) (lon p) (ht p))) == ht p) ->
    (forall ps, exists ws, wm_hydrostatic_delay weather ps = inr ws /\
                           length ws = length ps) ->
    (forall ps, exists ws, wm_wet_delay weather ps = inr ws /\
                           length ws = length ps) ->
    exists hydro wet,
      delay_from_grid util cpu_count schedule weather llas Zenith false true
      = inr (hydro, wet) /\
      hydrostatic_delay util weather llas Zenith true = inr hydro /\
      wet_delay util weather llas Zenith true = inr wet /\
      Forall2 (fun p d => _ZREF util < ht p -> d == 0) llas hydro /\
      Forall2 (fun p d => _ZREF util < ht p -> d == 0) llas wet.
Proof.
  intros util cpu_count schedule weather llas Hne Hnorm Hproper Hround Hh Hw.
  apply (delay_from_grid_serial_zenith util cpu_count schedule weather llas
           (fun _ => True)); try assumption.
  - intros p _. apply Hnorm.
  - intro ps. destruct (Hh ps) as (ws & H1 & H2). exists ws.
    repeat split; try assumption. apply Forall_forall. trivial.
  - intro ps. destruct (Hw ps) as (ws & H1 & H2). exists ws.
    repeat split; try assumption. apply Forall_forall. trivial.
  - intros p ts chunk Hin Hts r Hlen _ Hhigh. unfold r.
    rewrite (ray_above_reference util p ts Hproper (Hround p Hin) Hhigh Hts).
    apply scaled_zero_integral.
Qed.

(** ** The polar-axis instance meets the hypotheses on [util] *)

Lemma polar_norm_nonneg (v : vec) : 0 <= norm PolarAxis.util v.
Proof.
  cbn [norm PolarAxis.util]. unfold PolarAxis.norm.
  pose proof (Qabs_nonneg (vx v)). pose proof (Qabs_nonneg (vy v)).
  pose proof (Qabs_nonneg (vz v)). lra.
Qed.

Lemma polar_norm_zero (v : vec) :
  vx v == 0 -> vy v == 0 -> vz v == 0 -> norm PolarAxis.util v == 0.
Proof.
  intros Hx Hy Hz. cbn [norm PolarAxis.util]. unfold PolarAxis.norm.
  rewrite Hx, Hy, Hz. reflexivity.
Qed.

Lemma polar_height_proper (v w : vec) :
  veq v w ->
  ht (ecef2lla PolarAxis.util v) == ht (ecef2lla PolarAxis.util w).
Proof.
  intros (_ & _ & Hz). cbn [ecef2lla PolarAxis.util ht PolarAxis.ecef2lla].
  rewrite Hz. reflexivity.
Qed.

Lemma polar_roundtrip (p : lla) :
  ht (ecef2lla PolarAxis.util
        (lla2ecef PolarAxis.util (lat p) (lon p) (ht p))) == ht p.
Proof.
  cbn [ecef2lla lla2ecef PolarAxis.util ht PolarAxis.ecef2lla
       PolarAxis.lla2ecef vz].
  ring.
Qed.

Lemma constant_query_answers (c : Q) (ps : list vec) :
  exists ws, constant_query c ps = inr ws /\ length ws = length ps.
Proof.
  eexists. split; [reflexivity | apply length_map].
Qed.

Lemma constant_query_values (c : Q) (ps : list vec) :
  exists ws, constant_query c ps = inr ws /\ length ws = length ps /\
             Forall (fun x => x = c) ws.
Proof.
  eexists. split; [reflexivity|]. split; [apply length_map|].
  apply Forall_forall. intros x Hx. apply in_map_iff in Hx.
  destruct Hx as (_ & <- & _). reflexivity.
Qed.

(** The hypotheses of [zenith_above_reference_height_gives_zero] hold on
    the polar axis for a point 100 m above the reference height and a
    point 20 m below it, with the constant model. *)
Lemma zenith_above_reference_height_gives_zero_witness :
  let llas := [PolarAxis.pole 15100; PolarAxis.pole 14980] in
  exists hydro wet,
    delay_from_grid PolarAxis.util 2 [] (constant_weather 1) llas
      Zenith false true = inr (hydro, wet) /\
    Forall2 (fun p d => _ZREF PolarAxis.util < ht p -> d == 0) llas hydro /\
    Forall2 (fun p d => _ZREF PolarAxis.util < ht p -> d == 0) llas wet.
Proof.
  intro llas.
  destruct (zenith_above_reference_height_gives_zero PolarAxis.util 2 []
              (constant_weather 1) llas)
    as (hydro & wet & H & _ & _ & Hh & Hw).
  - discriminate.
  - exact polar_norm_nonneg.
  - exact polar_height_proper.
  - intros p _. apply polar_roundtrip.
  - apply constant_query_answers.
  - apply constant_query_answers.
  - exists hydro, wet. auto.
Defined.

(** ** A Zenith query at the reference height *)

Lemma zenith_look_vec_at_reference (util : Util) (p : lla) :
  (forall v, vx v == 0 -> vy v == 0 -> vz v == 0 -> norm util v == 0) ->
  ht p == _ZREF util ->
  norm util (zenith_look_vec util p) == 0.
Proof.
  intros Hzero Hp. apply Hzero; unfold zenith_look_vec, vscale_r;
    cbn [vx vy vz]; rewrite Hp; ring.
Qed.

Lemma ray_thisspace_zero_length (util : Util) (lv : vec) :
  norm util lv == 0 ->
  Qceiling (norm util lv / _STEP) = 0%Z /\ ray_thisspace util lv = inr [].
Proof.
  intro H.
  assert (Hc : Qceiling (norm util lv / _STEP) = 0%Z).
  { assert (E : norm util lv / _STEP == 0) by (rewrite H; reflexivity).
    rewrite E. reflexivity. }
  split; [exact Hc|]. unfold ray_thisspace. rewrite Hc. reflexivity.
Qed.

(** C10. For a Zenith query at a point whose height equals the reference
    height, the ray length is 0, the step count [ceil(0 / _STEP)] is 0
    and the sample sequence is empty, so whatever direction the division
    by the zero length produced, the ray contributes no position to the
    model query, and both returned delays are 0. *)
Theorem zenith_at_reference_height_gives_zero :
  forall (util : Util) (cpu_count : nat) (schedule : list nat)
         (weather : Weather) (llas : list lla),
    llas <> [] ->
    (forall v, 0 <= norm util v) ->
    (forall v, vx v == 0 -> vy v == 0 -> vz v == 0 -> norm util v == 0) ->
    (forall ps, exists ws, wm_hydrostatic_delay weather ps = inr ws /\
                           length ws = length ps) ->
    (forall ps, exists ws, wm_wet_delay weather ps = inr ws /\
                           length ws = length ps) ->
    (exists hydro wet,
       delay_from_grid util cpu_count schedule weather llas Zenith false true
       = inr (hydro, wet) /\
       hydrostatic_delay util weather llas Zenith true = inr hydro /\
       wet_delay util weather llas Zenith true = inr wet /\
       Forall2 (fun p d => ht p == _ZREF util -> d == 0) llas hydro /\
       Forall2 (fun p d => ht p == _ZREF util -> d == 0) llas wet) /\
    (forall p, In p llas -> ht p == _ZREF util ->
       norm util (zenith_look_vec util p) == 0 /\
       Qceiling (norm util (zenith_look_vec util p) / _STEP) = 0%Z /\
       ray_thisspace util (zenith_look_vec util p) = inr [] /\
       forall start direction : vec,
         truncate_ray util start direction [] = mkRay 0 [] []).
Proof.
  intros util cpu_count schedule weather llas Hne Hnorm Hzero Hh Hw.
  split.
  - apply (delay_from_grid_serial_zenith util cpu_count schedule weather llas
             (fun _ => True)); try assumption.
    + intros p _. apply Hnorm.
    + intro ps. destruct (Hh ps) as (ws & H1 & H2). exists ws.
      repeat split; try assumption. apply Forall_forall. trivial.
    + intro ps. destruct (Hw ps) as (ws & H1 & H2). exists ws.
      repeat split; try assumption. apply Forall_forall. trivial.
    + intros p ts chunk Hin Hts r Hlen _ Hp. unfold r.
      pose proof (zenith_look_vec_at_reference util p Hzero Hp) as Hn.
      destruct (ray_thisspace_zero_length util _ Hn) as [_ Hnil].
      rewrite Hnil in Hts. injection Hts as <-.
      apply scaled_zero_integral.
  - intros p Hin Hp.
    pose proof (zenith_look_vec_at_reference util p Hzero Hp) as Hn.
    destruct (ray_thisspace_zero_length util _ Hn) as [Hc Hnil].
    repeat split; assumption.
Qed.

(** The hypotheses of [zenith_at_reference_height_gives_zero] hold on the
    polar axis for a point at the reference height. *)
Lemma zenith_at_reference_height_gives_zero_witness :
  let llas := [PolarAxis.pole 15000; PolarAxis.pole 14980] in
  exists hydro wet,
    delay_from_grid PolarAxis.util 2 [] (constant_weather 1) llas
      Zenith false true = inr (hydro, wet) /\
    Forall2 (fun p d => ht p == _ZREF PolarAxis.util -> d == 0) llas hydro /\
    Forall2 (fun p d => ht p == _ZREF PolarAxis.util -> d == 0) llas wet.
Proof.
  intro llas.
  destruct (zenith_at_reference_height_gives_zero PolarAxis.util 2 []
              (constant_weather 1) llas)
    as ((hydro & wet & H & _ & _ & Hh & Hw) & _).
  - discriminate.
  - exact polar_norm_nonneg.
  - exact polar_norm_zero.
  - apply constant_query_answers.
  - apply constant_query_answers.
  - exists hydro, wet. auto.
Defined.

(** ** The closed form on a constant model *)

Lemma Forall_eq_repeat (c : Q) (l : list Q) :
  Forall (fun x => x = c) l -> l = repeat c (length l).
Proof.
  induction 1 as [|x l Hx _ IH]; [reflexivity|].
  simpl. rewrite Hx. f_equal. exact IH.
Qed.

(** A ray none of whose samples is above the reference height is kept
    whole. *)
Lemma truncate_ray_keeps_all (util : Util) (start scaled : vec)
    (ts : list Q) :
  Forall (fun t => ht (ecef2lla util (vadd start (vscale t scaled)))
                   <= _ZREF util) ts ->
  let r := truncate_ray util start scaled ts in
  t_points r = ts /\ first_high r = length ts.
Proof.
  intros H r. unfold r, truncate_ray. cbn [t_points first_high].
  rewrite too_high_all.
  - unfold ray_positions. rewrite length_map.
    split; [apply firstn_all | reflexivity].
  - unfold ray_positions. apply Forall_map. exact H.
Qed.

(** The integral of a constant over the full sample sequence of a ray of
    positive length [L]: zero when the ray has a single sample, [c * L]
    otherwise. *)
Lemma constant_over_thisspace (util : Util) (lv : vec) (c : Q)
    (ts : list Q) :
  0 < norm util lv ->
  ray_thisspace util lv = inr ts ->
  (norm util lv <= _STEP ->
   trapz_value (repeat c (length ts)) ts == 0) /\
  (_STEP < norm util lv ->
   trapz_value (repeat c (length ts)) ts == c * norm util lv).
Proof.
  intros HL Hts. rewrite trapz_value_constant.
  pose proof (steps_one_iff _ HL) as Hone.
  pose proof (steps_positive _ HL) as Hpos.
  unfold ray_thisspace in Hts.
  set (L := norm util lv) in *. set (n := Qceiling (L / _STEP)) in *.
  split; intro H.
  - apply Hone in H. rewrite H in Hts. injection Hts as <-. simpl. ring.
  - assert (Hn : (2 <= n)%Z).
    { destruct (Z.eq_dec n 1) as [E|E]; [|lia].
      apply Hone in E. lra. }
    destruct (linspace_nth L n Hn) as (ts' & Hts' & Hlen & Hlast & Hnth).
    rewrite Hts in Hts'. injection Hts' as <-.
    rewrite Hlast.
    assert (Hhd : hd 0 ts == 0).
    { destruct ts as [|t0 rest]; [reflexivity|].
      apply linspace_first in Hts. exact Hts. }
    rewrite Hhd. ring.
Qed.

Lemma scaled_bound (c L : Q) :
  0 < L -> L <= _STEP ->
  Qabs (0 - (1 # 1000000) * c * L) <= (1 # 1000000) * Qabs c * _STEP.
Proof.
  intros H0 H1. unfold _STEP in *.
  apply Qabs_Qle_condition.
  assert (Hc : - Qabs c <= c /\ c <= Qabs c).
  { split; [|apply Qle_Qabs].
    pose proof (Qle_Qabs (- c)) as H. rewrite Qabs_opp in H. lra. }
  pose proof (Qabs_nonneg c) as Ha.
  set (a := Qabs c) in *. destruct Hc as [Hc1 Hc2].
  assert (Hm1 : c * L <= a * L) by (apply Qmult_le_compat_r; lra).
  assert (Hm2 : (- a) * L <= c * L) by (apply Qmult_le_compat_r; lra).
  assert (Hm3 : a * L <= a * 15).
  { rewrite (Qmult_comm a L), (Qmult_comm a 15).
    apply Qmult_le_compat_r; lra. }
  split; lra.
Qed.

Lemma Forall2_head {A B} (P : A -> B -> Prop) (a : A) (l : list A)
    (l' : list B) :
  Forall2 P (a :: l) l' -> exists b tl, l' = b :: tl /\ P a b.
Proof. intro H. inversion H; subst. eauto. Qed.

(** ** Projection mode *)

Lemma sample_rays_length (util : Util) (looks starts : list vec)
    (rays : list RaySamples) :
  sample_rays util looks starts = inr rays ->
  length rays = length looks /\ (length looks <= length starts)%nat.
Proof.
  revert starts rays.
  induction looks as [|lv lvs IH]; intros starts rays H.
  - injection H as <-. simpl. split; [reflexivity | lia].
  - cbn [sample_rays] in H.
    apply bind_inr in H. destruct H as (ts & _ & H).
    destruct starts as [|sp sps]; [discriminate|].
    apply bind_inr in H. destruct H as (rest & Hrest & H).
    injection H as <-. destruct (IH _ _ Hrest) as [H1 H2].
    simpl. split; lia.
Qed.

Lemma integrate_rays_length (indices steps : list nat)
    (tps : list (list Q)) (wet integrals : list Q) :
  integrate_rays indices steps tps wet = inr integrals ->
  (length integrals <= length steps)%nat.
Proof.
  revert indices tps integrals.
  induction steps as [|s tl IH]; intros indices tps integrals H.
  - destruct indices; injection H as <-; simpl; lia.
  - destruct indices as [|i is']; [injection H as <-; simpl; lia|].
    destruct tps as [|tp tps']; [injection H as <-; simpl; lia|].
    cbn [integrate_rays] in H.
    apply bind_inr in H. destruct H as (v & _ & H).
    apply bind_inr in H. destruct H as (rest & Hrest & H).
    injection H as <-. apply IH in Hrest. simpl. lia.
Qed.

(** A Zenith call that returns, returns one delay per point. *)
Lemma common_delay_zenith_length (util : Util)
    (delay : list vec -> result (list Q)) (points : list lla)
    (ds : list Q) :
  _common_delay util delay points Zenith true = inr ds ->
  length ds = length points.
Proof.
  unfold _common_delay. cbn [resolve_look_vecs bind ret fst snd].
  intro H.
  apply bind_inr in H. destruct H as (rays & Hrays & H).
  apply bind_inr in H. destruct H as (pa & _ & H).
  apply bind_inr in H. destruct H as (wet & _ & H).
  apply bind_inr in H. destruct H as (idx & _ & H).
  apply bind_inr in H. destruct H as (integrals & Hint & H).
  cbn [apply_correction] in H. injection H as <-.
  apply sample_rays_length in Hrays. destruct Hrays as [Hr _].
  apply integrate_rays_length in Hint.
  rewrite !length_map in *.
  rewrite length_app, length_skipn. unfold np.zeros.
  rewrite repeat_length. lia.
Qed.

(** Projection mode runs the Zenith computation and then multiplies by
    the correction [1/util.cosd(look_vecs)]. *)
Lemma common_delay_projection (util : Util)
    (delay : list vec -> result (list Q)) (points : list lla)
    (ss : list Q) :
  _common_delay util delay points (Scalars ss) false
  = (ds <- _common_delay util delay points Zenith true ;;
     apply_correction ds (Correction1 (map (fun a => 1 / cosd util a) ss))).
Proof.
  unfold _common_delay. cbn [resolve_look_vecs bind ret fst snd].
  destruct (sample_rays _ _ _) as [e|rays]; [reflexivity|]. cbn [bind].
  destruct (np.concatenate _) as [e|pa]; [reflexivity|]. cbn [bind].
  destruct (delay pa) as [e|wet]; [reflexivity|]. cbn [bind].
  destruct (np.set0 _ _) as [e|idx]; [reflexivity|]. cbn [bind].
  destruct (integrate_rays _ _ _ _) as [e|integrals]; reflexivity.
Qed.

Lemma combine_map_r {A B C} (g : B -> C) (l : list A) (l' : list B) :
  combine l (map g l') = map (fun p => (fst p, g (snd p))) (combine l l').
Proof.
  revert l'. induction l as [|a l IH]; intros [|b l']; try reflexivity.
  simpl. f_equal. apply IH.
Qed.

(** The projected delays, from the vertical delays and the scalars. *)
Lemma common_delay_projection_value (util : Util)
    (delay : list vec -> result (list Q)) (points : list lla)
    (incidence vertical : list Q) :
  length incidence = length points ->
  _common_delay util delay points Zenith true = inr vertical ->
  _common_delay util delay points (Scalars incidence) false
  = inr (map (fun vi => fst vi * (1 / cosd util (snd vi)))
           (combine vertical incidence)).
Proof.
  intros Hlen Hv. rewrite common_delay_projection, Hv. cbn [bind].
  apply common_delay_zenith_length in Hv.
  unfold apply_correction.
  rewrite length_map, Hlen, Hv, Nat.eqb_refl.
  rewrite combine_map_r, map_map. reflexivity.
Qed.

(** C4, as the code has it. When [raytrace] is false the look-vector
    input is one scalar per point, the incidence angle off vertical in
    degrees: the code takes its cosine itself.  For every point the
    returned delay, in both components, is the vertical (Zenith) delay of
    that point multiplied by [1 / cosd(incidence)]. *)
Theorem projection_scales_vertical_delay_by_secant :
  forall (util : Util) (cpu_count : nat) (schedule : list nat)
         (weather : Weather) (llas : list lla)
         (incidence hydro_vertical wet_vertical : list Q),
    length incidence = length llas ->
    delay_from_grid util cpu_count schedule weather llas Zenith false true
    = inr (hydro_vertical, wet_vertical) ->
    delay_from_grid util cpu_count schedule weather llas
      (Scalars incidence) false false
    = inr (map (fun vi => fst vi * (1 / cosd util (snd vi)))
             (combine hydro_vertical incidence),
           map (fun vi => fst vi * (1 / cosd util (snd vi)))
             (combine wet_vertical incidence)) /\
    length hydro_vertical = length llas /\
    length wet_vertical = length llas.
Proof.
  intros util cpu_count schedule weather llas incidence hv wv Hlen H.
  unfold delay_from_grid in *. cbn [flatten_los bind ret] in *.
  apply bind_inr in H. destruct H as (h & Hh & H).
  apply bind_inr in H. destruct H as (w & Hw & H).
  unfold stack2 in H.
  destruct (length h =? length w)%nat eqn:E; [|discriminate].
  injection H as <- <-.
  unfold hydrostatic_delay, wet_delay in *.
  rewrite (common_delay_projection_value _ _ _ _ _ Hlen Hh).
  rewrite (common_delay_projection_value _ _ _ _ _ Hlen Hw).
  cbn [bind]. unfold stack2.
  apply common_delay_zenith_length in Hh, Hw.
  rewrite !length_map, !length_combine, Hh, Hw, Nat.eqb_refl.
  repeat split; reflexivity.
Qed.

(** The hypotheses of [projection_scales_vertical_delay_by_secant] hold
    for a point 45 m below the reference height on the polar axis and an
    incidence angle of 60 degrees: the projected delay is twice the
    vertical one. *)
Lemma projection_scales_vertical_delay_by_secant_witness :
  exists v p,
    delay_from_grid PolarAxis.util 2 [] (constant_weather 1)
      [PolarAxis.pole 14955] Zenith false true = inr ([v], [v]) /\
    delay_from_grid PolarAxis.util 2 [] (constant_weather 1)
      [PolarAxis.pole 14955] (Scalars [60]) false false = inr ([p], [p]) /\
    p == v * 2.
Proof.
  assert (Hv : exists v,
             delay_from_grid PolarAxis.util 2 [] (constant_weather 1)
               [PolarAxis.pole 14955] Zenith false true = inr ([v], [v]))
    by (eexists; vm_compute; reflexivity).
  destruct Hv as (v & Hv).
  exists v, (v * (1 / cosd PolarAxis.util 60)).
  split; [exact Hv|].
  destruct (projection_scales_vertical_delay_by_secant PolarAxis.util
              2 [] (constant_weather 1) [PolarAxis.pole 14955] [60]
              _ _ eq_refl Hv) as (Hp & _ & _).
  split; [exact Hp|].
  assert (Hsec : 1 / cosd PolarAxis.util 60 == 2) by reflexivity.
  rewrite Hsec. reflexivity.
Defined.

(** C4, as stated, fails: at an incidence angle of 60 degrees the cosine
    is 1/2; given the scalar 1/2 the code returns the vertical delay
    times [1 / cosd(1/2)], about 1.00004 times the vertical delay, and
    not the vertical delay times [1 / (1/2)]. *)
Lemma projection_scalar_is_not_the_cosine :
  exists v p,
    delay_from_grid PolarAxis.util 2 [] (constant_weather 1)
      [PolarAxis.pole 14955] Zenith false true = inr ([v], [v]) /\
    delay_from_grid PolarAxis.util 2 [] (constant_weather 1)
      [PolarAxis.pole 14955] (Scalars [1 # 2]) false false
    = inr ([p], [p]) /\
    ~ p == v * (1 / (1 # 2)) /\
    p < v * (101 # 100).
Proof.
  eexists _, _. split; [vm_compute; reflexivity|].
  split; [vm_compute; reflexivity|].
  split.
  - intro H. vm_compute in H. discriminate.
  - vm_compute. reflexivity.
Qed.

(** ** The thread pool *)

Lemma set_nth_length {A} (l : list A) (i : nat) (v : A) :
  length (set_nth l i v) = length l.
Proof.
  revert i. induction l as [|a tl IH]; intros [|i]; simpl; auto.
Qed.

Lemma set_nth_in {A} (l : list A) (i : nat) (v x : A) :
  In x (set_nth l i v) -> x = v \/ In x l.
Proof.
  revert i. induction l as [|a tl IH]; intros [|i]; simpl; auto.
  - intros [H|H]; auto.
  - intros [H|H]; auto. destruct (IH _ H); auto.
Qed.

Lemma set_nth_other {A} (l : list A) (i j : nat) (v : A) :
  i <> j -> nth_error (set_nth l i v) j = nth_error l j.
Proof.
  revert i j. induction l as [|a tl IH]; intros [|i] [|j] H; simpl; auto.
  - contradiction.
Qed.

Lemma set_nth_same {A} (l : list A) (i : nat) (v a : A) :
  nth_error (set_nth l i v) i = Some a -> a = v.
Proof.
  revert i. induction l as [|a' tl IH]; intros [|i]; simpl;
    try discriminate; eauto.
  intro H. now injection H.
Qed.

Section PoolInvariant.

Context {X Y : Type}.
Variable f : X -> result Y.
Variable jobs : list X.

Lemma enumerate_in (l : list X) (i : nat) (x : X) :
  In (i, x) (enumerate l) -> nth_error l i = Some x.
Proof.
  unfold enumerate. intro H.
  destruct (In_nth _ _ (O, x) H) as (n & Hn & Heq).
  rewrite length_combine, length_seq, Nat.min_id in Hn.
  rewrite combine_nth in Heq by (rewrite length_seq; reflexivity).
  rewrite seq_nth in Heq by assumption. simpl in Heq.
  injection Heq as <- Hx. rewrite <- Hx. apply nth_error_nth'. assumption.
Qed.

Lemma initial_pool_ok (cpu_count : nat) :
  pool_ok f jobs (initial_pool jobs cpu_count).
Proof.
  unfold pool_ok, initial_pool. cbn [answers queue threads].
  split; [apply repeat_length|]. split; [apply enumerate_in|]. split.
  - intros i x H. apply repeat_spec in H. discriminate.
  - intros i y H. apply nth_error_In in H. apply repeat_spec in H.
    discriminate.
Qed.

Lemma thread_step_ok (s : Pool) (k : nat) :
  pool_ok f jobs s -> pool_ok f jobs (thread_step f s k).
Proof.
  intros Hs. pose proof Hs as (Hlen & Hq & Ht & Ha). unfold thread_step.
  destruct (nth_error (threads s) k) as [[|i x|]|] eqn:Ek;
    try exact Hs.
  - destruct (queue s) as [|[i x] q'] eqn:Eq;
      unfold pool_ok; cbn [answers queue threads];
      (split; [|split; [|split]]); try assumption.
    + intros j z H. apply set_nth_in in H.
      destruct H as [H|H]; [discriminate | eauto].
    + intros j z H. apply Hq. now right.
    + intros j z H. apply set_nth_in in H. destruct H as [H|H]; [|eauto].
      injection H as -> ->. apply Hq. now left.
  - assert (Hx : nth_error jobs i = Some x)
      by (apply Ht; eapply nth_error_In; exact Ek).
    destruct (f x) as [e|y] eqn:Ef;
      unfold pool_ok; cbn [answers queue threads];
      (split; [|split; [|split]]); try assumption.
    + intros j z H. apply set_nth_in in H.
      destruct H as [H|H]; [discriminate | eauto].
    + rewrite set_nth_length. assumption.
    + intros j z H. apply set_nth_in in H.
      destruct H as [H|H]; [discriminate | eauto].
    + intros j z H. destruct (Nat.eq_dec i j) as [<-|Hne].
      * apply set_nth_same in H. injection H as ->. eauto.
      * rewrite set_nth_other in H by assumption. eauto.
Qed.

Lemma run_to_end_ok (s : Pool) (k : nat) :
  pool_ok f jobs s -> pool_ok f jobs (run_to_end f s k).
Proof.
  intro H. unfold run_to_end.
  induction (2 * length (queue s) + 2)%nat as [|n IH]; simpl;
    [assumption | now apply thread_step_ok].
Qed.

Lemma fold_left_ok (step : Pool -> nat -> Pool) (ks : list nat) (s : Pool) :
  (forall s' k, pool_ok f jobs s' -> pool_ok f jobs (step s' k)) ->
  pool_ok f jobs s -> pool_ok f jobs (fold_left step ks s).
Proof.
  intro Hstep. revert s. induction ks as [|k tl IH]; intros s H; simpl; auto.
Qed.

(** Whatever the schedule, [_parmap] returns one slot per job, a stored
    answer is the job's own result, and the slot of a job on which [f]
    raises is still [None]. *)
Lemma parmap_answers (schedule : list nat) (cpu_count : nat) :
  let result_ := _parmap f schedule jobs cpu_count in
  length result_ = length jobs /\
  (forall i y, nth_error result_ i = Some (Some y) ->
     exists x, nth_error jobs i = Some x /\ f x = inr y) /\
  (forall i x e, nth_error jobs i = Some x -> f x = inl e ->
     nth_error result_ i = Some None).
Proof.
  intro result_.
  assert (Hok : pool_ok f jobs (join_all f (fold_left (thread_step f) schedule
                                       (initial_pool jobs cpu_count)))).
  { unfold join_all. apply fold_left_ok; [apply run_to_end_ok|].
    apply fold_left_ok; [apply thread_step_ok | apply initial_pool_ok]. }
  destruct Hok as (Hlen & _ & _ & Ha). fold (_parmap f schedule jobs cpu_count) in *.
  fold result_ in Hlen, Ha.
  split; [exact Hlen|]. split; [exact Ha|].
  intros i x e Hx Hf.
  destruct (nth_error result_ i) as [[y|]|] eqn:E.
  - destruct (Ha _ _ E) as (x' & Hx' & Hy). congruence.
  - reflexivity.
  - apply nth_error_None in E.
    assert (i < length jobs)%nat by (apply nth_error_Some; congruence).
    lia.
Qed.

End PoolInvariant.

(** ** Gathering the answers of a parallel call *)

Lemma draw_jobs_length (name : string) (hs : list nat) (range : list nat)
    (js : list Job) :
  draw_jobs name hs range = inr js -> length js = length range.
Proof.
  revert js. induction range as [|i tl IH]; intros js H.
  - injection H as <-. reflexivity.
  - cbn [draw_jobs] in H.
    apply bind_inr in H. destruct H as (s & _ & H).
    apply bind_inr in H. destruct H as (e & _ & H).
    apply bind_inr in H. destruct H as (rest & Hrest & H).
    injection H as <-. simpl. f_equal. eauto.
Qed.

(** When the jobs can be drawn, both components get [num_procs // 2]
    jobs each. *)
Lemma grid_jobs_counts (n num_procs : nat) (jobs : list Job) :
  grid_jobs n num_procs = inr jobs ->
  length jobs = (2 * (num_procs / 2))%nat /\
  (num_procs - num_procs / 2 = num_procs / 2)%nat.
Proof.
  unfold grid_jobs. intro H.
  apply bind_inr in H. destruct H as (hjobs & Hh & H).
  apply bind_inr in H. destruct H as (wjobs & Hw & H).
  injection H as <-.
  pose proof (draw_jobs_length _ _ _ _ Hh) as Lh.
  pose proof (draw_jobs_length _ _ _ _ Hw) as Lw.
  rewrite length_seq in Lh, Lw.
  pose proof (draw_jobs_in_range _ _ _ _ Hw) as Hr.
  rewrite linspace_int_length in Hr.
  set (hp := (num_procs / 2)%nat) in *. set (wp := (num_procs - hp)%nat) in *.
  assert (Hge : (hp <= wp)%nat).
  { unfold wp, hp. pose proof (Nat.div_mod_eq num_procs 2).
    pose proof (Nat.mod_upper_bound num_procs 2). lia. }
  assert (Hle : (wp <= hp)%nat).
  { destruct wp as [|w] eqn:E; [lia|].
    assert (In w (seq 0 (S w))) by (apply in_seq; lia).
    specialize (Hr w H). lia. }
  rewrite length_app. split; lia.
Qed.

Lemma all_answers_none (rs : list (option (list Q))) :
  In None rs -> all_answers rs = None.
Proof.
  induction rs as [|[a|] tl IH]; intro H; simpl; try reflexivity.
  - contradiction.
  - destruct H as [H|H]; [discriminate|]. rewrite (IH H). reflexivity.
Qed.

Lemma first_none_some (rs : list (option (list Q))) (i : nat) :
  In None rs -> exists j, first_none i rs = Some j.
Proof.
  revert i. induction rs as [|[a|] tl IH]; intros i H.
  - contradiction.
  - destruct H as [H|H]; [discriminate|]. apply IH. exact H.
  - eexists. reflexivity.
Qed.

Lemma concatenate_answers_none (rs : list (option (list Q))) :
  In None rs ->
  exists msg,
    concatenate_answers rs = inl (ValueError msg) /\ gathering_message msg.
Proof.
  intro H. unfold concatenate_answers.
  destruct rs as [|r tl]; [contradiction|].
  rewrite (all_answers_none _ H).
  destruct (first_none_some _ 0%nat H) as (j & ->).
  destruct j as [|j]; eexists; (split; [reflexivity|]).
  - now left.
  - right. eexists. reflexivity.
Qed.

Lemma concatenate_answers_first_none (rs : list (option (list Q))) :
  concatenate_answers (None :: rs) = inl (ValueError zero_dimensional_message).
Proof. reflexivity. Qed.

Lemma concatenate_answers_error (rs : list (option (list Q))) (e : PyError) :
  rs <> [] -> concatenate_answers rs = inl e ->
  exists msg, e = ValueError msg /\ gathering_message msg.
Proof.
  intros Hne H. unfold concatenate_answers in H.
  destruct rs as [|r tl]; [contradiction|].
  destruct (all_answers _); [discriminate|].
  destruct (first_none 0 (r :: tl)) as [[|j]|]; injection H as <-;
    eexists; (split; [reflexivity|]);
    try (now left); right; eexists; reflexivity.
Qed.

(** A [None] among the answers makes the gathering raise. *)
Lemma gather_with_none (result_ : list (option (list Q))) (hydro_procs : nat) :
  In None result_ ->
  (0 < hydro_procs < length result_)%nat ->
  exists msg,
    (hydro <- concatenate_answers (firstn hydro_procs result_) ;;
     wet <- concatenate_answers (skipn hydro_procs result_) ;;
     stack2 hydro wet)
    = inl (ValueError msg) /\ gathering_message msg.
Proof.
  intros Hin Hhp.
  rewrite <- (firstn_skipn hydro_procs result_) in Hin.
  destruct (concatenate_answers (firstn hydro_procs result_)) as [e|hydro]
    eqn:Eh; cbn [bind].
  - apply concatenate_answers_error in Eh.
    + destruct Eh as (msg & -> & Hm). exists msg. split; [reflexivity|exact Hm].
    + intro E. apply (f_equal (@length _)) in E.
      rewrite length_firstn in E. simpl in E. lia.
  - apply in_app_or in Hin. destruct Hin as [Hin|Hin].
    + destruct (concatenate_answers_none _ Hin) as (msg & Hm & _).
      rewrite Hm in Eh. discriminate.
    + destruct (concatenate_answers_none _ Hin) as (msg & Hm & Hg).
      exists msg. rewrite Hm. split; [reflexivity | exact Hg].
Qed.

(** A [None] as the very first answer is met first. *)
Lemma gather_first_none (result_ : list (option (list Q)))
    (hydro_procs : nat) :
  nth_error result_ 0 = Some None ->
  (0 < hydro_procs)%nat ->
  (hydro <- concatenate_answers (firstn hydro_procs result_) ;;
   wet <- concatenate_answers (skipn hydro_procs result_) ;;
   stack2 hydro wet)
  = inl (ValueError "zero-dimensional arrays cannot be concatenated").
Proof.
  intros H0 Hh. destruct result_ as [|[a|] tl]; try discriminate.
  destruct hydro_procs as [|k]; [lia|]. reflexivity.
Qed.

(** C7, as the code has it. If a worker raises while computing its slice
    of a parallel call, the exception ends that worker's thread and
    nothing else (whatever state the pool is in when the thread holding
    the job moves, the thread ends and queue, answers and the other
    threads are as before), and it is not passed on: under every
    schedule the job's answer is still [None] after the joins, and
    gathering the answers raises a [ValueError] of [np.concatenate]:
    that a zero-dimensional array cannot be concatenated when the [None]
    is the first answer gathered, as it is for the first job, and
    otherwise that the arrays differ in their number of dimensions.  The
    call returns no result. *)
Theorem parallel_worker_exception_leaves_none_and_gathering_raises :
  forall (util : Util) (cpu_count : nat) (schedule : list nat)
         (weather : Weather) (llas : list lla) (los los' : LookVecs)
         (raytrace : bool) (jobs : list Job) (i : nat) (job : Job)
         (e : PyError),
    flatten_los los raytrace = inr los' ->
    grid_jobs (length llas) cpu_count = inr jobs ->
    nth_error jobs i = Some job ->
    go util weather llas los' raytrace job = inl e ->
    (forall (s : Pool) (k : nat),
       nth_error (threads s) k = Some (Holding i job) ->
       thread_step (go util weather llas los' raytrace) s k
       = mkPool (queue s) (answers s) (set_nth (threads s) k Finished)) /\
    nth_error (_parmap (go util weather llas los' raytrace) schedule jobs
                 cpu_count) i = Some None /\
    (exists msg,
       delay_from_grid util cpu_count schedule weather llas los true raytrace
       = inl (ValueError msg) /\
       (msg = zero_dimensional_message \/
        exists j, msg = dimensions_message j)) /\
    (i = 0%nat ->
     delay_from_grid util cpu_count schedule weather llas los true raytrace
     = inl (ValueError zero_dimensional_message)).
Proof.
  intros util cpu_count schedule weather llas los los' raytrace jobs i job e
         Hlos Hjobs Hjob Hgo.
  destruct (parmap_answers (go util weather llas los' raytrace) jobs
              schedule cpu_count) as (Hlen & _ & Hnone).
  specialize (Hnone i job e Hjob Hgo).
  assert (Hi : (i < length jobs)%nat) by (apply nth_error_Some; congruence).
  destruct (grid_jobs_counts _ _ _ Hjobs) as [Hc _].
  split; [|split; [exact Hnone|split]].
  - intros s k Hk. unfold thread_step. rewrite Hk, Hgo. reflexivity.
  - unfold delay_from_grid. rewrite Hlos. cbn [bind]. cbv zeta.
    rewrite Hjobs. cbn [bind].
    apply gather_with_none.
    + eapply nth_error_In. exact Hnone.
    + rewrite Hlen. lia.
  - intros ->. unfold delay_from_grid. rewrite Hlos. cbn [bind]. cbv zeta.
    rewrite Hjobs. cbn [bind].
    apply gather_first_none; [exact Hnone | lia].
Qed.

(** The hypotheses of
    [parallel_worker_exception_leaves_none_and_gathering_raises] hold on
    four processing units for two points and a model whose hydrostatic
    query raises on the second point only: the second hydrostatic job
    raises, its answer stays [None] behind the answer of the first job,
    and the gathering complains about the number of dimensions. *)
Lemma parallel_worker_exception_leaves_none_and_gathering_raises_witness :
  let weather := raising_at (PolarAxis.b + 14980) in
  let llas := [PolarAxis.pole 14955; PolarAxis.pole 14980] in
  let schedule := [3; 0; 1; 2; 2; 1; 0; 3]%nat in
  nth_error (_parmap (go PolarAxis.util weather llas Zenith true) schedule
               [("hydro"%string, 0%nat, 1%nat); ("hydro"%string, 1%nat, 2%nat);
                ("wet"%string, 0%nat, 1%nat); ("wet"%string, 1%nat, 2%nat)]
               4) 1 = Some None /\
  delay_from_grid PolarAxis.util 4 schedule weather llas Zenith true true
  = inl (ValueError (dimensions_message 1)).
Proof.
  intros weather llas schedule.
  destruct (parallel_worker_exception_leaves_none_and_gathering_raises
              PolarAxis.util 4 schedule weather llas Zenith Zenith true
              [("hydro"%string, 0%nat, 1%nat); ("hydro"%string, 1%nat, 2%nat);
               ("wet"%string, 0%nat, 1%nat); ("wet"%string, 1%nat, 2%nat)]
              1%nat ("hydro"%string, 1%nat, 2%nat) (ModelError 7))
    as (_ & Hnone & (msg & Hmsg & _) & _);
    try (vm_compute; reflexivity).
  split; [exact Hnone|].
  rewrite Hmsg. f_equal. f_equal.
  assert (Hrun : delay_from_grid PolarAxis.util 4 schedule weather llas
                   Zenith true true
                 = inl (ValueError (dimensions_message 1)))
    by (vm_compute; reflexivity).
  rewrite Hrun in Hmsg. injection Hmsg as <-. reflexivity.
Defined.

(** C7, as stated, fails: with a model whose hydrostatic query raises
    [ModelError 7], the hydrostatic worker of a parallel call on two
    processing units raises that exception, but the caller receives a
    [ValueError] from the gathering instead; the serial call passes the
    model's exception on. *)
Lemma parallel_worker_exception_does_not_propagate :
  go PolarAxis.util raising_weather [PolarAxis.pole 14955] Zenith true
    ("hydro"%string, 0%nat, 1%nat) = inl (ModelError 7) /\
  (exists w,
     go PolarAxis.util raising_weather [PolarAxis.pole 14955] Zenith true
       ("wet"%string, 0%nat, 1%nat) = inr [w] /\ w == 45 # 1000000) /\
  delay_from_grid PolarAxis.util 2 [] raising_weather
    [PolarAxis.pole 14955] Zenith true true
  = inl (ValueError "zero-dimensional arrays cannot be concatenated") /\
  delay_from_grid PolarAxis.util 2 [] raising_weather
    [PolarAxis.pole 14955] Zenith true true <> inl (ModelError 7) /\
  delay_from_grid PolarAxis.util 2 [] raising_weather
    [PolarAxis.pole 14955] Zenith false true = inl (ModelError 7).
Proof.
  assert (Hpar : delay_from_grid PolarAxis.util 2 [] raising_weather
                   [PolarAxis.pole 14955] Zenith true true
                 = inl (ValueError
                          "zero-dimensional arrays cannot be concatenated"))
    by (vm_compute; reflexivity).
  split; [vm_compute; reflexivity|].
  split; [eexists; split; [vm_compute; reflexivity | vm_compute; reflexivity]|].
  split; [exact Hpar|].
  split; [rewrite Hpar; discriminate | vm_compute; reflexivity].
Qed.

(** ** The joins end every thread *)

Lemma set_nth_hit {A} (l : list A) (i : nat) (v : A) :
  (i < length l)%nat -> nth_error (set_nth l i v) i = Some v.
Proof.
  revert i. induction l as [|a tl IH]; intros [|i] H; simpl in *;
    try lia; [reflexivity | apply IH; lia].
Qed.

Section PoolProgress.

Context {X Y : Type}.
Variable f : X -> result Y.

Lemma thread_step_threads_length (s : Pool) (k : nat) :
  length (threads (thread_step f s k)) = length (threads s).
Proof.
  unfold thread_step.
  destruct (nth_error (threads s) k) as [[|i x|]|]; try reflexivity.
  - destruct (queue s) as [|[i x] q']; cbn [threads]; apply set_nth_length.
  - destruct (f x); cbn [threads]; apply set_nth_length.
Qed.

Lemma thread_step_other (s : Pool) (k j : nat) :
  k <> j ->
  nth_error (threads (thread_step f s k)) j = nth_error (threads s) j.
Proof.
  intro H. unfold thread_step.
  destruct (nth_error (threads s) k) as [[|i x|]|]; try reflexivity.
  - destruct (queue s) as [|[i x] q']; cbn [threads];
      apply set_nth_other; assumption.
  - destruct (f x); cbn [threads]; apply set_nth_other; assumption.
Qed.

(** A finished thread stays finished, whoever moves. *)
Lemma thread_step_finished (s : Pool) (k j : nat) :
  nth_error (threads s) j = Some Finished ->
  nth_error (threads (thread_step f s k)) j = Some Finished.
Proof.
  intro H. destruct (Nat.eq_dec k j) as [->|Hne].
  - unfold thread_step. rewrite H. exact H.
  - rewrite thread_step_other by assumption. exact H.
Qed.

(** Every move of a thread that has not ended uses up one of its moves. *)
Lemma thread_step_moves (s : Pool) (k : nat) :
  (moves_left (thread_step f s k) k <= moves_left s k - 1)%nat.
Proof.
  unfold moves_left at 2. unfold thread_step.
  destruct (nth_error (threads s) k) as [[|i x|]|] eqn:Ek.
  - assert (Hk : (k < length (threads s))%nat)
      by (apply nth_error_Some; congruence).
    destruct (queue s) as [|[i x] q'] eqn:Eq; unfold moves_left;
      cbn [threads queue]; rewrite set_nth_hit by assumption;
      simpl length; lia.
  - assert (Hk : (k < length (threads s))%nat)
      by (apply nth_error_Some; congruence).
    destruct (f x); unfold moves_left; cbn [threads queue];
      rewrite set_nth_hit by assumption; lia.
  - unfold moves_left. rewrite Ek. lia.
  - unfold moves_left. rewrite Ek. lia.
Qed.

Lemma moves_left_zero (s : Pool (X:=X) (Y:=Y)) (k : nat) :
  (k < length (threads s))%nat -> moves_left s k = O ->
  nth_error (threads s) k = Some Finished.
Proof.
  intros Hk H. unfold moves_left in H.
  destruct (nth_error (threads s) k) as [[|i x|]|] eqn:E; try lia.
  - reflexivity.
  - apply nth_error_None in E. lia.
Qed.

Lemma iter_thread_step_finishes (fuel : nat) (s : Pool) (k : nat) :
  (k < length (threads s))%nat -> (moves_left s k <= fuel)%nat ->
  nth_error (threads (Nat.iter fuel (fun s' => thread_step f s' k) s)) k
  = Some Finished.
Proof.
  revert s. induction fuel as [|n IH]; intros s Hk Hm.
  - simpl. apply moves_left_zero; [assumption | lia].
  - rewrite Nat.iter_succ_r. apply IH.
    + rewrite thread_step_threads_length. assumption.
    + pose proof (thread_step_moves s k). lia.
Qed.

Lemma iter_thread_step_keeps (fuel : nat) (s : Pool) (k j : nat) :
  nth_error (threads s) j = Some Finished ->
  nth_error (threads (Nat.iter fuel (fun s' => thread_step f s' k) s)) j
  = Some Finished.
Proof.
  intro H. induction fuel as [|n IH]; simpl;
    [assumption | now apply thread_step_finished].
Qed.

Lemma iter_thread_step_length (fuel : nat) (s : Pool) (k : nat) :
  length (threads (Nat.iter fuel (fun s' => thread_step f s' k) s))
  = length (threads s).
Proof.
  induction fuel as [|n IH]; simpl; [reflexivity|].
  rewrite thread_step_threads_length. exact IH.
Qed.

Lemma run_to_end_finishes (s : Pool) (k : nat) :
  (k < length (threads s))%nat ->
  nth_error (threads (run_to_end f s k)) k = Some Finished.
Proof.
  intro Hk. unfold run_to_end. apply iter_thread_step_finishes; [assumption|].
  unfold moves_left. destruct (nth_error (threads s) k) as [[|i x|]|]; lia.
Qed.

Lemma join_prefix_finishes (n : nat) (s : Pool) :
  (n <= length (threads s))%nat ->
  let s' := fold_left (run_to_end f) (seq 0 n) s in
  length (threads s') = length (threads s) /\
  forall j, (j < n)%nat -> nth_error (threads s') j = Some Finished.
Proof.
  induction n as [|n IH]; intro Hn.
  - simpl. split; [reflexivity | intros j Hj; lia].
  - rewrite seq_S, fold_left_app. cbn [fold_left plus].
    destruct IH as [Hlen Hfin]; [lia|].
    set (s1 := fold_left (run_to_end f) (seq 0 n) s) in *.
    split.
    + unfold run_to_end. rewrite iter_thread_step_length. exact Hlen.
    + intros j Hj. destruct (Nat.eq_dec j n) as [->|Hne].
      * apply run_to_end_finishes. lia.
      * unfold run_to_end. apply iter_thread_step_keeps. apply Hfin. lia.
Qed.

(** After the joins no thread is left running. *)
Lemma join_all_finishes (s : Pool) :
  Forall (fun t => t = Finished) (threads (join_all f s)).
Proof.
  unfold join_all.
  destruct (join_prefix_finishes (length (threads s)) s (le_n _))
    as [Hlen Hfin].
  set (s' := fold_left _ _ s) in *.
  apply Forall_forall. intros t Ht.
  destruct (In_nth_error _ _ Ht) as (j & Hj).
  assert (j < length (threads s'))%nat by (apply nth_error_Some; congruence).
  rewrite Hfin in Hj by lia. now injection Hj.
Qed.

End PoolProgress.

(** ** When no job raises, every job is answered *)

Lemma set_nth_keeps {A} (l : list A) (k : nat) (old v t : A) :
  nth_error l k = Some old -> In t l -> t <> old -> In t (set_nth l k v).
Proof.
  revert k. induction l as [|a tl IH]; intros [|k] Hk Hin Hne; simpl in *;
    try contradiction.
  - injection Hk as ->. destruct Hin as [H|H]; [congruence | now right].
  - destruct Hin as [H|H]; [now left | right; eauto].
Qed.

Lemma Forall2_from_nth_error {A B} (P : A -> B -> Prop) (l : list A)
    (l' : list B) :
  length l = length l' ->
  (forall i a, nth_error l i = Some a ->
     exists b, nth_error l' i = Some b /\ P a b) ->
  Forall2 P l l'.
Proof.
  revert l'. induction l as [|a tl IH]; intros [|b tl'] Hlen H;
    try discriminate; constructor.
  - destruct (H O a eq_refl) as (b' & Hb & Hp). injection Hb as ->. exact Hp.
  - apply IH; [simpl in Hlen; lia|].
    intros i x Hx. exact (H (S i) x Hx).
Qed.

Section PoolComplete.

Context {X Y : Type}.
Variable f : X -> result Y.
Variable jobs : list X.
Hypothesis f_succeeds : forall x, In x jobs -> exists y, f x = inr y.

Lemma thread_step_served (s : Pool) (k : nat) :
  pool_ok f jobs s -> pool_served jobs s ->
  pool_served jobs (thread_step f s k).
Proof.
  intros (Hlen & Hq & Ht & Ha) (Hcover & Hfin). unfold thread_step.
  destruct (nth_error (threads s) k) as [[|i x|]|] eqn:Ek;
    try (split; assumption).
  - destruct (queue s) as [|[i x] q'] eqn:Eq; split; cbn [queue threads answers].
    + intros j z Hj. destruct (Hcover j z Hj) as [H|[H|H]]; auto.
      right. left. eapply set_nth_keeps; eauto. discriminate.
    + reflexivity.
    + intros j z Hj. destruct (Nat.eq_dec j i) as [->|Hne].
      * right. left.
        assert (Hx : nth_error jobs i = Some x) by (apply Hq; now left).
        assert (z = x) by congruence. subst z.
        eapply nth_error_In. apply set_nth_hit.
        apply nth_error_Some. congruence.
      * destruct (Hcover j z Hj) as [H|[H|H]]; auto.
        -- left. destruct H as [H|H]; [congruence | assumption].
        -- right. left. eapply set_nth_keeps; eauto. discriminate.
    + intro H. apply set_nth_in in H. destruct H as [H|H]; [discriminate|].
      specialize (Hfin H). discriminate.
  - assert (Hx : nth_error jobs i = Some x)
      by (apply Ht; eapply nth_error_In; exact Ek).
    destruct (f_succeeds x (nth_error_In _ _ Hx)) as (y & Hy).
    rewrite Hy. split; cbn [queue threads answers].
    + intros j z Hj. destruct (Nat.eq_dec j i) as [->|Hne].
      * right. right. exists y. apply set_nth_hit.
        rewrite Hlen. apply nth_error_Some. congruence.
      * destruct (Hcover j z Hj) as [H|[H|(y' & H)]]; auto.
        -- right. left. eapply set_nth_keeps; eauto. congruence.
        -- right. right. exists y'. rewrite set_nth_other by auto. exact H.
    + intro H. apply set_nth_in in H. destruct H as [H|H]; [discriminate|].
      auto.
Qed.

Lemma fold_left_served (step : Pool -> nat -> Pool) (ks : list nat)
    (s : Pool) :
  (forall s' k, pool_ok f jobs s' -> pool_ok f jobs (step s' k)) ->
  (forall s' k, pool_ok f jobs s' -> pool_served jobs s' ->
                pool_served jobs (step s' k)) ->
  pool_ok f jobs s -> pool_served jobs s ->
  pool_ok f jobs (fold_left step ks s) /\
  pool_served jobs (fold_left step ks s).
Proof.
  intros Hok Hserved. revert s.
  induction ks as [|k tl IH]; intros s H1 H2; simpl; auto.
Qed.

Lemma run_to_end_served (s : Pool) (k : nat) :
  pool_ok f jobs s -> pool_served jobs s ->
  pool_served jobs (run_to_end f s k).
Proof.
  intros H1 H2. unfold run_to_end.
  assert (H : pool_ok f jobs (Nat.iter (2 * length (queue s) + 2)
                                (fun s' => thread_step f s' k) s) /\
              pool_served jobs (Nat.iter (2 * length (queue s) + 2)
                                  (fun s' => thread_step f s' k) s)).
  { induction (2 * length (queue s) + 2)%nat as [|n [IH1 IH2]]; simpl.
    - split; assumption.
    - split; [now apply thread_step_ok | now apply thread_step_served]. }
  apply H.
Qed.

Lemma initial_pool_served (cpu_count : nat) :
  pool_served jobs (initial_pool (Y:=Y) jobs cpu_count).
Proof.
  split; cbn [queue threads answers initial_pool].
  - intros i x H. left. unfold enumerate.
    assert (Hi : (i < length jobs)%nat) by (apply nth_error_Some; congruence).
    replace (i, x) with (nth i (combine (seq 0 (length jobs)) jobs) (O, x)).
    + apply nth_In. rewrite length_combine, length_seq. lia.
    + rewrite combine_nth by (rewrite length_seq; reflexivity).
      rewrite seq_nth by assumption. f_equal.
      apply nth_error_nth. assumption.
  - intro H. apply repeat_spec in H. discriminate.
Qed.

Lemma fold_left_threads_length
    (step : Pool (X:=X) (Y:=Y) -> nat -> Pool (X:=X) (Y:=Y))
    (ks : list nat) (s : Pool) :
  (forall s' k, length (threads (step s' k)) = length (threads s')) ->
  length (threads (fold_left step ks s)) = length (threads s).
Proof.
  intro H. revert s. induction ks as [|k tl IH]; intro s; simpl;
    [reflexivity | rewrite IH; apply H].
Qed.

(** When [f] raises on no job and there is at least one thread, then
    whatever the schedule [_parmap] returns [f]'s result for every job,
    in the order of the jobs. *)
Lemma parmap_complete (schedule : list nat) (cpu_count : nat) :
  (1 <= cpu_count)%nat ->
  Forall2 (fun x a => exists y, f x = inr y /\ a = Some y) jobs
          (_parmap f schedule jobs cpu_count).
Proof.
  intro Hcpu. unfold _parmap.
  set (s0 := initial_pool jobs cpu_count).
  set (s1 := fold_left (thread_step f) schedule s0).
  destruct (fold_left_served (thread_step f) schedule s0) as [Hok1 Hs1];
    [apply thread_step_ok | apply thread_step_served
    | apply initial_pool_ok | apply initial_pool_served |].
  fold s1 in Hok1, Hs1.
  destruct (fold_left_served (run_to_end f) (seq 0 (length (threads s1))) s1)
    as [Hok Hserved];
    [apply run_to_end_ok | apply run_to_end_served | assumption..|].
  fold (join_all f s1) in Hok, Hserved.
  pose proof (join_all_finishes f s1) as Hfin.
  assert (Hlen : length (threads (join_all f s1)) = cpu_count).
  { unfold join_all. rewrite fold_left_threads_length.
    - unfold s1. rewrite fold_left_threads_length.
      + apply repeat_length.
      + intros. apply thread_step_threads_length.
    - intros. unfold run_to_end. apply iter_thread_step_length. }
  set (s2 := join_all f s1) in *.
  destruct Hok as (Hal & _ & _ & Ha). destruct Hserved as (Hcover & Hempty).
  assert (Hq : queue s2 = []).
  { apply Hempty. destruct (threads s2) as [|t ts] eqn:E; [simpl in Hlen; lia|].
    inversion Hfin; subst. now left. }
  apply Forall2_from_nth_error; [symmetry; exact Hal|].
  intros i x Hx. destruct (Hcover i x Hx) as [H|[H|(y & H)]].
  - rewrite Hq in H. contradiction.
  - rewrite Forall_forall in Hfin. apply Hfin in H. discriminate.
  - exists (Some y). split; [exact H|]. exists y. split; [|reflexivity].
    destruct (Ha i y H) as (x' & Hx' & Hy). congruence.
Qed.

End PoolComplete.

(** ** Zenith queries on a pointwise model *)

Lemma chunks_of_concat (ls : list (list Q)) :
  chunks_of (map (@length Q) ls) (concat ls) = ls.
Proof.
  induction ls as [|l tl IH]; [reflexivity|].
  cbn [map concat chunks_of].
  rewrite firstn_app, firstn_all, Nat.sub_diag, firstn_O, app_nil_r.
  rewrite skipn_app, skipn_all, Nat.sub_diag. cbn [skipn app].
  rewrite IH. reflexivity.
Qed.

Lemma ray_integrals_map (d : vec -> Q) (rays : list RaySamples) :
  ray_integrals (map (fun r => map d (positions r)) rays) (map t_points rays)
  = map (ray_delay d) rays.
Proof.
  induction rays as [|r rs IH]; [reflexivity|].
  cbn [map ray_integrals]. rewrite IH. reflexivity.
Qed.

(** On a pointwise model a Zenith call over a non-empty batch returns
    each point's own delay. *)
Lemma common_delay_zenith_pointwise (util : Util) (d : vec -> Q)
    (points : list lla) :
  points <> [] ->
  (forall v, 0 <= norm util v) ->
  _common_delay util (pointwise_query d) points Zenith true
  = inr (map (zenith_point_delay util d) points).
Proof.
  intros Hne Hnorm.
  destruct (sample_rays_points util (zenith_look_vec util) points)
    as (rays & Hrays & HF).
  { intros p _. apply ray_thisspace_ok. apply Hnorm. }
  destruct (rays_steps util _ _ _ HF) as [Htps Hsum].
  assert (Hrne : rays <> []).
  { intro E. subst rays. inversion HF. congruence. }
  set (wet := map d (concat (map positions rays))).
  assert (Hlen : length wet = list_sum (map first_high rays))
    by (unfold wet; rewrite length_map; exact Hsum).
  assert (Hsteps : map (@length Q) (map (fun r => map d (positions r)) rays)
                   = map first_high rays).
  { clear - HF. induction HF as [|p r ps rs (ts & _ & ->) _ IH];
      [reflexivity|].
    cbn [map]. rewrite IH, length_map. f_equal.
    destruct (truncate_ray_lengths util
                (lla2ecef util (lat p) (lon p) (ht p))
                (scaled_look_vec util (zenith_look_vec util p)) ts)
      as [_ H].
    exact H. }
  assert (Hchunks : chunks_of (map first_high rays) wet
                    = map (fun r => map d (positions r)) rays).
  { assert (E : map d (concat (map positions rays))
                 = concat (map (fun r => map d (positions r)) rays))
      by (rewrite concat_map, map_map; reflexivity).
    unfold wet. rewrite E, <- Hsteps. apply chunks_of_concat. }
  assert (Hpoints : map (ray_delay d) rays
                    = map (zenith_point_delay util d) points).
  { clear - HF. induction HF as [|p r ps rs (ts & Hts & ->) _ IH];
      [reflexivity|].
    cbn [map]. rewrite IH. unfold zenith_point_delay at 2.
    rewrite Hts. reflexivity. }
  unfold _common_delay. cbn [resolve_look_vecs bind ret fst snd].
  rewrite Hrays. cbn [bind].
  destruct rays as [|r rs]; [contradiction|].
  cbn [map np.concatenate]. cbn [bind ret].
  change (positions r :: map positions rs) with (map positions (r :: rs)).
  unfold pointwise_query at 1. cbn [bind ret]. fold wet.
  rewrite indices_are_offsets. cbn [bind].
  change (first_high r :: map first_high rs) with (map first_high (r :: rs)).
  change (t_points r :: map t_points rs) with (map t_points (r :: rs)).
  pose proof (integrate_rays_chunks _ _ [] wet Htps Hlen) as Hint.
  change (length (@nil Q)) with 0%nat in Hint.
  change ([] ++ wet) with wet in Hint.
  rewrite Hint. cbn [bind].
  rewrite Hchunks, ray_integrals_map, Hpoints.
  rewrite length_map.
  unfold np.zeros. rewrite skipn_all2 by (rewrite repeat_length; lia).
  rewrite app_nil_r. reflexivity.
Qed.

(** ** The jobs on an even number of processing units *)

Lemma linspace_int_nth (n h i : nat) :
  (1 <= h)%nat -> (i <= h)%nat ->
  nth_error (np.linspace_int n (h + 1)) i = Some (i * n / h)%nat.
Proof.
  intros Hh Hi. destruct h as [|k]; [lia|].
  replace (S k + 1)%nat with (S (S k)) by lia. cbn [np.linspace_int].
  destruct (Nat.eq_dec i (S k)) as [->|Hne].
  - rewrite nth_error_app2 by (rewrite length_map, length_seq; lia).
    rewrite length_map, length_seq, Nat.sub_diag. cbn [nth_error].
    rewrite Nat.mul_comm, Nat.div_mul by lia. reflexivity.
  - rewrite nth_error_app1 by (rewrite length_map, length_seq; lia).
    rewrite nth_error_map.
    rewrite (nth_error_nth' _ O) by (rewrite length_seq; lia).
    rewrite seq_nth by lia. reflexivity.
Qed.

Lemma draw_jobs_slices (name : string) (n h a m : nat) :
  (1 <= h)%nat -> (a + m <= h)%nat ->
  draw_jobs name (np.linspace_int n (h + 1)) (seq a m)
  = inr (map (slice_job name n h) (seq a m)).
Proof.
  intro Hh. revert a. induction m as [|m IH]; intros a Ham; [reflexivity|].
  cbn [seq draw_jobs map]. unfold getitem.
  rewrite !linspace_int_nth by lia. cbn [bind ret].
  rewrite IH by lia. reflexivity.
Qed.

Lemma grid_jobs_even (n h : nat) :
  (1 <= h)%nat ->
  grid_jobs n (2 * h)
  = inr (map (slice_job "hydro" n h) (seq 0 h)
         ++ map (slice_job "wet" n h) (seq 0 h)).
Proof.
  intro Hh. unfold grid_jobs.
  replace (2 * h / 2)%nat with h
    by (rewrite Nat.mul_comm, Nat.div_mul; lia).
  replace (2 * h - h)%nat with h by lia.
  rewrite !draw_jobs_slices by lia. reflexivity.
Qed.

(** Consecutive boundaries [i*n/h] are ordered and differ by the integer
    quotient of [n] by [h] or by one more. *)
Lemma boundary_step (n h i : nat) :
  (1 <= h)%nat ->
  (i * n / h <= (i + 1) * n / h)%nat /\
  ((i + 1) * n / h - i * n / h = n / h \/
   (i + 1) * n / h - i * n / h = n / h + 1)%nat.
Proof.
  intro Hh.
  replace ((i + 1) * n)%nat with (i * n + n)%nat by lia.
  set (a := (i * n)%nat).
  pose proof (Nat.div_mod_eq a h). pose proof (Nat.mod_upper_bound a h).
  pose proof (Nat.div_mod_eq n h). pose proof (Nat.mod_upper_bound n h).
  pose proof (Nat.div_mod_eq (a + n) h).
  pose proof (Nat.mod_upper_bound (a + n) h).
  split; nia.
Qed.

Lemma boundary_monotone (n h i j : nat) :
  (1 <= h)%nat -> (i <= j)%nat -> (i * n / h <= j * n / h)%nat.
Proof.
  intros Hh Hij. apply Nat.Div0.div_le_mono. nia.
Qed.

Lemma firstn_add {A} (m k : nat) (l : list A) :
  firstn (m + k) l = firstn m l ++ firstn k (skipn m l).
Proof.
  revert l. induction m as [|m IH]; intro l; [reflexivity|].
  destruct l as [|a tl]; simpl.
  - rewrite firstn_nil. reflexivity.
  - rewrite IH. reflexivity.
Qed.

Lemma slice_app {A} (l : list A) (a b c : nat) :
  (a <= b)%nat -> (b <= c)%nat ->
  slice l a b ++ slice l b c = slice l a c.
Proof.
  intros Hab Hbc. unfold slice.
  replace (c - a)%nat with ((b - a) + (c - b))%nat by lia.
  rewrite firstn_add, skipn_skipn.
  replace (b - a + a)%nat with b by lia. reflexivity.
Qed.

(** Slices between consecutive ordered boundaries, put together again. *)
Lemma concat_slices {A} (l : list A) (b : nat -> nat) (a m : nat) :
  (forall i j, (i <= j)%nat -> (b i <= b j)%nat) ->
  concat (map (fun i => slice l (b i) (b (i + 1)%nat)) (seq a m))
  = slice l (b a) (b (a + m)%nat).
Proof.
  intro Hb. revert a. induction m as [|m IH]; intro a.
  - rewrite Nat.add_0_r. unfold slice. rewrite Nat.sub_diag. reflexivity.
  - cbn [seq map concat]. rewrite IH.
    replace (S a) with (a + 1)%nat by lia.
    rewrite slice_app by (apply Hb; lia).
    f_equal. f_equal. lia.
Qed.

Lemma slices_tile {A} (l : list A) (h : nat) :
  (1 <= h)%nat ->
  concat (map (fun i => slice l (i * length l / h) ((i + 1) * length l / h))
            (seq 0 h)) = l.
Proof.
  intro Hh.
  rewrite (concat_slices l (fun i => (i * length l / h)%nat) 0 h)
    by (intros; apply boundary_monotone; assumption).
  cbn [plus]. rewrite Nat.mul_0_l, Nat.Div0.div_0_l.
  rewrite (Nat.mul_comm h), Nat.div_mul by lia.
  unfold slice. rewrite Nat.sub_0_r. cbn [skipn]. apply firstn_all.
Qed.



(** ** Serial and parallel calls on an even number of processing units *)

Lemma slice_length {A} (l : list A) (a b : nat) :
  (b <= length l)%nat -> length (slice l a b) = (b - a)%nat.
Proof.
  intro H. unfold slice. rewrite length_firstn, length_skipn. lia.
Qed.

Lemma slice_map {A B} (g : A -> B) (l : list A) (a b : nat) :
  map g (slice l a b) = slice (map g l) a b.
Proof. unfold slice. rewrite skipn_map, firstn_map. reflexivity. Qed.

Lemma all_answers_some (arrays : list (list Q)) :
  all_answers (map Some arrays) = Some arrays.
Proof.
  induction arrays as [|a tl IH]; [reflexivity|].
  cbn [map all_answers]. rewrite IH. reflexivity.
Qed.

Lemma concatenate_answers_some (arrays : list (list Q)) :
  arrays <> [] ->
  concatenate_answers (map Some arrays) = inr (concat arrays).
Proof.
  intro H. unfold concatenate_answers.
  destruct arrays as [|a tl]; [contradiction|].
  change (map Some (a :: tl)) with (Some a :: map Some tl).
  change (Some a :: map Some tl) with (map Some (a :: tl)).
  rewrite all_answers_some. reflexivity.
Qed.

Lemma Forall2_map_eq {A B} (F : A -> B) (l : list A) (l' : list B) :
  Forall2 (fun x a => a = F x) l l' -> l' = map F l.
Proof.
  induction 1 as [|x a l l' Ha _ IH]; [reflexivity|].
  simpl. rewrite Ha, IH. reflexivity.
Qed.

Section EvenUnits.

Variable util : Util.
Variables dh dw : vec -> Q.
Variable llas : list lla.
Variable h : nat.

Hypothesis norm_nonneg : forall v, 0 <= norm util v.
Hypothesis units : (1 <= h <= length llas)%nat.

Local Abbreviation n := (length llas).
Local Abbreviation weather := (pointwise_weather dh dw).

(** No slice is empty when there are at least as many points as slices. *)
Lemma slice_nonempty (i : nat) :
  (i < h)%nat -> slice llas (i * n / h) ((i + 1) * n / h) <> [].
Proof.
  intros Hi E. apply (f_equal (@length lla)) in E.
  rewrite slice_length in E.
  - destruct (boundary_step n h i) as [_ Hs]; [lia|].
    assert (1 <= n / h)%nat
      by (apply Nat.div_le_lower_bound; lia).
    simpl in E. lia.
  - replace n with (h * n / h)%nat at 2
      by (rewrite Nat.mul_comm; apply Nat.div_mul; lia).
    apply boundary_monotone; lia.
Qed.

(** What the worker returns for slice [i] of either component. *)
Lemma go_slice (i : nat) :
  (i < h)%nat ->
  go util weather llas Zenith true (slice_job "hydro" n h i)
  = inr (map (zenith_point_delay util dh)
           (slice llas (i * n / h) ((i + 1) * n / h))) /\
  go util weather llas Zenith true (slice_job "wet" n h i)
  = inr (map (zenith_point_delay util dw)
           (slice llas (i * n / h) ((i + 1) * n / h))).
Proof.
  intro Hi. unfold go, slice_job. cbn [String.eqb Ascii.eqb Bool.eqb slice_los].
  unfold hydrostatic_delay, wet_delay, weather, pointwise_weather.
  cbn [wm_hydrostatic_delay wm_wet_delay].
  split; apply common_delay_zenith_pointwise;
    try exact norm_nonneg; apply slice_nonempty; assumption.
Qed.

(** The answer of the worker for a job, the empty array standing in
    where it raises. *)
Local Abbreviation answer job :=
  (match go util weather llas Zenith true job with
   | inr y => y
   | inl _ => []
   end).

Lemma jobs_succeed (job : Job) :
  In job (map (slice_job "hydro" n h) (seq 0 h)
          ++ map (slice_job "wet" n h) (seq 0 h)) ->
  exists y, go util weather llas Zenith true job = inr y.
Proof.
  intro H. apply in_app_or in H.
  destruct H as [H|H]; apply in_map_iff in H;
    destruct H as (i & <- & Hi); apply in_seq in Hi;
    destruct (go_slice i) as [H1 H2]; try lia; eauto.
Qed.

Lemma gathered (name : string) (d : vec -> Q) :
  (forall i, (i < h)%nat ->
     go util weather llas Zenith true (slice_job name n h i)
     = inr (map (zenith_point_delay util d)
              (slice llas (i * n / h) ((i + 1) * n / h)))) ->
  concatenate_answers
    (map (fun job => Some (answer job))
       (map (slice_job name n h) (seq 0 h)))
  = inr (map (zenith_point_delay util d) llas).
Proof.
  intro Hgo.
  rewrite <- (map_map (fun job => answer job) Some).
  rewrite concatenate_answers_some.
  - f_equal. rewrite map_map.
    pose proof (slices_tile (map (zenith_point_delay util d) llas) h) as Ht.
    rewrite length_map in Ht. rewrite <- Ht at 1 by lia.
    f_equal. apply map_ext_in.
    intros i Hi. apply in_seq in Hi. rewrite Hgo by lia.
    apply slice_map.
  - destruct h as [|k]; [lia|]. discriminate.
Qed.

(** On [2*h] processing units, with at least [h] points, a model that
    answers position by position and the Zenith look vector, the
    parallel call returns under every schedule what the serial call
    returns: each point's own delay, in both components. *)
Lemma parallel_is_serial (cpu_count : nat) (schedule schedule' : list nat) :
  delay_from_grid util (2 * h) schedule weather llas Zenith true true
  = inr (map (zenith_point_delay util dh) llas,
         map (zenith_point_delay util dw) llas) /\
  delay_from_grid util cpu_count schedule' weather llas Zenith false true
  = inr (map (zenith_point_delay util dh) llas,
         map (zenith_point_delay util dw) llas).
Proof.
  split.
  - unfold delay_from_grid. cbn [flatten_los bind ret]. cbv zeta.
    rewrite grid_jobs_even by lia. cbn [bind].
    replace (2 * h / 2)%nat with h
      by (rewrite Nat.mul_comm, Nat.div_mul; lia).
    set (jobs := map (slice_job "hydro" n h) (seq 0 h)
                 ++ map (slice_job "wet" n h) (seq 0 h)).
    pose proof (parmap_complete (go util weather llas Zenith true) jobs
                  jobs_succeed schedule (2 * h)) as Hpar.
    assert (Hres : _parmap (go util weather llas Zenith true) schedule jobs
                     (2 * h)
                   = map (fun job => Some (answer job)) jobs).
    { apply Forall2_map_eq. eapply Forall2_impl; [|apply Hpar; lia].
      intros job a (y & Hy & ->). rewrite Hy. reflexivity. }
    rewrite Hres. unfold jobs. rewrite map_app.
    rewrite firstn_app, firstn_all2, skipn_app, skipn_all2
      by (rewrite !length_map, length_seq; lia).
    rewrite !length_map, length_seq, Nat.sub_diag.
    cbn [firstn skipn app]. rewrite app_nil_r.
    rewrite (gathered "hydro" dh) by (intros i Hi; apply go_slice; exact Hi).
    cbn [bind].
    rewrite (gathered "wet" dw) by (intros i Hi; apply go_slice; exact Hi).
    cbn [bind]. unfold stack2. rewrite !length_map, Nat.eqb_refl.
    reflexivity.
  - unfold delay_from_grid. cbn [flatten_los bind ret].
    unfold hydrostatic_delay, wet_delay, weather, pointwise_weather.
    cbn [wm_hydrostatic_delay wm_wet_delay].
    assert (Hne : llas <> []) by (destruct llas; [simpl in units; lia | discriminate]).
    rewrite !common_delay_zenith_pointwise by assumption.
    cbn [bind]. unfold stack2. rewrite !length_map, Nat.eqb_refl.
    reflexivity.
Qed.

End EvenUnits.

(** X2. Serial and parallel calls agree on an even unit count. On [2*h]
    processing units with [1 <= h <= N], a model that answers position by
    position, a non-negative norm and the Zenith look vector in
    ray-tracing mode, the parallel call returns, under every schedule,
    exactly the hydrostatic and wet delays the serial call returns. *)
Theorem delay_from_grid_parallel_equals_serial_on_even_units :
  forall (util : Util) (dh dw : vec -> Q) (llas : list lla) (h : nat)
         (schedule : list nat),
    (forall v, 0 <= norm util v) ->
    (1 <= h <= length llas)%nat ->
    delay_from_grid util (2 * h) schedule (pointwise_weather dh dw) llas
      Zenith true true
    = delay_from_grid util (2 * h) schedule (pointwise_weather dh dw) llas
        Zenith false true /\
    succeeds (delay_from_grid util (2 * h) schedule
                (pointwise_weather dh dw) llas Zenith false true).
Proof.
  intros util dh dw llas h schedule Hnorm Hunits.
  destruct (parallel_is_serial util dh dw llas h Hnorm Hunits (2 * h)
              schedule schedule) as [Hp Hs].
  rewrite Hp, Hs. split; [reflexivity|]. eexists. reflexivity.
Qed.

(** The hypotheses of
    [delay_from_grid_parallel_equals_serial_on_even_units] hold for two
    points on the polar axis and two processing units. *)
Lemma delay_from_grid_parallel_equals_serial_on_even_units_witness :
  delay_from_grid PolarAxis.util 2 [1; 0; 0; 1]%nat
    (pointwise_weather (fun _ => 1) (fun _ => 2))
    [PolarAxis.pole 14955; PolarAxis.pole 14980] Zenith true true
  = delay_from_grid PolarAxis.util 2 [1; 0; 0; 1]%nat
      (pointwise_weather (fun _ => 1) (fun _ => 2))
      [PolarAxis.pole 14955; PolarAxis.pole 14980] Zenith false true.
Proof.
  destruct (delay_from_grid_parallel_equals_serial_on_even_units
              PolarAxis.util (fun _ => 1) (fun _ => 2)
              [PolarAxis.pole 14955; PolarAxis.pole 14980] 1
              [1; 0; 0; 1]%nat polar_norm_nonneg) as [H _].
  - simpl. lia.
  - exact H.
Defined.

(** ** Batches without points *)

(** Whatever the look vectors and the mode, [_common_delay] raises on a
    batch without points. *)
Lemma common_delay_empty (util : Util) (delay : list vec -> result (list Q))
    (look : LookVecs) (raytrace : bool) :
  exists e, _common_delay util delay [] look raytrace = inl e.
Proof.
  unfold _common_delay.
  destruct raytrace, look as [|[|v vs]|ss];
    cbn [resolve_look_vecs bind ret raise fst snd map sample_rays
         np.concatenate]; eauto.
  destruct (ray_thisspace util v); cbn [bind raise]; eauto.
Qed.

(** The worker raises on a slice without points. *)
Lemma go_empty_slice (util : Util) (weather : Weather) (llas : list lla)
    (los : LookVecs) (raytrace : bool) (name : string) (a : nat) :
  exists e, go util weather llas los raytrace (name, a, a) = inl e.
Proof.
  unfold go, hydrostatic_delay, wet_delay, slice.
  rewrite Nat.sub_diag. cbn [firstn].
  destruct (String.eqb name "hydro"); [apply common_delay_empty|].
  destruct (String.eqb name "wet"); [apply common_delay_empty|].
  eexists. reflexivity.
Qed.

(** With fewer points than slices the first job is the empty slice
    [0:0]. *)
Lemma few_points_raise (util : Util) (h : nat) (schedule : list nat)
    (weather : Weather) (llas : list lla) (los los' : LookVecs)
    (raytrace : bool) :
  flatten_los los raytrace = inr los' ->
  (length llas < h)%nat ->
  delay_from_grid util (2 * h) schedule weather llas los true raytrace
  = inl (ValueError "zero-dimensional arrays cannot be concatenated").
Proof.
  intros Hlos Hn.
  assert (Hh : (1 <= h)%nat) by lia.
  unfold delay_from_grid. rewrite Hlos. cbn [bind]. cbv zeta.
  rewrite grid_jobs_even by exact Hh. cbn [bind].
  set (jobs := map (slice_job "hydro" (length llas) h) (seq 0 h)
               ++ map (slice_job "wet" (length llas) h) (seq 0 h)).
  destruct (parmap_answers (go util weather llas los' raytrace) jobs
              schedule (2 * h)) as (Hlen & _ & Hnone).
  assert (Hjob : nth_error jobs 0 = Some ("hydro"%string, 0%nat, 0%nat)).
  { unfold jobs. destruct h as [|k]; [lia|].
    cbn [seq map app nth_error]. unfold slice_job.
    rewrite Nat.mul_0_l, Nat.Div0.div_0_l, Nat.add_0_l, Nat.mul_1_l.
    rewrite Nat.div_small by exact Hn. reflexivity. }
  destruct (go_empty_slice util weather llas los' raytrace "hydro" 0)
    as (e & He).
  specialize (Hnone 0%nat _ e Hjob He).
  apply gather_first_none; [exact Hnone|].
  replace (2 * h / 2)%nat with h
    by (rewrite Nat.mul_comm, Nat.div_mul; lia).
  exact Hh.
Qed.

(** X3. A parallel call needs at least as many points as slices. On
    [2*h] processing units each component is cut into [h] slices; when
    there are fewer than [h] points the first slice is empty, its worker
    raises, and under every schedule the call raises [ValueError] (a
    zero-dimensional array cannot be concatenated), whatever the model,
    the look vectors and the mode. *)
Theorem delay_from_grid_parallel_raises_with_fewer_points_than_slices :
  forall (util : Util) (h : nat) (schedule : list nat) (weather : Weather)
         (llas : list lla) (los los' : LookVecs) (raytrace : bool),
    flatten_los los raytrace = inr los' ->
    (length llas < h)%nat ->
    delay_from_grid util (2 * h) schedule weather llas los true raytrace
    = inl (ValueError "zero-dimensional arrays cannot be concatenated").
Proof.
  intros. eapply few_points_raise; eassumption.
Qed.

(** The hypotheses of
    [delay_from_grid_parallel_raises_with_fewer_points_than_slices] hold
    for one point on four processing units; the serial call on the same
    input returns. *)
Lemma delay_from_grid_parallel_raises_with_fewer_points_than_slices_witness :
  delay_from_grid PolarAxis.util 4 [3; 0; 2; 1; 1]%nat (constant_weather 1)
    [PolarAxis.pole 14955] Zenith true true
  = inl (ValueError "zero-dimensional arrays cannot be concatenated") /\
  succeeds (delay_from_grid PolarAxis.util 4 [3; 0; 2; 1; 1]%nat
              (constant_weather 1) [PolarAxis.pole 14955] Zenith false true).
Proof.
  split.
  - apply (delay_from_grid_parallel_raises_with_fewer_points_than_slices
             PolarAxis.util 2 [3; 0; 2; 1; 1]%nat (constant_weather 1)
             [PolarAxis.pole 14955] Zenith Zenith true eq_refl).
    simpl. lia.
  - eexists. vm_compute. reflexivity.
Defined.

(** Without jobs there are no answers. *)
Lemma parmap_no_jobs {X Y : Type} (f : X -> result Y) (schedule : list nat)
    (cpu_count : nat) :
  _parmap f schedule [] cpu_count = [].
Proof.
  destruct (parmap_answers f [] schedule cpu_count) as (Hlen & _).
  cbv zeta in Hlen. destruct (_parmap f schedule [] cpu_count);
    [reflexivity | discriminate].
Qed.

(** No list of points, no result: in every mode. *)
Lemma no_points_raise (util : Util) (cpu_count : nat) (schedule : list nat)
    (weather : Weather) (los : LookVecs) (parallel raytrace : bool) :
  exists e,
    delay_from_grid util cpu_count schedule weather [] los parallel raytrace
    = inl e.
Proof.
  destruct (flatten_los los raytrace) as [e|los'] eqn:Hlos.
  { exists e. unfold delay_from_grid. rewrite Hlos. reflexivity. }
  destruct parallel.
  - destruct (Nat.Even_or_Odd cpu_count) as [[h ->]|[h ->]].
    + destruct h as [|k].
      * eexists. unfold delay_from_grid. rewrite Hlos. cbn [bind]. cbv zeta.
        change (grid_jobs (length (@nil lla)) (2 * 0)) with (@inr PyError _ (@nil Job)).
        cbn [bind]. rewrite parmap_no_jobs. reflexivity.
      * eexists. eapply few_points_raise; [exact Hlos | simpl; lia].
    + exists IndexError. unfold delay_from_grid. rewrite Hlos. cbn [bind].
      cbv zeta. rewrite grid_jobs_odd. reflexivity.
  - unfold delay_from_grid. rewrite Hlos. cbn [bind].
    unfold hydrostatic_delay.
    destruct (common_delay_empty util (wm_hydrostatic_delay weather) los'
                raytrace) as (e & He).
    exists e. rewrite He. reflexivity.
Qed.

(** X4. An empty list of points is never answered with empty arrays:
    for every number of processing units, schedule, model, look-vector
    argument and mode, serial or parallel, [delay_from_grid] raises. *)
Theorem delay_from_grid_raises_without_points :
  forall (util : Util) (cpu_count : nat) (schedule : list nat)
         (weather : Weather) (los : LookVecs) (parallel raytrace : bool),
    exists e,
      delay_from_grid util cpu_count schedule weather [] los parallel raytrace
      = inl e.
Proof. intros. apply no_points_raise. Qed.

(** ** One delay per point *)

Lemma apply_correction_length (delays ds : list Q) (c : Correction) :
  apply_correction delays c = inr ds -> length ds = length delays.
Proof.
  destruct c as [|c|c]; cbn [apply_correction].
  - intro H. injection H as <-. reflexivity.
  - destruct (length c =? length delays)%nat eqn:E.
    + intro H. injection H as <-. apply Nat.eqb_eq in E.
      rewrite length_map, length_combine. lia.
    + destruct c as [|c0 [|c1 c]]; try discriminate.
      intro H. injection H as <-. apply length_map.
  - discriminate.
Qed.

Lemma resolve_look_vecs_count (util : Util) (points : list lla)
    (look : LookVecs) (raytrace : bool) (c : Correction) (looks : list vec) :
  resolve_look_vecs util points look raytrace = inr (c, looks) ->
  match c with
  | NoCorrection => True
  | _ => length looks = length points
  end.
Proof.
  unfold resolve_look_vecs.
  destruct raytrace, look; try discriminate; intro H; injection H as <- <-;
    try exact I; apply length_map.
Qed.

(** A call that returns, returns one delay per point, whatever the look
    vectors and the mode. *)
Lemma common_delay_length (util : Util)
    (delay : list vec -> result (list Q)) (points : list lla)
    (look : LookVecs) (raytrace : bool) (ds : list Q) :
  _common_delay util delay points look raytrace = inr ds ->
  length ds = length points.
Proof.
  unfold _common_delay. intro H.
  apply bind_inr in H. destruct H as ([c looks] & _ & H).
  cbn [fst snd] in H.
  apply bind_inr in H. destruct H as (rays & Hrays & H).
  apply bind_inr in H. destruct H as (pa & _ & H).
  apply bind_inr in H. destruct H as (wet & _ & H).
  apply bind_inr in H. destruct H as (idx & _ & H).
  apply bind_inr in H. destruct H as (integrals & Hint & H).
  apply apply_correction_length in H. rewrite H.
  apply sample_rays_length in Hrays. destruct Hrays as [Hr Hle].
  apply integrate_rays_length in Hint.
  rewrite !length_map in *.
  rewrite length_app, length_skipn. unfold np.zeros.
  rewrite repeat_length. lia.
Qed.

Lemma all_answers_inv (rs : list (option (list Q))) (arrays : list (list Q)) :
  all_answers rs = Some arrays -> rs = map Some arrays.
Proof.
  revert arrays. induction rs as [|[a|] tl IH]; intros arrays H.
  - injection H as <-. reflexivity.
  - cbn [all_answers] in H. destruct (all_answers tl) as [r|]; [|discriminate].
    injection H as <-. cbn [map]. f_equal. apply IH. reflexivity.
  - discriminate.
Qed.

Lemma concatenate_answers_inv (rs : list (option (list Q))) (out : list Q) :
  concatenate_answers rs = inr out ->
  exists arrays, rs = map Some arrays /\ out = concat arrays.
Proof.
  unfold concatenate_answers. destruct rs as [|r tl]; [discriminate|].
  destruct (all_answers (r :: tl)) as [arrays|] eqn:E;
    [|destruct (first_none 0 (r :: tl)) as [[|j]|]; discriminate].
  intro H. injection H as <-. exists arrays.
  split; [apply all_answers_inv; exact E | reflexivity].
Qed.

(** The length of gathered answers, from the length of each. *)
Lemma concat_length_by_index (arrays : list (list Q)) (g : nat -> nat) :
  (forall i y, nth_error arrays i = Some y -> length y = g i) ->
  length (concat arrays) = list_sum (map g (seq 0 (length arrays))).
Proof.
  revert g. induction arrays as [|a tl IH]; intros g H; [reflexivity|].
  cbn [concat length seq map list_sum]. rewrite length_app.
  rewrite (H 0%nat a eq_refl).
  rewrite <- seq_shift, map_map. unfold list_sum. cbn [fold_right]. f_equal.
  apply (IH (fun i => g (S i))).
  intros i y Hy. apply (H (S i) y Hy).
Qed.

Lemma slices_total_length {A} (l : list A) (h : nat) :
  (1 <= h)%nat ->
  list_sum (map (fun i => length (slice l (i * length l / h)
                                        ((i + 1) * length l / h)))
              (seq 0 h)) = length l.
Proof.
  intro Hh.
  transitivity
    (length (concat (map (fun i => slice l (i * length l / h)
                                     ((i + 1) * length l / h)) (seq 0 h)))).
  - generalize (seq 0 h). intro s.
    induction s as [|i s IH]; [reflexivity|].
    cbn [map concat]. rewrite length_app, <- IH. reflexivity.
  - rewrite slices_tile by exact Hh. reflexivity.
Qed.

Lemma go_length (util : Util) (weather : Weather) (llas : list lla)
    (los : LookVecs) (raytrace : bool) (name : string) (a b : nat)
    (y : list Q) :
  go util weather llas los raytrace (name, a, b) = inr y ->
  length y = length (slice llas a b).
Proof.
  unfold go, hydrostatic_delay, wet_delay.
  destruct (String.eqb name "hydro"); [apply common_delay_length|].
  destruct (String.eqb name "wet"); [apply common_delay_length|].
  discriminate.
Qed.

(** Whenever [delay_from_grid] returns, each component has one delay per
    point. *)
Lemma one_delay_per_point (util : Util) (cpu_count : nat)
    (schedule : list nat) (weather : Weather) (llas : list lla)
    (los : LookVecs) (parallel raytrace : bool) (hydro wet : list Q) :
  delay_from_grid util cpu_count schedule weather llas los parallel raytrace
  = inr (hydro, wet) ->
  length hydro = length llas /\ length wet = length llas.
Proof.
  unfold delay_from_grid. intro H.
  apply bind_inr in H. destruct H as (los' & Hlos & H).
  destruct parallel.
  - cbv zeta in H.
    apply bind_inr in H. destruct H as (jobs & Hjobs & H).
    apply bind_inr in H. destruct H as (hy & Hhy & H).
    apply bind_inr in H. destruct H as (we & Hwe & H).
    unfold stack2 in H.
    destruct (length hy =? length we)%nat; [|discriminate].
    injection H as <- <-.
    destruct (Nat.Even_or_Odd cpu_count) as [[h ->]|[h ->]];
      [|rewrite grid_jobs_odd in Hjobs; discriminate].
    replace (2 * h / 2)%nat with h in *
      by (rewrite Nat.mul_comm, Nat.div_mul; lia).
    destruct (parmap_answers (go util weather llas los' raytrace) jobs
                schedule (2 * h)) as (Hlen & Hans & _).
    set (result_ := _parmap (go util weather llas los' raytrace) schedule
                      jobs (2 * h)) in *.
    assert (Hh : (1 <= h)%nat).
    { destruct h as [|k]; [|lia]. cbn [firstn] in Hhy. discriminate. }
    rewrite grid_jobs_even in Hjobs by exact Hh. injection Hjobs as <-.
    rewrite length_app, !length_map, !length_seq in Hlen.
    apply concatenate_answers_inv in Hhy, Hwe.
    destruct Hhy as (ha & Hha & ->). destruct Hwe as (wa & Hwa & ->).
    assert (Lha : length ha = h).
    { apply (f_equal (@length _)) in Hha.
      rewrite length_firstn, length_map in Hha. lia. }
    assert (Lwa : length wa = h).
    { apply (f_equal (@length _)) in Hwa.
      rewrite length_skipn, length_map in Hwa. lia. }
    split.
    + rewrite (concat_length_by_index ha
                 (fun i => length (slice llas (i * length llas / h)
                                     ((i + 1) * length llas / h)))).
      * rewrite Lha. apply slices_total_length. exact Hh.
      * intros i y Hy.
        assert (Hi : (i < h)%nat) by (rewrite <- Lha; apply nth_error_Some; congruence).
        assert (Hr : nth_error result_ i = Some (Some y)).
        { rewrite <- (firstn_skipn h result_), Hha.
          rewrite nth_error_app1 by (rewrite length_map; lia).
          rewrite nth_error_map, Hy. reflexivity. }
        destruct (Hans i y Hr) as (job & Hjob & Hgo).
        rewrite nth_error_app1 in Hjob by (rewrite length_map, length_seq; lia).
        rewrite nth_error_map in Hjob.
        rewrite (nth_error_nth' _ 0%nat) in Hjob by (rewrite length_seq; lia).
        rewrite seq_nth in Hjob by lia. cbn [option_map] in Hjob.
        injection Hjob as <-. unfold slice_job in Hgo.
        apply go_length in Hgo. exact Hgo.
    + rewrite (concat_length_by_index wa
                 (fun i => length (slice llas (i * length llas / h)
                                     ((i + 1) * length llas / h)))).
      * rewrite Lwa. apply slices_total_length. exact Hh.
      * intros i y Hy.
        assert (Hi : (i < h)%nat) by (rewrite <- Lwa; apply nth_error_Some; congruence).
        assert (Hr : nth_error result_ (h + i) = Some (Some y)).
        { rewrite <- (firstn_skipn h result_), Hwa.
          rewrite nth_error_app2 by (rewrite length_firstn; lia).
          rewrite length_firstn.
          replace (h + i - Nat.min h (length result_))%nat with i by lia.
          rewrite nth_error_map, Hy. reflexivity. }
        destruct (Hans _ y Hr) as (job & Hjob & Hgo).
        rewrite nth_error_app2 in Hjob by (rewrite length_map, length_seq; lia).
        rewrite length_map, length_seq in Hjob.
        replace (h + i - h)%nat with i in Hjob by lia.
        rewrite nth_error_map in Hjob.
        rewrite (nth_error_nth' _ 0%nat) in Hjob by (rewrite length_seq; lia).
        rewrite seq_nth in Hjob by lia. cbn [option_map] in Hjob.
        injection Hjob as <-. unfold slice_job in Hgo.
        apply go_length in Hgo. exact Hgo.
  - apply bind_inr in H. destruct H as (hy & Hhy & H).
    apply bind_inr in H. destruct H as (we & Hwe & H).
    unfold stack2 in H.
    destruct (length hy =? length we)%nat; [|discriminate].
    injection H as <- <-.
    unfold hydrostatic_delay, wet_delay in *.
    split; eapply common_delay_length; eassumption.
Qed.

(** X5. One delay per point. Whenever [delay_from_grid] returns, serial
    or parallel, under every schedule and for every model, look-vector
    argument and mode, the hydrostatic and the wet array each hold
    exactly one delay per input point. *)
Theorem delay_from_grid_returns_one_delay_per_point :
  forall (util : Util) (cpu_count : nat) (schedule : list nat)
         (weather : Weather) (llas : list lla) (los : LookVecs)
         (parallel raytrace : bool) (hydro wet : list Q),
    delay_from_grid util cpu_count schedule weather llas los parallel raytrace
    = inr (hydro, wet) ->
    length hydro = length llas /\ length wet = length llas.
Proof. intros. eapply one_delay_per_point. eassumption. Qed.

(** The hypothesis of [delay_from_grid_returns_one_delay_per_point] holds
    for a parallel call on two points and two processing units. *)
Lemma delay_from_grid_returns_one_delay_per_point_witness :
  exists hydro wet,
    delay_from_grid PolarAxis.util 2 [1; 0]%nat (constant_weather 1)
      [PolarAxis.pole 14955; PolarAxis.pole 14980] Zenith true true
    = inr (hydro, wet) /\
    length hydro = 2%nat /\ length wet = 2%nat.
Proof.
  assert (Hrun : exists hydro wet,
             delay_from_grid PolarAxis.util 2 [1; 0]%nat (constant_weather 1)
               [PolarAxis.pole 14955; PolarAxis.pole 14980] Zenith true true
             = inr (hydro, wet))
    by (eexists _, _; vm_compute; reflexivity).
  destruct Hrun as (hydro & wet & Hrun). exists hydro, wet.
  split; [exact Hrun|].
  exact (delay_from_grid_returns_one_delay_per_point PolarAxis.util 2
           [1; 0]%nat (constant_weather 1)
           [PolarAxis.pole 14955; PolarAxis.pole 14980] Zenith true true
           hydro wet Hrun).
Defined.

(** ** Explicit look vectors *)

Lemma sample_rays_any (util : Util) (looks starts : list vec) :
  (forall v, In v looks -> 0 <= norm util v) ->
  (length looks <= length starts)%nat ->
  exists rays,
    sample_rays util looks starts = inr rays /\
    Forall (fun r => length (t_points r) = first_high r /\
                     length (positions r) = first_high r) rays.
Proof.
  revert starts. induction looks as [|lv lvs IH]; intros starts Hn Hl.
  - exists []. split; [reflexivity | constructor].
  - destruct starts as [|sp sps]; [simpl in Hl; lia|].
    destruct (ray_thisspace_ok util lv) as (ts & Hts);
      [apply Hn; now left|].
    destruct (IH sps) as (rays & Hrays & HF);
      [intros v Hv; apply Hn; now right | simpl in Hl; lia|].
    eexists. cbn [sample_rays]. rewrite Hts. cbn [bind]. rewrite Hrays.
    cbn [bind]. split; [reflexivity|].
    constructor; [|exact HF]. apply truncate_ray_lengths.
Qed.

Lemma sample_rays_too_many (util : Util) (looks starts : list vec) :
  (forall v, In v looks -> 0 <= norm util v) ->
  (length starts < length looks)%nat ->
  sample_rays util looks starts = inl IndexError.
Proof.
  revert starts. induction looks as [|lv lvs IH]; intros starts Hn Hl.
  - simpl in Hl. lia.
  - destruct (ray_thisspace_ok util lv) as (ts & Hts);
      [apply Hn; now left|].
    cbn [sample_rays]. rewrite Hts. cbn [bind].
    destruct starts as [|sp sps]; [reflexivity|].
    rewrite IH; [reflexivity | intros v Hv; apply Hn; now right
                | simpl in Hl; lia].
Qed.

Lemma rays_steps_any (rays : list RaySamples) :
  Forall (fun r => length (t_points r) = first_high r /\
                   length (positions r) = first_high r) rays ->
  map (@length Q) (map t_points rays) = map first_high rays /\
  length (concat (map positions rays)) = list_sum (map first_high rays).
Proof.
  induction 1 as [|r rs [H1 H2] _ [IH1 IH2]].
  - split; reflexivity.
  - cbn [map concat]. rewrite length_app, IH1, IH2, H1, H2.
    split; reflexivity.
Qed.

Lemma skipn_repeat {A} (a : A) (k n : nat) :
  skipn k (repeat a n) = repeat a (n - k).
Proof.
  revert n. induction k as [|k IH]; intros [|n]; simpl; auto.
Qed.

(** With explicit look vectors the loops run over the look vectors, not
    over the points: the points beyond the last look vector keep the
    zero they were initialised with. *)
Lemma common_delay_vectors (util : Util)
    (delay : list vec -> result (list Q)) (points : list lla)
    (vs : list vec) :
  vs <> [] ->
  (forall v, In v vs -> 0 <= norm util v) ->
  (length vs <= length points)%nat ->
  (forall ps, exists ws, delay ps = inr ws /\ length ws = length ps) ->
  exists integrals,
    _common_delay util delay points (Vectors vs) true
    = inr (integrals ++ repeat 0 (length points - length vs)) /\
    length integrals = length vs.
Proof.
  intros Hne Hnorm Hle Hdelay.
  destruct (sample_rays_any util vs
              (map (fun p => lla2ecef util (lat p) (lon p) (ht p)) points))
    as (rays & Hrays & HF); [exact Hnorm | rewrite length_map; exact Hle|].
  destruct (rays_steps_any rays HF) as [Htps Hsum].
  destruct (sample_rays_length _ _ _ _ Hrays) as [Hlr _].
  destruct (Hdelay (concat (map positions rays))) as (wet & Hwet & Hlen).
  rewrite Hsum in Hlen.
  assert (Hrne : rays <> []).
  { intro E. subst rays. destruct vs; [contradiction | discriminate]. }
  exists (ray_integrals (chunks_of (map first_high rays) wet)
            (map t_points rays)).
  assert (Hli : length (ray_integrals (chunks_of (map first_high rays) wet)
                          (map t_points rays)) = length vs).
  { rewrite ray_integrals_length
      by (rewrite chunks_of_length, !length_map; reflexivity).
    rewrite length_map. exact Hlr. }
  split; [|exact Hli].
  unfold _common_delay. cbn [resolve_look_vecs bind ret fst snd].
  rewrite Hrays. cbn [bind].
  destruct rays as [|r rs]; [contradiction|].
  cbn [map np.concatenate]. cbn [bind ret].
  change (positions r :: map positions rs) with (map positions (r :: rs)).
  rewrite Hwet. cbn [bind].
  rewrite indices_are_offsets. cbn [bind].
  change (first_high r :: map first_high rs) with (map first_high (r :: rs)).
  change (t_points r :: map t_points rs) with (map t_points (r :: rs)).
  pose proof (integrate_rays_chunks _ _ [] wet Htps Hlen) as Hint.
  change (length (@nil Q)) with 0%nat in Hint.
  change ([] ++ wet) with wet in Hint.
  rewrite Hint. cbn [bind apply_correction ret].
  rewrite Hli. unfold np.zeros. rewrite skipn_repeat. reflexivity.
Qed.

Lemma common_delay_too_many_vectors (util : Util)
    (delay : list vec -> result (list Q)) (points : list lla)
    (vs : list vec) :
  (forall v, In v vs -> 0 <= norm util v) ->
  (length points < length vs)%nat ->
  _common_delay util delay points (Vectors vs) true = inl IndexError.
Proof.
  intros Hnorm Hlt. unfold _common_delay.
  cbn [resolve_look_vecs bind ret fst snd].
  rewrite sample_rays_too_many; [reflexivity | exact Hnorm|].
  rewrite length_map. exact Hlt.
Qed.

(** ** The rays of a batch and what is integrated *)

(** The first loop, ray by ray: each ray is the kept prefix of its own
    samples. *)
Lemma sample_rays_kept (util : Util) (looks starts : list vec) :
  (forall v, In v looks -> 0 <= norm util v) ->
  (length looks <= length starts)%nat ->
  exists rays,
    sample_rays util looks starts = inr rays /\
    Forall2 (fun ls r =>
               exists ts,
                 ray_thisspace util (fst ls) = inr ts /\
                 kept_prefix util (snd ls) (scaled_look_vec util (fst ls))
                   ts r)
            (combine looks starts) rays.
Proof.
  revert starts. induction looks as [|lv lvs IH]; intros starts Hn Hl.
  - exists []. split; [reflexivity | constructor].
  - destruct starts as [|sp sps]; [simpl in Hl; lia|].
    destruct (ray_thisspace_ok util lv) as (ts & Hts);
      [apply Hn; now left|].
    destruct (IH sps) as (rays & Hrays & HF);
      [intros v Hv; apply Hn; now right | simpl in Hl; lia|].
    eexists. cbn [sample_rays]. rewrite Hts. cbn [bind]. rewrite Hrays.
    cbn [bind]. split; [reflexivity|].
    cbn [combine]. constructor; [|exact HF].
    exists ts. split; [exact Hts | apply truncate_ray_kept_prefix].
Qed.

Lemma kept_rays_below (util : Util) (ls : list (vec * vec))
    (rays : list RaySamples) :
  Forall2 (fun ls r =>
             exists ts,
               ray_thisspace util (fst ls) = inr ts /\
               kept_prefix util (snd ls) (scaled_look_vec util (fst ls))
                 ts r) ls rays ->
  Forall (fun p => ht (ecef2lla util p) <= _ZREF util)
    (concat (map positions rays)) /\
  Forall (fun r => length (t_points r) = first_high r /\
                   length (positions r) = first_high r) rays.
Proof.
  induction 1 as [|l r ls rays (ts & _ & Hk) _ [IH1 IH2]].
  - split; constructor.
  - destruct Hk as (ct & cp & _ & _ & H1 & H2 & _ & Hb & _).
    cbn [map concat]. split.
    + apply Forall_app. split; [exact Hb | exact IH1].
    + constructor; [split; assumption | exact IH2].
Qed.

(** C6. For every ray of a batch, the samples kept for integration are
    exactly the prefix of the generated sample sequence that ends just
    before the first sample whose geodetic height exceeds the reference
    height: all samples when none is higher, none when the first one is,
    and so every kept sample has height at most the reference height.
    The computation goes on with the kept samples only: the model is
    queried on the kept positions of all rays put together, and each
    ray's delay is the scaled trapezoidal integral of its own part of
    the answer over its own kept path parameters. *)
Theorem integration_uses_prefix_below_zref :
  forall (util : Util) (delay : list vec -> result (list Q))
         (points : list lla) (look_vecs : LookVecs) (raytrace : bool)
         (correction : Correction) (looks : list vec),
    let starts :=
      map (fun p => lla2ecef util (lat p) (lon p) (ht p)) points in
    resolve_look_vecs util points look_vecs raytrace
    = inr (correction, looks) ->
    (length looks <= length points)%nat ->
    (forall v, In v looks -> 0 <= norm util v) ->
    exists rays,
      sample_rays util looks starts = inr rays /\
      Forall2 (fun ls r =>
                 exists ts,
                   ray_thisspace util (fst ls) = inr ts /\
                   kept_prefix util (snd ls) (scaled_look_vec util (fst ls))
                     ts r)
              (combine looks starts) rays /\
      Forall (fun p => ht (ecef2lla util p) <= _ZREF util)
        (concat (map positions rays)) /\
      _common_delay util delay points look_vecs raytrace
      = (positions_a <- np.concatenate (map positions rays) ;;
         wet_delays <- delay positions_a ;;
         indices <- np.set0 (np.roll1 (np.cumsum (map first_high rays)))
                      0%nat ;;
         integrals <- integrate_rays indices (map first_high rays)
                        (map t_points rays) wet_delays ;;
         apply_correction
           (integrals
            ++ skipn (length integrals) (np.zeros (length points)))
           correction) /\
      (forall wet,
         rays <> [] ->
         delay (concat (map positions rays)) = inr wet ->
         length wet = length (concat (map positions rays)) ->
         _common_delay util delay points look_vecs raytrace
         = apply_correction
             (ray_integrals (chunks_of (map first_high rays) wet)
                (map t_points rays)
              ++ repeat 0 (length points - length rays))
             correction).
Proof.
  intros util delay points look_vecs raytrace correction looks starts
         Hres Hlen Hnorm.
  destruct (sample_rays_kept util looks starts Hnorm) as (rays & Hrays & HF).
  { unfold starts. rewrite length_map. exact Hlen. }
  destruct (kept_rays_below util _ _ HF) as [Hbelow Hlens].
  exists rays. split; [exact Hrays|]. split; [exact HF|].
  split; [exact Hbelow|].
  assert (Heq : _common_delay util delay points look_vecs raytrace
                = (positions_a <- np.concatenate (map positions rays) ;;
                   wet_delays <- delay positions_a ;;
                   indices <- np.set0
                                (np.roll1 (np.cumsum (map first_high rays)))
                                0%nat ;;
                   integrals <- integrate_rays indices (map first_high rays)
                                  (map t_points rays) wet_delays ;;
                   apply_correction
                     (integrals
                      ++ skipn (length integrals)
                           (np.zeros (length points)))
                     correction)).
  { unfold _common_delay. rewrite Hres. cbn [bind fst snd].
    fold starts. rewrite Hrays. reflexivity. }
  split; [exact Heq|].
  intros wet Hne Hwet Hwl. rewrite Heq.
  destruct (rays_steps_any rays Hlens) as [Htps Hsum].
  rewrite Hsum in Hwl.
  destruct (sample_rays_length _ _ _ _ Hrays) as [Hlr _].
  destruct rays as [|r rs]; [contradiction|].
  cbn [map np.concatenate]. cbn [bind ret].
  change (positions r :: map positions rs) with (map positions (r :: rs)).
  rewrite Hwet. cbn [bind].
  rewrite indices_are_offsets. cbn [bind].
  change (first_high r :: map first_high rs) with (map first_high (r :: rs)).
  change (t_points r :: map t_points rs) with (map t_points (r :: rs)).
  pose proof (integrate_rays_chunks _ _ [] wet Htps Hwl) as Hint.
  change (length (@nil Q)) with 0%nat in Hint.
  change ([] ++ wet) with wet in Hint.
  rewrite Hint. cbn [bind].
  rewrite ray_integrals_length
    by (rewrite chunks_of_length, !length_map; reflexivity).
  rewrite length_map. unfold np.zeros. rewrite skipn_repeat. reflexivity.
Qed.

(** The hypotheses of [integration_uses_prefix_below_zref] hold for a
    point 45 m below the reference height on the polar axis and a look
    vector of 90 m along the axis: of the six samples, 18 m apart, the
    first three are kept, and the delay on a model answering 1 is the
    integral over the 36 m they span. *)
Lemma integration_uses_prefix_below_zref_witness :
  exists rays,
    sample_rays PolarAxis.util [mkvec 0 0 90]
      [lla2ecef PolarAxis.util 90 0 14955] = inr rays /\
    map first_high rays = [3%nat] /\
    Forall (fun p => ht (ecef2lla PolarAxis.util p) <= _ZREF PolarAxis.util)
      (concat (map positions rays)) /\
    exists d,
      _common_delay PolarAxis.util (constant_query 1) [PolarAxis.pole 14955]
        (Vectors [mkvec 0 0 90]) true = inr [d] /\
      d == 36 # 1000000.
Proof.
  destruct (integration_uses_prefix_below_zref PolarAxis.util
              (constant_query 1) [PolarAxis.pole 14955]
              (Vectors [mkvec 0 0 90]) true NoCorrection [mkvec 0 0 90]
              eq_refl) as (rays & Hrays & _ & Hbelow & _ & Hint).
  - simpl. lia.
  - intros v _. apply polar_norm_nonneg.
  - exists rays. split; [exact Hrays|].
    assert (Hrun : exists r,
               sample_rays PolarAxis.util [mkvec 0 0 90]
                 [lla2ecef PolarAxis.util 90 0 14955] = inr [r] /\
               first_high r = 3%nat)
      by (eexists; split; vm_compute; reflexivity).
    destruct Hrun as (r & Hrun & Hfh).
    cbn [map] in Hrays.
    change (lla2ecef PolarAxis.util (lat (PolarAxis.pole 14955))
              (lon (PolarAxis.pole 14955)) (ht (PolarAxis.pole 14955)))
      with (lla2ecef PolarAxis.util 90 0 14955) in Hrays.
    rewrite Hrun in Hrays. injection Hrays as <-.
    split; [cbn [map]; rewrite Hfh; reflexivity|].
    split; [exact Hbelow|].
    eexists. split; [vm_compute; reflexivity | reflexivity].
Defined.

Lemma nth_error_app_repeat {A} (l : list A) (a : A) (k i : nat) :
  (length l <= i < length l + k)%nat ->
  nth_error (l ++ repeat a k) i = Some a.
Proof.
  intro H. rewrite nth_error_app2 by lia.
  rewrite nth_error_repeat by lia. reflexivity.
Qed.

(** X6. The number of look vectors is not checked against the number of
    points. In ray-tracing mode with explicit look vectors of
    non-negative norm and a model answering one value per position, the
    serial call loops over the look vectors: with fewer look vectors than
    points (and at least one) it returns, and every point beyond the last
    look vector silently gets the delay 0 in both components; with more
    look vectors than points it raises [IndexError]. *)
Theorem look_vector_count_is_not_checked_against_points :
  forall (util : Util) (cpu_count : nat) (schedule : list nat)
         (weather : Weather) (llas : list lla) (vs : list vec),
    (forall v, In v vs -> 0 <= norm util v) ->
    (forall ps, exists ws,
        wm_hydrostatic_delay weather ps = inr ws /\ length ws = length ps) ->
    (forall ps, exists ws,
        wm_wet_delay weather ps = inr ws /\ length ws = length ps) ->
    ((1 <= length vs <= length llas)%nat ->
     exists hydro wet,
       delay_from_grid util cpu_count schedule weather llas (Vectors vs)
         false true = inr (hydro, wet) /\
       length hydro = length llas /\ length wet = length llas /\
       forall i, (length vs <= i < length llas)%nat ->
         nth_error hydro i = Some 0 /\ nth_error wet i = Some 0) /\
    ((length llas < length vs)%nat ->
     delay_from_grid util cpu_count schedule weather llas (Vectors vs)
       false true = inl IndexError).
Proof.
  intros util cpu_count schedule weather llas vs Hnorm Hh Hw. split.
  - intros [H1 Hle].
    assert (Hne : vs <> []) by (destruct vs; [simpl in H1; lia | discriminate]).
    destruct (common_delay_vectors util _ llas vs Hne Hnorm Hle Hh)
      as (ih & Eh & Lh).
    destruct (common_delay_vectors util _ llas vs Hne Hnorm Hle Hw)
      as (iw & Ew & Lw).
    exists (ih ++ repeat 0 (length llas - length vs)),
           (iw ++ repeat 0 (length llas - length vs)).
    assert (LH : length (ih ++ repeat 0 (length llas - length vs))
                 = length llas)
      by (rewrite length_app, repeat_length; lia).
    assert (LW : length (iw ++ repeat 0 (length llas - length vs))
                 = length llas)
      by (rewrite length_app, repeat_length; lia).
    split; [|split; [exact LH | split; [exact LW|]]].
    + unfold delay_from_grid. cbn [flatten_los bind ret].
      unfold hydrostatic_delay, wet_delay. rewrite Eh, Ew. cbn [bind].
      unfold stack2. rewrite LH, LW, Nat.eqb_refl. reflexivity.
    + intros i Hi. split; apply nth_error_app_repeat; lia.
  - intro Hlt. unfold delay_from_grid. cbn [flatten_los bind ret].
    unfold hydrostatic_delay.
    rewrite common_delay_too_many_vectors by assumption. reflexivity.
Qed.

(** The hypotheses of [look_vector_count_is_not_checked_against_points]
    hold on the polar axis: two points with one look vector give a zero
    delay for the second point, one point with two look vectors raises. *)
Lemma look_vector_count_is_not_checked_against_points_witness :
  (exists hydro wet,
     delay_from_grid PolarAxis.util 2 [] (constant_weather 1)
       [PolarAxis.pole 14955; PolarAxis.pole 14955] (Vectors [mkvec 0 0 45])
       false true = inr (hydro, wet) /\
     nth_error hydro 1 = Some 0 /\ nth_error wet 1 = Some 0) /\
  delay_from_grid PolarAxis.util 2 [] (constant_weather 1)
    [PolarAxis.pole 14955] (Vectors [mkvec 0 0 45; mkvec 0 0 45])
    false true = inl IndexError.
Proof.
  split.
  - destruct (look_vector_count_is_not_checked_against_points PolarAxis.util
                2 [] (constant_weather 1)
                [PolarAxis.pole 14955; PolarAxis.pole 14955] [mkvec 0 0 45]
                (fun v _ => polar_norm_nonneg v)
                (constant_query_answers 1) (constant_query_answers 1))
      as [H _].
    destruct H as (hydro & wet & Hrun & _ & _ & Hz); [simpl; lia|].
    exists hydro, wet. split; [exact Hrun|].
    apply (Hz 1%nat). simpl. lia.
  - destruct (look_vector_count_is_not_checked_against_points PolarAxis.util
                2 [] (constant_weather 1) [PolarAxis.pole 14955]
                [mkvec 0 0 45; mkvec 0 0 45]
                (fun v _ => polar_norm_nonneg v)
                (constant_query_answers 1) (constant_query_answers 1))
      as [_ H].
    apply H. simpl. lia.
Defined.

(** ** The grid of [delay_over_area] *)

Lemma np_arange_nonzero (start stop step : Q) :
  ~ step == 0 ->
  np_arange start stop step
  = Some (map (fun i => start + inject_Z (Z.of_nat i) * step)
            (seq 0 (Z.to_nat (Qceiling ((stop - start) / step))))).
Proof.
  intro H. unfold np_arange.
  destruct (Qeq_bool step 0) eqn:E; [|reflexivity].
  apply Qeq_bool_eq in E. contradiction.
Qed.

Lemma flat_map_length_uniform {A B} (f : A -> list B) (l : list A) (m : nat) :
  (forall a, In a l -> length (f a) = m) ->
  length (flat_map f l) = (length l * m)%nat.
Proof.
  induction l as [|a tl IH]; intro H; [reflexivity|].
  cbn [flat_map length]. rewrite length_app.
  rewrite IH by (intros b Hb; apply H; now right).
  rewrite (H a) by (now left). simpl. reflexivity.
Qed.

Lemma nth_error_flat_map_uniform {A B} (f : A -> list B) (l : list A)
    (m i j : nat) (a : A) :
  (forall a, In a l -> length (f a) = m) ->
  nth_error l i = Some a -> (j < m)%nat ->
  nth_error (flat_map f l) (i * m + j) = nth_error (f a) j.
Proof.
  revert i. induction l as [|x tl IH]; intros i H Hi Hj.
  - destruct i; discriminate.
  - cbn [flat_map]. destruct i as [|i].
    + injection Hi as ->. simpl.
      rewrite nth_error_app1 by (rewrite H by (now left); exact Hj).
      reflexivity.
    + cbn [nth_error] in Hi.
      rewrite nth_error_app2 by (rewrite H by (now left); simpl; lia).
      rewrite H by (now left).
      replace (S i * m + j - m)%nat with (i * m + j)%nat by (simpl; lia).
      apply IH; [intros b Hb; apply H; now right | exact Hi | exact Hj].
Qed.

Lemma meshgrid_rows_length (lats lons hts : list Q) :
  length (meshgrid_rows lats lons hts)
  = (length hts * (length lats * length lons))%nat.
Proof.
  unfold meshgrid_rows. apply flat_map_length_uniform.
  intros h _. apply flat_map_length_uniform.
  intros la _. apply length_map.
Qed.

Lemma meshgrid_rows_nth (lats lons hts : list Q) (i j k : nat)
    (la lo h : Q) :
  nth_error lats i = Some la ->
  nth_error lons j = Some lo ->
  nth_error hts k = Some h ->
  nth_error (meshgrid_rows lats lons hts)
    ((k * length lats + i) * length lons + j)
  = Some (mklla la lo h).
Proof.
  intros Hi Hj Hk.
  assert (Li : (i < length lats)%nat) by (apply nth_error_Some; congruence).
  assert (Lj : (j < length lons)%nat) by (apply nth_error_Some; congruence).
  unfold meshgrid_rows.
  replace ((k * length lats + i) * length lons + j)%nat
    with (k * (length lats * length lons) + (i * length lons + j))%nat by lia.
  rewrite (nth_error_flat_map_uniform _ hts (length lats * length lons)
             k (i * length lons + j) h).
  - rewrite (nth_error_flat_map_uniform _ lats (length lons) i j la).
    + rewrite nth_error_map, Hj. reflexivity.
    + intros a _. apply length_map.
    + exact Hi.
    + exact Lj.
  - intros a _. apply flat_map_length_uniform. intros b _. apply length_map.
  - exact Hk.
  - nia.
Qed.

Lemma arange_nth (start step : Q) (n i : nat) :
  (i < n)%nat ->
  nth_error (map (fun i => start + inject_Z (Z.of_nat i) * step) (seq 0 n)) i
  = Some (start + inject_Z (Z.of_nat i) * step).
Proof.
  intro H. rewrite nth_error_map.
  rewrite (nth_error_nth' _ 0%nat) by (rewrite length_seq; exact H).
  rewrite seq_nth by exact H. reflexivity.
Qed.

(** [delay_over_area] with the counts and the samples of [np_arange]:
    the grid is the cartesian product of the three ranges, and the call
    returns each grid point's own Zenith delay. *)
Lemma delay_over_area_grid :
  forall (util : Util) (h : nat) (schedule : list nat) (dh dw : vec -> Q)
         (lat_min lat_max lat_res lon_min lon_max lon_res
          ht_min ht_max ht_res : Q),
    let nlat := Z.to_nat (Qceiling ((lat_max - lat_min) / lat_res)) in
    let nlon := Z.to_nat (Qceiling ((lon_max - lon_min) / lon_res)) in
    let nht := Z.to_nat (Qceiling ((ht_max - ht_min) / ht_res)) in
    (forall v, 0 <= norm util v) ->
    ~ lat_res == 0 -> ~ lon_res == 0 -> ~ ht_res == 0 ->
    (1 <= h <= nht * (nlat * nlon))%nat ->
    exists llas,
      delay_over_area util (2 * h) schedule (pointwise_weather dh dw)
        lat_min lat_max lat_res lon_min lon_max lon_res ht_min ht_max ht_res
        Zenith
      = inr (map (zenith_point_delay util dh) llas,
             map (zenith_point_delay util dw) llas) /\
      length llas = (nht * (nlat * nlon))%nat /\
      forall i j k,
        (i < nlat)%nat -> (j < nlon)%nat -> (k < nht)%nat ->
        nth_error llas ((k * nlat + i) * nlon + j)
        = Some (mklla (lat_min + inject_Z (Z.of_nat i) * lat_res)
                      (lon_min + inject_Z (Z.of_nat j) * lon_res)
                      (ht_min + inject_Z (Z.of_nat k) * ht_res)).
Proof.
  intros util h schedule dh dw lat_min lat_max lat_res lon_min lon_max
         lon_res ht_min ht_max ht_res nlat nlon nht Hnorm Hlat Hlon Hht Hh.
  set (lats := map (fun i => lat_min + inject_Z (Z.of_nat i) * lat_res)
                 (seq 0 nlat)).
  set (lons := map (fun i => lon_min + inject_Z (Z.of_nat i) * lon_res)
                 (seq 0 nlon)).
  set (hts := map (fun i => ht_min + inject_Z (Z.of_nat i) * ht_res)
                (seq 0 nht)).
  assert (Llat : length lats = nlat)
    by (unfold lats; rewrite length_map, length_seq; reflexivity).
  assert (Llon : length lons = nlon)
    by (unfold lons; rewrite length_map, length_seq; reflexivity).
  assert (Lht : length hts = nht)
    by (unfold hts; rewrite length_map, length_seq; reflexivity).
  assert (Lall : length (meshgrid_rows lats lons hts)
                 = (nht * (nlat * nlon))%nat)
    by (rewrite meshgrid_rows_length, Llat, Llon, Lht; reflexivity).
  exists (meshgrid_rows lats lons hts).
  split; [|split; [exact Lall|]].
  - unfold delay_over_area.
    rewrite !np_arange_nonzero by assumption.
    fold nlat nlon nht. fold lats lons hts. cbv zeta.
    assert (Hunits : (1 <= h <= length (meshgrid_rows lats lons hts))%nat)
      by (rewrite Lall; exact Hh).
    destruct (parallel_is_serial util dh dw (meshgrid_rows lats lons hts) h
                Hnorm Hunits 0%nat schedule []) as [Hp _].
    rewrite Hp. reflexivity.
  - intros i j k Hi Hj Hk. rewrite <- Llat, <- Llon.
    apply meshgrid_rows_nth; apply arange_nth; assumption.
Qed.

(** X7. What [delay_over_area] computes on integer ranges. For bounds
    and resolutions that are integers below [2^26] in magnitude, the
    resolutions not zero, a non-negative norm, a model that answers
    position by position and [2*h] processing units with [1 <= h <=] the
    number of grid points, the call returns, under every schedule, each
    grid point's own Zenith delay in both components.  The grid is the
    cartesian product of the three ranges, [ceil((max - min)/res)]
    samples [min + i*res] each, listed with the heights varying slowest
    and the longitudes fastest. *)
Theorem delay_over_area_covers_the_cartesian_grid :
  forall (util : Util) (h : nat) (schedule : list nat) (dh dw : vec -> Q)
         (lat_min lat_max lat_res lon_min lon_max lon_res
          ht_min ht_max ht_res : Z),
    let count := fun lo hi res : Z =>
      Z.to_nat (Qceiling ((inject_Z hi - inject_Z lo) / inject_Z res)) in
    let sample := fun (lo res : Z) (i : nat) =>
      inject_Z lo + inject_Z (Z.of_nat i) * inject_Z res in
    let nlat := count lat_min lat_max lat_res in
    let nlon := count lon_min lon_max lon_res in
    let nht := count ht_min ht_max ht_res in
    (forall v, 0 <= norm util v) ->
    integer_range lat_min lat_max lat_res ->
    integer_range lon_min lon_max lon_res ->
    integer_range ht_min ht_max ht_res ->
    (1 <= h <= nht * (nlat * nlon))%nat ->
    exists llas,
      delay_over_area util (2 * h) schedule (pointwise_weather dh dw)
        (inject_Z lat_min) (inject_Z lat_max) (inject_Z lat_res)
        (inject_Z lon_min) (inject_Z lon_max) (inject_Z lon_res)
        (inject_Z ht_min) (inject_Z ht_max) (inject_Z ht_res)
        Zenith
      = inr (map (zenith_point_delay util dh) llas,
             map (zenith_point_delay util dw) llas) /\
      length llas = (nht * (nlat * nlon))%nat /\
      forall i j k,
        (i < nlat)%nat -> (j < nlon)%nat -> (k < nht)%nat ->
        nth_error llas ((k * nlat + i) * nlon + j)
        = Some (mklla (sample lat_min lat_res i)
                      (sample lon_min lon_res j)
                      (sample ht_min ht_res k)).
Proof.
  intros util h schedule dh dw lat_min lat_max lat_res lon_min lon_max
         lon_res ht_min ht_max ht_res count sample nlat nlon nht Hnorm
         Hlat Hlon Hht Hh.
  assert (Hz : forall lo hi res, integer_range lo hi res ->
                                 ~ inject_Z res == 0).
  { intros lo hi res (Hres & _) E. apply Hres.
    unfold Qeq in E. cbn in E. lia. }
  apply delay_over_area_grid;
    [exact Hnorm | exact (Hz _ _ _ Hlat) | exact (Hz _ _ _ Hlon)
     | exact (Hz _ _ _ Hht) | exact Hh].
Qed.

(** The hypotheses of [delay_over_area_covers_the_cartesian_grid] hold on
    the polar axis for one latitude, one longitude and two heights on two
    processing units. *)
Lemma delay_over_area_covers_the_cartesian_grid_witness :
  exists llas,
    delay_over_area PolarAxis.util 2 [1; 0; 1; 0]%nat
      (pointwise_weather (fun _ => 1) (fun _ => 2))
      90 91 1 0 1 1 14955 14985 15 Zenith
    = inr (map (zenith_point_delay PolarAxis.util (fun _ => 1)) llas,
           map (zenith_point_delay PolarAxis.util (fun _ => 2)) llas) /\
    length llas = 2%nat /\
    nth_error llas 0 = Some (mklla 90 0 14955) /\
    nth_error llas 1 = Some (mklla 90 0 14970).
Proof.
  destruct (delay_over_area_covers_the_cartesian_grid PolarAxis.util 1
              [1; 0; 1; 0]%nat (fun _ => 1) (fun _ => 2)
              90 91 1 0 1 1 14955 14985 15 polar_norm_nonneg)
    as (llas & Hd & Hl & Hn).
  - unfold integer_range. lia.
  - unfold integer_range. lia.
  - unfold integer_range. lia.
  - vm_compute. lia.
  - exists llas. split; [exact Hd|].
    split; [rewrite Hl; vm_compute; reflexivity|].
    split.
    + assert (H := Hn 0%nat 0%nat 0%nat).
      vm_compute in H. apply H; lia.
    + assert (H := Hn 0%nat 0%nat 1%nat).
      vm_compute in H. apply H; lia.
Defined.

(** X8. [delay_over_area] always takes the parallel path and so
    inherits its failures: for non-zero resolutions it raises
    [IndexError] on every odd number of processing units, whatever the
    area, and it raises on every number of units when one of the three
    ranges is empty (a maximum not beyond the minimum in the direction of
    the resolution). *)
Theorem delay_over_area_raises_on_odd_units_and_on_empty_areas :
  forall (util : Util) (cpu_count : nat) (schedule : list nat)
         (weather : Weather)
         (lat_min lat_max lat_res lon_min lon_max lon_res
          ht_min ht_max ht_res : Q) (los : LookVecs),
    let nlat := Z.to_nat (Qceiling ((lat_max - lat_min) / lat_res)) in
    let nlon := Z.to_nat (Qceiling ((lon_max - lon_min) / lon_res)) in
    let nht := Z.to_nat (Qceiling ((ht_max - ht_min) / ht_res)) in
    ~ lat_res == 0 -> ~ lon_res == 0 -> ~ ht_res == 0 ->
    (Nat.Odd cpu_count ->
     forall los', flatten_los los true = inr los' ->
     delay_over_area util cpu_count schedule weather
       lat_min lat_max lat_res lon_min lon_max lon_res ht_min ht_max ht_res
       los = inl (GridError IndexError)) /\
    ((nht * (nlat * nlon) = 0)%nat ->
     exists e,
       delay_over_area util cpu_count schedule weather
         lat_min lat_max lat_res lon_min lon_max lon_res ht_min ht_max ht_res
         los = inl (GridError e)).
Proof.
  intros util cpu_count schedule weather lat_min lat_max lat_res lon_min
         lon_max lon_res ht_min ht_max ht_res los nlat nlon nht
         Hlat Hlon Hht.
  unfold delay_over_area. rewrite !np_arange_nonzero by assumption.
  fold nlat nlon nht. cbv zeta. split.
  - intros [k ->] los' Hlos.
    rewrite (delay_from_grid_parallel_odd _ _ _ _ _ _ _ _ Hlos).
    reflexivity.
  - intro Hz.
    match goal with
    | |- context [delay_from_grid _ _ _ _ ?l _ _ _] => set (llas := l)
    end.
    assert (E : llas = []).
    { apply length_zero_iff_nil. unfold llas.
      rewrite meshgrid_rows_length, !length_map, !length_seq. exact Hz. }
    rewrite E.
    destruct (no_points_raise util cpu_count schedule
                weather los true true) as (e & He).
    exists e. rewrite He. reflexivity.
Qed.

(** The hypotheses of
    [delay_over_area_raises_on_odd_units_and_on_empty_areas] hold for
    resolutions of 1 and 15: three processing units raise [IndexError],
    and a height range from 14985 down to 14955 with a positive
    resolution is empty. *)
Lemma delay_over_area_raises_on_odd_units_and_on_empty_areas_witness :
  delay_over_area PolarAxis.util 3 [2; 0; 1]%nat (constant_weather 1)
    90 91 1 0 1 1 14955 14985 15 Zenith = inl (GridError IndexError) /\
  exists e,
    delay_over_area PolarAxis.util 2 [0; 1]%nat (constant_weather 1)
      90 91 1 0 1 1 14985 14955 15 Zenith = inl (GridError e).
Proof.
  split.
  - destruct (delay_over_area_raises_on_odd_units_and_on_empty_areas
                PolarAxis.util 3 [2; 0; 1]%nat (constant_weather 1)
                90 91 1 0 1 1 14955 14985 15 Zenith) as [H _];
      try (intro E; discriminate).
    apply (H (ex_intro _ 1%nat eq_refl) Zenith eq_refl).
  - destruct (delay_over_area_raises_on_odd_units_and_on_empty_areas
                PolarAxis.util 2 [0; 1]%nat (constant_weather 1)
                90 91 1 0 1 1 14985 14955 15 Zenith) as [_ H];
      try (intro E; discriminate).
    apply H. vm_compute. reflexivity.
Defined.

(** ** Substrings of a message *)

Lemma is_prefix_app (p t : string) : is_prefix p (p ++ t)%string = true.
Proof.
  induction p as [|a p IH]; [reflexivity|].
  cbn [String.append is_prefix]. rewrite Ascii.eqb_refl, IH. reflexivity.
Qed.

Lemma contains_prefix (s needle : string) :
  is_prefix needle s = true -> contains s needle = true.
Proof.
  intro H. destruct s; cbn [contains]; rewrite H; reflexivity.
Qed.

Lemma contains_app_r (s t needle : string) :
  contains t needle = true -> contains (s ++ t)%string needle = true.
Proof.
  intro H. induction s as [|a s IH]; [exact H|].
  cbn [String.append contains]. rewrite IH. apply orb_true_r.
Qed.

Lemma contains_middle (x needle y : string) :
  contains (x ++ needle ++ y)%string needle = true.
Proof.
  apply contains_app_r, contains_prefix, is_prefix_app.
Qed.

Lemma string_app_assoc (a b c : string) :
  ((a ++ b) ++ c = a ++ (b ++ c))%string.
Proof.
  induction a as [|x a IH]; [reflexivity|].
  cbn [String.append]. rewrite IH. reflexivity.
Qed.

(** ** The shape check of [_tropo_delay_with_values] *)

Lemma shape_eqb_false (a b : list nat) : a <> b -> shape_eqb a b = false.
Proof.
  intro H. unfold shape_eqb. destruct (list_eq_dec Nat.eq_dec a b);
    [contradiction | reflexivity].
Qed.

Lemma tropo_shape_message_parts (lats lons : Raster) :
  let m := tropo_shape_message lats lons in
  contains m ("lats had shape " ++ repr_shape (shape lats))%string = true /\
  contains m ("lons had shape " ++ repr_shape (shape lons))%string = true /\
  contains m "heights had shape {hts.shape}, and los had shape {los.shape}"
  = true.
Proof.
  cbv zeta. unfold tropo_shape_message.
  set (rl := repr_shape (shape lats)). set (rn := repr_shape (shape lons)).
  set (head := "I need lats, lons, heights, and los to all be the same shape. "%string).
  set (tail := "heights had shape {hts.shape}, and los had shape {los.shape}"%string).
  split; [|split].
  - replace ((head ++ ("lats had shape " ++ rl ++ ", lons had shape " ++ rn ++ ", ")
                   ++ tail)%string)
      with (head ++ ("lats had shape " ++ rl)
                 ++ (", lons had shape " ++ rn ++ ", " ++ tail))%string.
    + apply contains_middle.
    + f_equal.
      repeat (cbn [String.append]; rewrite ?string_app_assoc). reflexivity.
  - replace ((head ++ ("lats had shape " ++ rl ++ ", lons had shape " ++ rn ++ ", ")
                   ++ tail)%string)
      with ((head ++ "lats had shape " ++ rl ++ ", ")
              ++ ("lons had shape " ++ rn) ++ (", " ++ tail))%string.
    + apply contains_middle.
    + unfold head.
      repeat (cbn [String.append]; rewrite ?string_app_assoc). reflexivity.
  - apply contains_app_r, contains_app_r. reflexivity.
Qed.

(** X9. The shape error of [_tropo_delay_with_values]. When the shapes
    of heights, latitudes and longitudes are not all equal, or the look
    vectors' shape without its last axis differs from the heights' shape,
    the call raises [ValueError] before any delay is computed.  Only the
    middle literal of the message is a formatted one: the message shows
    the shapes of the latitudes and of the longitudes, and the text
    [{hts.shape}] and [{los.shape}] in place of the other two. *)
Theorem tropo_delay_with_values_shape_error_prints_two_of_four_shapes :
  forall (util : Util) (cpu_count : nat) (schedule : list nat)
         (LosSpec : Type)
         (infer_los : LosSpec -> Raster -> Raster -> Raster -> Q ->
                      result LosArray)
         (los : option LosSpec) (lats lons hts : Raster)
         (weather : Weather) (zref : Q) (los' : option LosArray),
    match los with
    | None => los' = None
    | Some l => exists a, infer_los l lats lons hts zref = inr a /\
                          los' = Some a
    end ->
    (shape hts <> shape lats \/ shape lats <> shape lons \/
     exists a, los' = Some a /\ removelast (los_shape a) <> shape hts) ->
    exists m,
      _tropo_delay_with_values util cpu_count schedule LosSpec infer_los
        los lats lons hts weather zref = inl (ValueError m) /\
      contains m ("lats had shape " ++ repr_shape (shape lats))%string = true /\
      contains m ("lons had shape " ++ repr_shape (shape lons))%string = true /\
      contains m "heights had shape {hts.shape}, and los had shape {los.shape}"
      = true.
Proof.
  intros util cpu_count schedule LosSpec infer_los los lats lons hts weather
         zref los' Hlos Hbad.
  exists (tropo_shape_message lats lons).
  split; [|apply tropo_shape_message_parts].
  unfold _tropo_delay_with_values.
  assert (E : match los with
              | None => ret None
              | Some l => a <- infer_los l lats lons hts zref ;; ret (Some a)
              end = inr los').
  { destruct los as [l|].
    - destruct Hlos as (a & Ha & ->). rewrite Ha. reflexivity.
    - subst los'. reflexivity. }
  rewrite E. cbn [bind].
  assert (C : negb (shape_eqb (shape hts) (shape lats)
                    && shape_eqb (shape lats) (shape lons))
              || match los' with
                 | None => false
                 | Some a =>
                     negb (shape_eqb (removelast (los_shape a)) (shape hts))
                 end = true).
  { destruct Hbad as [H|[H|(a & -> & H)]].
    - rewrite (shape_eqb_false _ _ H). reflexivity.
    - rewrite (shape_eqb_false _ _ H), andb_false_r. reflexivity.
    - rewrite (shape_eqb_false _ _ H). apply orb_true_r. }
  rewrite C. reflexivity.
Qed.

(** The hypotheses of
    [tropo_delay_with_values_shape_error_prints_two_of_four_shapes] hold
    for latitudes and longitudes of shape (2, 3) and heights of shape
    (3, 2) with no line of sight: the message shows (2, 3) twice and
    (3, 2) nowhere. *)
Lemma tropo_delay_with_values_shape_error_prints_two_of_four_shapes_witness :
  exists m,
    _tropo_delay_with_values PolarAxis.util 2 [] unit
      (fun _ _ _ _ _ => raise TypeError) None
      (mkRaster [2; 3]%nat []) (mkRaster [2; 3]%nat [])
      (mkRaster [3; 2]%nat []) (constant_weather 1) 15000
    = inl (ValueError m) /\
    contains m "lats had shape (2, 3), lons had shape (2, 3)" = true /\
    contains m "(3, 2)" = false.
Proof.
  destruct (tropo_delay_with_values_shape_error_prints_two_of_four_shapes
              PolarAxis.util 2 [] unit (fun _ _ _ _ _ => raise TypeError) None
              (mkRaster [2; 3]%nat []) (mkRaster [2; 3]%nat [])
              (mkRaster [3; 2]%nat []) (constant_weather 1) 15000 None
              eq_refl) as (m & Hm & _).
  - left. discriminate.
  - exists m. split; [exact Hm|].
    vm_compute in Hm. injection Hm as <-.
    split; vm_compute; reflexivity.
Defined.

(** ** Projection with one angle per point, one angle for all, or neither *)

Lemma grid_serial_inv (util : Util) (cpu_count : nat) (schedule : list nat)
    (weather : Weather) (llas : list lla) (los : LookVecs) (raytrace : bool)
    (hydro wet : list Q) :
  delay_from_grid util cpu_count schedule weather llas los false raytrace
  = inr (hydro, wet) ->
  exists los',
    flatten_los los raytrace = inr los' /\
    _common_delay util (wm_hydrostatic_delay weather) llas los' raytrace
    = inr hydro /\
    _common_delay util (wm_wet_delay weather) llas los' raytrace = inr wet.
Proof.
  unfold delay_from_grid. intro H.
  apply bind_inr in H. destruct H as (los' & Hlos & H).
  apply bind_inr in H. destruct H as (h & Hh & H).
  apply bind_inr in H. destruct H as (w & Hw & H).
  unfold stack2 in H. destruct (length h =? length w)%nat; [|discriminate].
  injection H as <- <-. exists los'. auto.
Qed.

Lemma grid_serial_intro (util : Util) (cpu_count : nat) (schedule : list nat)
    (weather : Weather) (llas : list lla) (los los' : LookVecs)
    (raytrace : bool) (hydro wet : list Q) :
  flatten_los los raytrace = inr los' ->
  _common_delay util (wm_hydrostatic_delay weather) llas los' raytrace
  = inr hydro ->
  _common_delay util (wm_wet_delay weather) llas los' raytrace = inr wet ->
  delay_from_grid util cpu_count schedule weather llas los false raytrace
  = inr (hydro, wet).
Proof.
  intros Hlos Hh Hw. unfold delay_from_grid. rewrite Hlos. cbn [bind].
  unfold hydrostatic_delay, wet_delay. rewrite Hh, Hw. cbn [bind].
  unfold stack2.
  rewrite (common_delay_length _ _ _ _ _ _ Hh).
  rewrite (common_delay_length _ _ _ _ _ _ Hw).
  rewrite Nat.eqb_refl. reflexivity.
Qed.

(** The projected call, from the vertical one, when there is one scalar
    per point. *)
Lemma grid_projection (util : Util) (cpu_count : nat) (schedule : list nat)
    (weather : Weather) (llas : list lla) (incidence hv wv : list Q) :
  length incidence = length llas ->
  delay_from_grid util cpu_count schedule weather llas Zenith false true
  = inr (hv, wv) ->
  delay_from_grid util cpu_count schedule weather llas (Scalars incidence)
    false false
  = inr (map (fun vi => fst vi * (1 / cosd util (snd vi)))
           (combine hv incidence),
         map (fun vi => fst vi * (1 / cosd util (snd vi)))
           (combine wv incidence)).
Proof.
  intros Hlen H. apply grid_serial_inv in H.
  destruct H as (los' & Hlos & Hh & Hw). injection Hlos as <-.
  apply (grid_serial_intro _ _ _ _ _ _ (Scalars incidence));
    [reflexivity | |]; apply common_delay_projection_value; assumption.
Qed.

Lemma common_delay_projection_single (util : Util)
    (delay : list vec -> result (list Q)) (points : list lla)
    (a : Q) (vertical : list Q) :
  _common_delay util delay points Zenith true = inr vertical ->
  _common_delay util delay points (Scalars [a]) false
  = inr (map (fun v => v * (1 / cosd util a)) vertical).
Proof.
  intro Hv. rewrite common_delay_projection, Hv. cbn [bind].
  cbn [apply_correction map length].
  destruct (1 =? length vertical)%nat eqn:E; [|reflexivity].
  destruct vertical as [|v [|v' vs]]; try discriminate. reflexivity.
Qed.

Lemma common_delay_projection_mismatch (util : Util)
    (delay : list vec -> result (list Q)) (points : list lla)
    (ss vertical : list Q) :
  _common_delay util delay points Zenith true = inr vertical ->
  length ss <> length points -> length ss <> 1%nat ->
  exists msg,
    _common_delay util delay points (Scalars ss) false
    = inl (ValueError msg).
Proof.
  intros Hv Hn H1. rewrite common_delay_projection, Hv. cbn [bind].
  apply common_delay_length in Hv.
  cbn [apply_correction]. rewrite length_map, Hv.
  destruct (length ss =? length points)%nat eqn:E;
    [apply Nat.eqb_eq in E; contradiction|].
  destruct ss as [|s [|s' ss]]; cbn [map]; eauto.
  simpl in H1. contradiction.
Qed.

(** X10. Projection with one angle, or with the wrong number of them.
    When the vertical (Zenith) call returns, the projected call given a
    single incidence angle applies that angle's secant to every point,
    in both components; given a number of angles that is neither one nor
    the number of points it raises [ValueError]. *)
Theorem projection_broadcasts_one_angle_and_rejects_other_counts :
  forall (util : Util) (cpu_count : nat) (schedule : list nat)
         (weather : Weather) (llas : list lla) (hv wv : list Q),
    delay_from_grid util cpu_count schedule weather llas Zenith false true
    = inr (hv, wv) ->
    (forall a,
       delay_from_grid util cpu_count schedule weather llas (Scalars [a])
         false false
       = inr (map (fun v => v * (1 / cosd util a)) hv,
              map (fun v => v * (1 / cosd util a)) wv)) /\
    (forall ss,
       length ss <> length llas -> length ss <> 1%nat ->
       exists msg,
         delay_from_grid util cpu_count schedule weather llas (Scalars ss)
           false false = inl (ValueError msg)).
Proof.
  intros util cpu_count schedule weather llas hv wv H.
  apply grid_serial_inv in H. destruct H as (los' & Hlos & Hh & Hw).
  injection Hlos as <-. split.
  - intro a. apply (grid_serial_intro _ _ _ _ _ _ (Scalars [a]));
      [reflexivity | |]; apply common_delay_projection_single; assumption.
  - intros ss Hn H1.
    destruct (common_delay_projection_mismatch util _ llas ss hv Hh Hn H1)
      as (msg & Hm).
    exists msg. unfold delay_from_grid. cbn [flatten_los bind ret].
    unfold hydrostatic_delay. rewrite Hm. reflexivity.
Qed.

(** The hypothesis of
    [projection_broadcasts_one_angle_and_rejects_other_counts] holds for
    two points on the polar axis: one angle of 60 degrees scales both
    delays, three angles raise. *)
Lemma projection_broadcasts_one_angle_and_rejects_other_counts_witness :
  exists u v,
    delay_from_grid PolarAxis.util 2 [] (constant_weather 1)
      [PolarAxis.pole 14955; PolarAxis.pole 14980] Zenith false true
    = inr ([u; v], [u; v]) /\
    delay_from_grid PolarAxis.util 2 [] (constant_weather 1)
      [PolarAxis.pole 14955; PolarAxis.pole 14980] (Scalars [60]) false false
    = inr ([u * (1 / cosd PolarAxis.util 60); v * (1 / cosd PolarAxis.util 60)],
           [u * (1 / cosd PolarAxis.util 60); v * (1 / cosd PolarAxis.util 60)]) /\
    exists msg,
      delay_from_grid PolarAxis.util 2 [] (constant_weather 1)
        [PolarAxis.pole 14955; PolarAxis.pole 14980] (Scalars [60; 60; 60])
        false false = inl (ValueError msg).
Proof.
  assert (Hv : exists u v,
             delay_from_grid PolarAxis.util 2 [] (constant_weather 1)
               [PolarAxis.pole 14955; PolarAxis.pole 14980] Zenith false true
             = inr ([u; v], [u; v]))
    by (eexists _, _; vm_compute; reflexivity).
  destruct Hv as (u & v & Hv). exists u, v.
  destruct (projection_broadcasts_one_angle_and_rejects_other_counts
              PolarAxis.util 2 [] (constant_weather 1)
              [PolarAxis.pole 14955; PolarAxis.pole 14980] _ _ Hv)
    as [H1 H2].
  split; [exact Hv|]. split; [apply (H1 60)|].
  apply (H2 [60; 60; 60]); simpl; lia.
Defined.

(** ** The three maps of a simulated scene *)

Lemma np_add_length (a b : list Q) :
  length a = length b -> length (np_add a b) = length a.
Proof.
  intro H. unfold np_add. rewrite length_map, length_combine. lia.
Qed.

Lemma projected_sum (k : Q -> Q) (hv wv inc : list Q) :
  length wv = length hv -> length inc = length hv ->
  Forall2 (fun zi c => c == fst zi * k (snd zi))
    (combine (np_add hv wv) inc)
    (np_add (map (fun vi => fst vi * k (snd vi)) (combine hv inc))
            (map (fun vi => fst vi * k (snd vi)) (combine wv inc))).
Proof.
  revert wv inc. induction hv as [|h hv IH]; intros [|w wv] [|i inc] Hw Hi;
    try discriminate; [constructor|].
  cbn. constructor.
  - cbn. ring.
  - apply IH; simpl in *; lia.
Qed.

(** X11. The projected map of [sim_weather_plots]. Whenever the function
    returns its three maps, with one incidence angle per pixel, the
    projected total delay [cmbd_cosine] of a pixel is the Zenith total
    delay [zenith] of that pixel times the secant of its incidence
    angle; both maps have one value per pixel. *)
Theorem sim_weather_plots_projected_map_is_zenith_map_times_secant :
  forall (util : Util) (cpu_count : nat) (schedule : list nat)
         (los_to_lv : Raster -> Raster -> Raster -> Raster -> Raster -> Q ->
                      result (list vec))
         (sim_weather : Weather) (lats lons incidence heading : Raster)
         (zenith cmbd_raytrace cmbd_cosine : list Q),
    length (data lons) = length (data lats) ->
    length (data incidence) = length (data lats) ->
    sim_weather_plots util cpu_count schedule los_to_lv sim_weather
      lats lons incidence heading
    = inr (zenith, cmbd_raytrace, cmbd_cosine) ->
    length zenith = length (data lats) /\
    length cmbd_cosine = length (data lats) /\
    Forall2 (fun zi c => c == fst zi * (1 / cosd util (snd zi)))
      (combine zenith (data incidence)) cmbd_cosine.
Proof.
  intros util cpu_count schedule los_to_lv sim_weather lats lons incidence
         heading zenith cmbd_raytrace cmbd_cosine Hlons Hinc H.
  unfold sim_weather_plots in H.
  destruct (negb (shape_eqb (shape lats) (shape lons))); [discriminate|].
  set (llas := map (fun p => mklla (fst p) (snd p) 0)
                 (combine (data lats) (data lons))) in *.
  assert (Ln : length llas = length (data lats))
    by (unfold llas; rewrite length_map, length_combine; lia).
  apply bind_inr in H. destruct H as ([hv wv] & Hz & H).
  cbn [fst snd] in H.
  rewrite (grid_projection _ _ _ _ _ _ _ _ (eq_trans Hinc (eq_sym Ln)) Hz) in H.
  cbn [bind fst snd] in H.
  apply bind_inr in H. destruct H as (lvs & _ & H).
  apply bind_inr in H. destruct H as ([hr wr] & _ & H).
  injection H as <- _ <-.
  destruct (one_delay_per_point _ _ _ _ _ _ _ _ _ _ Hz) as [Lh Lw].
  split; [rewrite np_add_length; lia|].
  split.
  - rewrite np_add_length; rewrite !length_map, !length_combine; lia.
  - apply (projected_sum (fun a => 1 / cosd util a)); lia.
Qed.

(** The hypotheses of
    [sim_weather_plots_projected_map_is_zenith_map_times_secant] hold for
    a scene of one pixel at the pole with an incidence angle of 60
    degrees and a reference height of 45 m: the projected delay is twice
    the Zenith delay. *)
Lemma sim_weather_plots_projected_map_is_zenith_map_times_secant_witness :
  let util45 := mkUtil 45 PolarAxis.cosd PolarAxis.sind PolarAxis.lla2ecef
                  PolarAxis.ecef2lla PolarAxis.norm in
  exists z r c,
    sim_weather_plots util45 2 [] (fun _ _ _ _ _ _ => ret [mkvec 0 0 45])
      (constant_weather 1) (mkRaster [1]%nat [90]) (mkRaster [1]%nat [0])
      (mkRaster [1]%nat [60]) (mkRaster [1]%nat [0])
    = inr ([z], [r], [c]) /\
    c == z * 2.
Proof.
  intro util45.
  set (lv := fun (_ _ _ _ _ : Raster) (_ : Q) => ret [mkvec 0 0 45]).
  assert (Hrun : exists z r c,
             sim_weather_plots util45 2 [] lv
               (constant_weather 1) (mkRaster [1]%nat [90])
               (mkRaster [1]%nat [0]) (mkRaster [1]%nat [60])
               (mkRaster [1]%nat [0])
             = inr ([z], [r], [c]))
    by (eexists _, _, _; vm_compute; reflexivity).
  destruct Hrun as (z & r & c & Hrun). exists z, r, c.
  split; [exact Hrun|].
  pose proof (sim_weather_plots_projected_map_is_zenith_map_times_secant
              util45 2 [] lv (constant_weather 1) (mkRaster [1]%nat [90])
              (mkRaster [1]%nat [0]) (mkRaster [1]%nat [60])
              (mkRaster [1]%nat [0]) [z] [r] [c] eq_refl eq_refl Hrun)
    as (_ & _ & HF).
  cbn [combine data] in HF.
  inversion HF as [|? ? ? ? Hc _]; subst.
  cbn [fst snd] in Hc. rewrite Hc.
  assert (Hsec : 1 / cosd util45 60 == 2) by reflexivity.
  rewrite Hsec. reflexivity.
Defined.

(** ** [_parmap] as a map *)

(** X12. [_parmap] is a map. When [f] raises on none of the jobs and
    there is at least one thread, [_parmap] returns, under every
    schedule of its threads, the result of [f] on every job, in the
    order of the jobs. *)
Theorem parmap_returns_every_result_in_job_order :
  forall (X Y : Type) (f : X -> result Y) (g : X -> Y) (jobs : list X)
         (schedule : list nat) (cpu_count : nat),
    (forall x, In x jobs -> f x = inr (g x)) ->
    (1 <= cpu_count)%nat ->
    _parmap f schedule jobs cpu_count = map (fun x => Some (g x)) jobs.
Proof.
  intros X Y f g jobs schedule cpu_count Hf Hcpu.
  assert (Hs : forall x, In x jobs -> exists y, f x = inr y)
    by (intros x Hx; exists (g x); apply Hf; exact Hx).
  pose proof (parmap_complete f jobs Hs schedule cpu_count Hcpu) as HF.
  assert (HF' : Forall2 (fun x a => a = Some (g x)) jobs
                  (_parmap f schedule jobs cpu_count)).
  { eapply Forall2_impl; [|apply Forall2_in_l; exact HF].
    intros x a (Hx & y & Hy & ->). rewrite (Hf x Hx) in Hy.
    injection Hy as <-. reflexivity. }
  apply Forall2_map_eq. exact HF'.
Qed.

(** The hypotheses of [parmap_returns_every_result_in_job_order] hold for
    the successor function on three jobs and two threads. *)
Lemma parmap_returns_every_result_in_job_order_witness :
  _parmap (fun x : nat => ret (S x)) [1; 0; 0; 1]%nat [10; 20; 30]%nat 2
  = [Some 11; Some 21; Some 31]%nat.
Proof.
  apply (parmap_returns_every_result_in_job_order nat nat
           (fun x : nat => ret (S x)) S [10; 20; 30]%nat [1; 0; 0; 1]%nat 2).
  - intros x _. reflexivity.
  - lia.
Defined.

(** ** Case and hyphens in names *)

Lemma ascii_lower_upper (c : ascii) :
  ascii_lower (ascii_upper c) = ascii_lower c.
Proof. destruct c as [[] [] [] [] [] [] [] []]; reflexivity. Qed.

Lemma ascii_upper_lower (c : ascii) :
  ascii_upper (ascii_lower c) = ascii_upper c.
Proof. destruct c as [[] [] [] [] [] [] [] []]; reflexivity. Qed.

Lemma ascii_upper_hyphen (c : ascii) :
  Ascii.eqb (ascii_upper c) "-" = Ascii.eqb c "-".
Proof. destruct c as [[] [] [] [] [] [] [] []]; reflexivity. Qed.

Lemma ascii_lower_hyphen (c : ascii) :
  Ascii.eqb (ascii_lower c) "-" = Ascii.eqb c "-".
Proof. destruct c as [[] [] [] [] [] [] [] []]; reflexivity. Qed.

Lemma str_lower_upper (s : string) : str_lower (str_upper s) = str_lower s.
Proof.
  induction s as [|c s IH]; [reflexivity|].
  cbn. rewrite ascii_lower_upper. f_equal. exact IH.
Qed.

Lemma str_upper_lower (s : string) : str_upper (str_lower s) = str_upper s.
Proof.
  induction s as [|c s IH]; [reflexivity|].
  cbn. rewrite ascii_upper_lower. f_equal. exact IH.
Qed.

Lemma remove_hyphens_upper (s : string) :
  remove_hyphens (str_upper s) = str_upper (remove_hyphens s).
Proof.
  induction s as [|c s IH]; [reflexivity|].
  cbn [str_upper str_map remove_hyphens]. rewrite ascii_upper_hyphen.
  destruct (Ascii.eqb c "-"); [exact IH|].
  cbn [str_upper str_map]. f_equal. exact IH.
Qed.

Lemma remove_hyphens_lower (s : string) :
  remove_hyphens (str_lower s) = str_lower (remove_hyphens s).
Proof.
  induction s as [|c s IH]; [reflexivity|].
  cbn [str_lower str_map remove_hyphens]. rewrite ascii_lower_hyphen.
  destruct (Ascii.eqb c "-"); [exact IH|].
  cbn [str_lower str_map]. f_equal. exact IH.
Qed.

Lemma remove_hyphens_none (s : string) :
  contains (remove_hyphens s) "-" = false.
Proof.
  induction s as [|c s IH]; [reflexivity|].
  cbn [remove_hyphens]. destruct (Ascii.eqb c "-") eqn:E; [exact IH|].
  cbn [contains is_prefix]. rewrite Ascii.eqb_sym, E, IH.
  destruct (remove_hyphens s); reflexivity.
Qed.

Lemma ascii_lower_lower (c : ascii) :
  ascii_lower (ascii_lower c) = ascii_lower c.
Proof. destruct c as [[] [] [] [] [] [] [] []]; reflexivity. Qed.

Lemma str_lower_lower (s : string) : str_lower (str_lower s) = str_lower s.
Proof.
  induction s as [|c s IH]; [reflexivity|].
  cbn. rewrite ascii_lower_lower. f_equal. exact IH.
Qed.

(** ** The reduced output formats *)

Lemma output_format_range (s r : string) :
  output_format s = inr r -> r = "h5"%string \/ r = "envi"%string.
Proof.
  unfold output_format, outformat_dict. cbn [dict_get].
  repeat match goal with
         | |- context [if ?b then _ else _] => destruct b
         end; intro H; try discriminate; injection H as <-; auto.
Qed.

(** X13. [output_format] reduces a format name to [h5] or [envi]: on
    ASCII text whatever it returns is one of these two and is returned
    unchanged when given back to the function; the case of the letters of
    the argument does not matter; and a name outside its table never
    raises [NotImplementedError] but [TypeError], because the name it
    raises, [NotImplemented], is not an exception. *)
Theorem output_format_is_idempotent_and_ignores_case :
  forall s : string,
    ascii_text s = true ->
    (forall r, output_format s = inr r ->
       (r = "h5"%string \/ r = "envi"%string) /\ output_format r = inr r) /\
    output_format (str_upper s) = output_format s /\
    output_format (str_lower s) = output_format s /\
    (forall e, output_format s = inl e -> e = Py TypeError).
Proof.
  intros s _. split; [|split; [|split]].
  - intros r H. pose proof (output_format_range s r H) as Hr.
    split; [exact Hr|]. destruct Hr as [-> | ->]; reflexivity.
  - unfold output_format. rewrite str_lower_upper. reflexivity.
  - unfold output_format. rewrite str_lower_lower. reflexivity.
  - unfold output_format. intros e H.
    destruct (dict_get _ _); [discriminate|]. injection H as <-. reflexivity.
Qed.

(** The hypothesis of [output_format_is_idempotent_and_ignores_case] holds
    for the name HDF5, which reduces to h5 in either case, and for the
    name netcdf, which raises [TypeError]. *)
Lemma output_format_is_idempotent_and_ignores_case_witness :
  output_format "HDF5" = inr "h5"%string /\
  output_format "h5" = inr "h5"%string /\
  output_format "hdf5" = output_format "HDF5" /\
  output_format "netcdf" = inl (Py TypeError).
Proof.
  destruct (output_format_is_idempotent_and_ignores_case "HDF5" eq_refl)
    as (H1 & _ & H3 & _).
  destruct (H1 "h5"%string eq_refl) as [_ H2].
  destruct (output_format_is_idempotent_and_ignores_case "netcdf" eq_refl)
    as (_ & _ & _ & H4).
  split; [reflexivity|]. split; [exact H2|]. split; [exact H3|].
  destruct (output_format "netcdf") as [e|r] eqn:E; [|discriminate].
  rewrite (H4 e eq_refl). reflexivity.
Defined.

(** ** Model names *)

Lemma normalised_upper (a b : string) :
  remove_hyphens (str_lower a) = remove_hyphens (str_lower b) ->
  remove_hyphens (str_upper a) = remove_hyphens (str_upper b).
Proof.
  intro H.
  rewrite <- (str_upper_lower a), <- (str_upper_lower b).
  rewrite !remove_hyphens_upper. f_equal. exact H.
Qed.

(** X14. [modelName2Module] matches model names regardless of case and
    hyphens: two ASCII names that agree once lowered and stripped of
    hyphens import the same module and fetch the same attribute, so the
    call has the same outcome for both; and the module name it returns
    is [RAiDER.models.] followed by a name without hyphens. *)
Theorem modelName2Module_ignores_case_and_hyphens :
  forall (PyModule PyObject : Type)
         (import_module : string -> cli PyModule)
         (getattr : PyModule -> string -> cli PyObject)
         (a b : string),
    ascii_text a = true -> ascii_text b = true ->
    remove_hyphens (str_lower a) = remove_hyphens (str_lower b) ->
    modelName2Module import_module getattr a
    = modelName2Module import_module getattr b /\
    forall m o,
      modelName2Module import_module getattr a
      = inr (m, o) ->
      exists name,
        m = ("RAiDER.models." ++ name)%string /\ contains name "-" = false.
Proof.
  intros PyModule PyObject import_module getattr a b _ _ H.
  unfold modelName2Module. split.
  - rewrite H, (normalised_upper a b H). reflexivity.
  - intros m o Hm.
    destruct (import_module _) as [e|mod_]; [discriminate|]. cbn in Hm.
    destruct (getattr _ _) as [e|obj]; [discriminate|]. cbn in Hm.
    injection Hm as <- _.
    exists (remove_hyphens (str_lower a)).
    split; [reflexivity | apply remove_hyphens_none].
Qed.

(** The hypotheses of [modelName2Module_ignores_case_and_hyphens] hold for
    the names ERA-5 and era5, with an importer that knows one module. *)
Lemma modelName2Module_ignores_case_and_hyphens_witness :
  let import_module (m : string) : cli nat :=
    if String.eqb m "RAiDER.models.era5" then inr 5%nat
    else inl (Foreign 0) in
  let getattr (m : nat) (name : string) : cli string := inr name in
  modelName2Module import_module getattr "ERA-5"
  = modelName2Module import_module getattr "era5" /\
  modelName2Module import_module getattr "ERA-5"
  = inr ("RAiDER.models.era5"%string, "ERA5"%string).
Proof.
  intros import_module getattr.
  destruct (modelName2Module_ignores_case_and_hyphens nat string
              import_module getattr "ERA-5" "era5" eq_refl eq_refl eq_refl)
    as [H _].
  split; [exact H | reflexivity].
Defined.

(** ** What [checkArgs] accepts *)

Lemma cli_bind_inr {A B} (m : cli A) (k : A -> cli B) (b : B) :
  cli_bind m k = inr b -> exists a, m = inr a /\ k a = inr b.
Proof.
  destruct m as [e|a]; [discriminate|]. intro H. exists a. auto.
Qed.

Lemma checkArgs_inv {PyModule PyObject : Type}
    (import_module : string -> cli PyModule)
    (getattr : PyModule -> string -> cli PyObject)
    {Area BBox Time WrfFiles NetcdfFiles PickleFile LatLon Model : Type}
    (AllowedModels : list string)
    (readLL : LLSource -> cli (LatLon * LatLon))
    (strftime : Time -> string -> string)
    (construct : PyObject -> cli Model)
    (path_join : string -> string -> string)
    (args : @Args Area BBox Time WrfFiles NetcdfFiles PickleFile)
    (c : @Checked Time WrfFiles NetcdfFiles PickleFile LatLon Model) :
  checkArgs import_module getattr AllowedModels readLL strftime construct
    path_join args = inr c ->
  let requested :=
    match outformat args with
    | Some f => f
    | None =>
        if is_some (heightlvs args) then "hdf5"
        else if is_some (station_file args) then "netcdf"
        else "ENVI"
    end%string in
  (is_some (heightlvs args) = true -> outformat args = Some "hdf5"%string) /\
  args_outformat c = requested /\
  (c_outformat c, printed c)
  = (if is_some (heightlvs args) then
       ("hdf5",
        if negb (String.eqb (str_lower requested) "hdf5") then
          ["WARNING: input arguments require HDF5 output file type; changing outformat to HDF5"]
        else [])
     else if is_some (station_file args) then
       ("netcdf",
        if negb (String.eqb (str_lower requested) "netcdf") then
          ["WARNING: input arguments require HDF5 output file type; changing outformat to HDF5"]
        else [])
     else if String.eqb (str_lower requested) "hdf5" then
       ("ENVI",
        ["WARNING: output require raster output file; changing outformat to ENVI"])
     else (str_lower requested, []))%string /\
  match area args, bounding_box args, station_file args with
  | Some a, _, _ =>
      exists ll, readLL (FromArea a) = inr ll /\
        (c_lat c, c_lon c, c_flag c)
        = (Some (fst ll), Some (snd ll), Some "files"%string)
  | None, Some b, _ =>
      exists ll, readLL (FromBoundingBox b) = inr ll /\
        (c_lat c, c_lon c, c_flag c)
        = (Some (fst ll), Some (snd ll), Some "bounding_box"%string)
  | None, None, Some s =>
      exists ll, readLL (FromStationFile s) = inr ll /\
        (c_lat c, c_lon c, c_flag c)
        = (Some (fst ll), Some (snd ll), Some "station_file"%string)
  | None, None, None => (c_lat c, c_lon c, c_flag c) = (None, None, None)
  end /\
  (area args = None -> bounding_box args = None -> station_file args = None ->
   is_some (wmnetcdf args) = true) /\
  c_parallel c = negb (no_parallel args) /\
  (exists t, time args = Some t /\ c_time c = Some t).
Proof.
  intro E. cbv zeta. unfold checkArgs in E.
  destruct (is_some (heightlvs args)
            && negb match outformat args with
                    | Some f => (f =? "hdf5")%string
                    | None => false
                    end) eqn:C1; [discriminate|].
  destruct (negb (is_some (area args)) && negb (is_some (bounding_box args))
            && negb (is_some (wmnetcdf args))
            && negb (is_some (station_file args))) eqn:C2; [discriminate|].
  repeat match type of E with
         | (if ?b then inl _ else _) = inr _ =>
             destruct b; [discriminate|]
         end.
  apply cli_bind_inr in E. destruct E as (latlon & Hll & E).
  apply cli_bind_inr in E. destruct E as (n1 & Hn1 & E).
  apply cli_bind_inr in E. destruct E as (n2 & _ & E).
  apply cli_bind_inr in E. destruct E as (mm & _ & E).
  apply cli_bind_inr in E. destruct E as (weathers & _ & E).
  match type of E with
  | (match ?x with pair _ _ => _ end) = _ =>
      destruct x as [fmt0 pr0] eqn:Efmt
  end.
  injection E as <-.
  cbn [c_outformat printed args_outformat c_lat c_lon c_flag c_parallel
       c_time].
  split; [|split; [reflexivity|split; [reflexivity|split; [|split]]]].
  - intro Hl. rewrite Hl in C1. cbn [andb] in C1.
    destruct (outformat args) as [f|]; [|discriminate].
    apply negb_false_iff, String.eqb_eq in C1. now subst.
  - destruct (area args) as [a|]; [|destruct (bounding_box args) as [b|];
      [|destruct (station_file args) as [s|]]].
    + apply cli_bind_inr in Hll. destruct Hll as (ll & Hr & Hll).
      injection Hll as <-. exists ll. split; [exact Hr | reflexivity].
    + apply cli_bind_inr in Hll. destruct Hll as (ll & Hr & Hll).
      injection Hll as <-. exists ll. split; [exact Hr | reflexivity].
    + apply cli_bind_inr in Hll. destruct Hll as (ll & Hr & Hll).
      injection Hll as <-. exists ll. split; [exact Hr | reflexivity].
    + injection Hll as <-. reflexivity.
  - intros Ha Hb Hs. rewrite Ha, Hb, Hs in C2. cbn in C2.
    destruct (is_some (wmnetcdf args)); [reflexivity | discriminate].
  - split; [reflexivity|].
    unfold geom_file_name in Hn1.
    destruct (time args) as [t|]; [|discriminate].
    exists t. split; reflexivity.
Qed.


(** X15. [checkArgs] never returns without a time. The explicit check
    lets a call through when the weather model file is given instead of
    the time, but the file names built afterwards format the time, so
    whatever the other arguments are the call ends in an exception. *)
Theorem checkArgs_never_returns_without_time :
  forall (PyModule PyObject : Type)
         (import_module : string -> cli PyModule)
         (getattr : PyModule -> string -> cli PyObject)
         (Area BBox Time WrfFiles NetcdfFiles PickleFile LatLon Model : Type)
         (AllowedModels : list string)
         (readLL : LLSource -> cli (LatLon * LatLon))
         (strftime : Time -> string -> string)
         (construct : PyObject -> cli Model)
         (path_join : string -> string -> string)
         (args : @Args Area BBox Time WrfFiles NetcdfFiles PickleFile),
    time args = None ->
    exists e,
      checkArgs import_module getattr AllowedModels readLL strftime
        construct path_join args = inl e.
Proof.
  intros PyModule PyObject import_module getattr Area BBox Time WrfFiles
         NetcdfFiles PickleFile LatLon Model AllowedModels readLL strftime
         construct path_join args Htime.
  destruct (checkArgs import_module getattr AllowedModels readLL strftime
              construct path_join args) as [e|c] eqn:E; [eauto|].
  exfalso.
  destruct (checkArgs_inv _ _ _ _ _ _ _ _ _ E)
    as (_ & _ & _ & _ & _ & _ & t & Ht & _).
  congruence.
Qed.


(** The hypothesis of [checkArgs_never_returns_without_time] holds for a
    call that names a bounding box, a weather model file and an allowed
    model but no time: it passes every explicit check and ends in
    [TypeError]. *)
Lemma checkArgs_never_returns_without_time_witness :
  let args : @Args unit unit unit unit string unit :=
    mkArgs None None None (Some tt) (Some "era5.nc"%string) None None
      "ERA-5" None None None None None None "out" 15000 false false false in
  let run :=
    checkArgs (PyModule := unit) (PyObject := unit) (LatLon := unit)
      (Model := unit)
      (fun _ => inr tt) (fun _ _ => inr tt) ["ERA-5"; "WRF"]%string
      (fun _ => inr (tt, tt)) (fun _ _ => "2019"%string) (fun _ => inr tt)
      (fun a b => (a ++ "/" ++ b)%string) args in
  (exists e, run = inl e) /\ run = inl (Py TypeError).
Proof.
  intros args run. split; [|reflexivity].
  apply checkArgs_never_returns_without_time. reflexivity.
Defined.

Lemma is_some_true {A} (o : option A) : is_some o = true <-> o <> None.
Proof. destruct o; simpl; split; congruence. Qed.

(** X16. The output format [checkArgs] settles on. Whenever it returns:
    the format is [hdf5] exactly when height levels were given; with
    height levels the caller must have asked for exactly [hdf5] (the
    default is refused), so no warning is printed; without height levels
    and station file the default is returned in lower case, [envi],
    and a request written in ASCII is returned in lower case, except
    that HDF5 in any case is replaced by [ENVI] in upper case. *)
Theorem checkArgs_output_format :
  forall (PyModule PyObject : Type)
         (import_module : string -> cli PyModule)
         (getattr : PyModule -> string -> cli PyObject)
         (Area BBox Time WrfFiles NetcdfFiles PickleFile LatLon Model : Type)
         (AllowedModels : list string)
         (readLL : LLSource -> cli (LatLon * LatLon))
         (strftime : Time -> string -> string)
         (construct : PyObject -> cli Model)
         (path_join : string -> string -> string)
         (args : @Args Area BBox Time WrfFiles NetcdfFiles PickleFile)
         (c : @Checked Time WrfFiles NetcdfFiles PickleFile LatLon Model),
    checkArgs import_module getattr AllowedModels readLL strftime construct
      path_join args = inr c ->
    (c_outformat c = "hdf5"%string <-> heightlvs args <> None) /\
    (heightlvs args <> None ->
     outformat args = Some "hdf5"%string /\ printed c = []) /\
    (heightlvs args = None -> station_file args = None ->
     (outformat args = None -> c_outformat c = "envi"%string) /\
     (forall f, outformat args = Some f -> ascii_text f = true ->
        c_outformat c
        = if String.eqb (str_lower f) "hdf5" then "ENVI"%string
          else str_lower f)).
Proof.
  intros PyModule PyObject import_module getattr Area BBox Time WrfFiles
         NetcdfFiles PickleFile LatLon Model AllowedModels readLL strftime
         construct path_join args c H.
  destruct (checkArgs_inv _ _ _ _ _ _ _ _ _ H) as (Hreq & _ & Hfmt & _).
  cbv zeta in Hfmt.
  destruct (heightlvs args) as [lvs|] eqn:El; cbn [is_some] in Hfmt, Hreq.
  - rewrite (Hreq eq_refl) in Hfmt. cbn in Hfmt.
    injection Hfmt as Ho Hp.
    split; [split; [discriminate | intros _; exact Ho]|].
    split; [intros _; split; [apply Hreq; reflexivity | exact Hp]|].
    discriminate.
  - split; [|split; [congruence|]].
    + split; [|congruence]. intro Ho. exfalso.
      destruct (is_some (station_file args)).
      * injection Hfmt as Hf _. rewrite Ho in Hf. discriminate.
      * destruct (String.eqb (str_lower _) "hdf5") eqn:E.
        -- injection Hfmt as Hf _. rewrite Ho in Hf. discriminate.
        -- injection Hfmt as Hf _. rewrite Ho in Hf.
           rewrite <- Hf, String.eqb_refl in E. discriminate.
    + intros _ Hs. rewrite Hs in Hfmt. cbn [is_some] in Hfmt. split.
      * intro Hn. rewrite Hn in Hfmt. cbn in Hfmt.
        injection Hfmt as Hf _. exact Hf.
      * intros f Hf _. rewrite Hf in Hfmt.
        destruct (String.eqb (str_lower f) "hdf5");
          injection Hfmt as Hc _; exact Hc.
Qed.

(** The hypotheses of [checkArgs_output_format] hold for a call with a
    bounding box, a time, an allowed model and the format HDF5, which is
    ASCII text: the call returns the format ENVI. *)
Lemma checkArgs_output_format_witness :
  let args : @Args unit unit unit unit string unit :=
    mkArgs None (Some "HDF5"%string) None (Some tt) None None (Some tt)
      "ERA-5" None None None None None None "out" 15000 false false false in
  exists c : @Checked unit unit string unit unit unit,
    checkArgs (fun _ : string => inr tt) (fun (_ : unit) (_ : string) => inr tt)
      ["ERA-5"; "WRF"]%string
      (fun _ => inr (tt, tt)) (fun _ _ => "2019"%string) (fun _ => inr tt)
      (fun a b => (a ++ "/" ++ b)%string) args = inr c /\
    c_outformat c = "ENVI"%string.
Proof.
  intro args.
  assert (Hrun : exists c : @Checked unit unit string unit unit unit,
             checkArgs (fun _ : string => inr tt)
               (fun (_ : unit) (_ : string) => inr tt)
               ["ERA-5"; "WRF"]%string
               (fun _ => inr (tt, tt)) (fun _ _ => "2019"%string)
               (fun _ => inr tt)
               (fun a b => (a ++ "/" ++ b)%string) args = inr c)
    by (eexists; reflexivity).
  destruct Hrun as (c & Hrun). exists c. split; [exact Hrun|].
  destruct (checkArgs_output_format _ _ _ _ _ _ _ _ _ _ _ _ _ _ _ _ _ _ _ Hrun)
    as (_ & _ & H3).
  destruct (H3 eq_refl eq_refl) as [_ H4].
  exact (H4 "HDF5"%string eq_refl eq_refl).
Defined.

(** X17. What a successful [checkArgs] guarantees about time and
    location. Whenever it returns, a time was given and is passed on;
    latitude and longitude are absent together, exactly when the flag is
    [None]; and that happens exactly when neither files, bounding box nor
    station file were given, in which case a weather model file was. *)
Theorem checkArgs_time_and_location :
  forall (PyModule PyObject : Type)
         (import_module : string -> cli PyModule)
         (getattr : PyModule -> string -> cli PyObject)
         (Area BBox Time WrfFiles NetcdfFiles PickleFile LatLon Model : Type)
         (AllowedModels : list string)
         (readLL : LLSource -> cli (LatLon * LatLon))
         (strftime : Time -> string -> string)
         (construct : PyObject -> cli Model)
         (path_join : string -> string -> string)
         (args : @Args Area BBox Time WrfFiles NetcdfFiles PickleFile)
         (c : @Checked Time WrfFiles NetcdfFiles PickleFile LatLon Model),
    checkArgs import_module getattr AllowedModels readLL strftime construct
      path_join args = inr c ->
    (exists t, time args = Some t /\ c_time c = Some t) /\
    (c_flag c = None <-> c_lat c = None) /\
    (c_lat c = None <-> c_lon c = None) /\
    (c_flag c = None <->
     area args = None /\ bounding_box args = None /\
     station_file args = None) /\
    (c_flag c = None -> wmnetcdf args <> None).
Proof.
  intros PyModule PyObject import_module getattr Area BBox Time WrfFiles
         NetcdfFiles PickleFile LatLon Model AllowedModels readLL strftime
         construct path_join args c H.
  destruct (checkArgs_inv _ _ _ _ _ _ _ _ _ H)
    as (_ & _ & _ & Hll & Hsrc & _ & Ht).
  split; [exact Ht|].
  destruct (area args) as [a|]; [|destruct (bounding_box args) as [b|];
    [|destruct (station_file args) as [s|]]].
  1-3: destruct Hll as (ll & _ & Hll).
  all: injection Hll as Hla Hlo Hfl; rewrite Hla, Hlo, Hfl.
  1-3: repeat split; try discriminate; intros (? & ? & ?); discriminate.
  repeat split; try reflexivity.
  intros _. apply is_some_true. apply Hsrc; reflexivity.
Qed.

(** The hypothesis of [checkArgs_time_and_location] holds for a call that
    gives a time and a weather model file only: it returns without
    latitudes, longitudes and flag. *)
Lemma checkArgs_time_and_location_witness :
  let args : @Args unit unit unit unit string unit :=
    mkArgs None None None None (Some "era5.nc"%string) None (Some tt)
      "ERA-5" None None None None None None "out" 15000 false false false in
  exists c : @Checked unit unit string unit unit unit,
    checkArgs (fun _ : string => inr tt) (fun (_ : unit) (_ : string) => inr tt)
      ["ERA-5"; "WRF"]%string
      (fun _ => inr (tt, tt)) (fun _ _ => "2019"%string) (fun _ => inr tt)
      (fun a b => (a ++ "/" ++ b)%string) args = inr c /\
    c_flag c = None /\ c_lat c = None /\ c_lon c = None.
Proof.
  intro args.
  assert (Hrun : exists c : @Checked unit unit string unit unit unit,
             checkArgs (fun _ : string => inr tt)
               (fun (_ : unit) (_ : string) => inr tt)
               ["ERA-5"; "WRF"]%string
               (fun _ => inr (tt, tt)) (fun _ _ => "2019"%string)
               (fun _ => inr tt)
               (fun a b => (a ++ "/" ++ b)%string) args = inr c)
    by (eexists; reflexivity).
  destruct Hrun as (c & Hrun). exists c. split; [exact Hrun|].
  destruct (checkArgs_time_and_location _ _ _ _ _ _ _ _ _ _ _ _ _ _ _ _ _ _ _
              Hrun) as (_ & Hfl & Hlo & Hsrc & _).
  assert (Hf : c_flag c = None)
    by (apply Hsrc; repeat split; reflexivity).
  split; [exact Hf|].
  assert (Hl : c_lat c = None) by (apply Hfl; exact Hf).
  split; [exact Hl | apply Hlo; exact Hl].
Defined.

(** ** The quadrature is linear and keeps signs *)

Lemma trapz_value_step (y0 y1 x0 x1 : Q) (ys xs : list Q) :
  trapz_value (y0 :: y1 :: ys) (x0 :: x1 :: xs)
  == (x1 - x0) * (y1 + y0) / 2 + trapz_value (y1 :: ys) (x1 :: xs).
Proof.
  unfold trapz_value at 1. cbn [np.diff np.pairsum combine map fst snd].
  rewrite sum_cons. reflexivity.
Qed.

Lemma trapz_value_short_y (y : list Q) (x : list Q) :
  (length y <= 1)%nat -> trapz_value y x = 0.
Proof.
  intro H. destruct y as [|y0 [|y1 ys]]; [| |simpl in H; lia];
    unfold trapz_value; cbn [np.pairsum]; rewrite combine_nil; reflexivity.
Qed.

Lemma trapz_value_short_x (y : list Q) (x : list Q) :
  (length x <= 1)%nat -> trapz_value y x = 0.
Proof.
  intro H. destruct x as [|x0 [|x1 xs]]; [| |simpl in H; lia]; reflexivity.
Qed.

(** The trapezoidal value is linear in the integrand. *)
Lemma trapz_value_linear {A} (a b : Q) (d1 d2 : A -> Q) (ps : list A)
    (x : list Q) :
  trapz_value (map (fun v => a * d1 v + b * d2 v) ps) x
  == a * trapz_value (map d1 ps) x + b * trapz_value (map d2 ps) x.
Proof.
  revert x. induction ps as [|p ps IH]; intro x.
  - rewrite !trapz_value_short_y by (simpl; lia). ring.
  - destruct ps as [|q rest].
    + rewrite !trapz_value_short_y by (simpl; lia). ring.
    + destruct x as [|x0 [|x1 xs]].
      * rewrite !trapz_value_short_x by (simpl; lia). ring.
      * rewrite !trapz_value_short_x by (simpl; lia). ring.
      * cbn [map] in *. rewrite !trapz_value_step.
        rewrite (IH (x1 :: xs)). field.
Qed.

(** Non-decreasing abscissae and non-negative ordinates give a
    non-negative trapezoidal value. *)
Lemma trapz_value_nonneg (y x : list Q) :
  Forall (fun d => 0 <= d) (np.diff x) ->
  Forall (fun v => 0 <= v) y ->
  0 <= trapz_value y x.
Proof.
  revert x. induction y as [|y0 y IH]; intros x Hx Hy.
  - rewrite trapz_value_short_y by (simpl; lia). lra.
  - destruct y as [|y1 ys].
    + rewrite trapz_value_short_y by (simpl; lia). lra.
    + destruct x as [|x0 [|x1 xs]].
      * rewrite trapz_value_short_x by (simpl; lia). lra.
      * rewrite trapz_value_short_x by (simpl; lia). lra.
      * rewrite trapz_value_step.
        inversion Hx as [|? ? Hd Hx']; subst.
        inversion Hy as [|? ? H0 Hy']; subst.
        inversion Hy' as [|? ? H1 _]; subst.
        specialize (IH (x1 :: xs) Hx' Hy').
        assert (Hp : 0 <= (x1 - x0) * (y1 + y0))
          by (apply Qmult_le_0_compat; lra).
        set (P := (x1 - x0) * (y1 + y0)) in *.
        assert (Hh : P / 2 == P * (1 # 2)) by (field; lra).
        rewrite Hh. lra.
Qed.

Lemma diff_firstn_nonneg (x : list Q) (k : nat) :
  Forall (fun d => 0 <= d) (np.diff x) ->
  Forall (fun d => 0 <= d) (np.diff (firstn k x)).
Proof.
  revert k. induction x as [|x0 x IH]; intros k H.
  - rewrite firstn_nil. constructor.
  - destruct k as [|k]; [constructor|].
    destruct x as [|x1 xs]; [destruct k; constructor|].
    destruct k as [|k]; [constructor|].
    cbn [firstn np.diff] in *. inversion H as [|? ? Hd H']; subst.
    constructor; [exact Hd|]. apply (IH (S k)). exact H'.
Qed.

Lemma diff_map_seq_nonneg (g : nat -> Q) (L : Q) (a m : nat) :
  (forall i, (a <= i)%nat -> (i < a + m)%nat -> g i <= g (S i)) ->
  (g (a + m)%nat <= L) ->
  Forall (fun d => 0 <= d) (np.diff (map g (seq a (S m)) ++ [L])).
Proof.
  revert a. induction m as [|m IH]; intros a Hg HL.
  - cbn. rewrite Nat.add_0_r in HL. constructor; [lra | constructor].
  - change (seq a (S (S m))) with (a :: seq (S a) (S m)).
    cbn [map app]. change (seq (S a) (S m)) with (S a :: seq (S (S a)) m).
    cbn [map app np.diff].
    constructor.
    + assert (g a <= g (S a)) by (apply Hg; lia). lra.
    + change (g (S a) :: map g (seq (S (S a)) m) ++ [L])
        with (map g (seq (S a) (S m)) ++ [L]).
      apply IH.
      * intros i H1 H2. apply Hg; lia.
      * replace (S a + m)%nat with (a + S m)%nat by lia. exact HL.
Qed.

(** The path parameters of a ray never decrease. *)
Lemma ray_thisspace_sorted (util : Util) (lv : vec) (ts : list Q) :
  0 <= norm util lv ->
  ray_thisspace util lv = inr ts ->
  Forall (fun d => 0 <= d) (np.diff ts).
Proof.
  intros HL H. unfold ray_thisspace, np.linspace in H.
  set (L := norm util lv) in *.
  set (n := Qceiling (L / _STEP)) in *.
  destruct (n <? 0)%Z; [discriminate|].
  destruct (Z.to_nat n) as [|[|k]] eqn:E.
  - injection H as <-. constructor.
  - injection H as <-. constructor.
  - injection H as <-.
    assert (Hn : (n - 1 = Z.of_nat (S k))%Z) by lia.
    rewrite Hn.
    assert (Hm : 0 < inject_Z (Z.of_nat (S k))).
    { change 0 with (inject_Z 0). rewrite <- Zlt_Qlt. lia. }
    set (m := inject_Z (Z.of_nat (S k))) in *.
    assert (Hstep : 0 <= (L - 0) / m) by (apply Qle_shift_div_l; lra).
    apply (diff_map_seq_nonneg
             (fun i => inject_Z (Z.of_nat i) * ((L - 0) / m) + 0) L 0 k).
    + intros i _ _. rewrite Nat2Z.inj_succ. unfold Z.succ.
      rewrite inject_Z_plus.
      set (s := (L - 0) / m) in *. set (q := inject_Z (Z.of_nat i)).
      change (inject_Z 1) with 1. nra.
    + cbn [plus].
      assert (Hk : inject_Z (Z.of_nat k) == m - 1).
      { unfold m. rewrite Nat2Z.inj_succ. unfold Z.succ.
        rewrite inject_Z_plus. change (inject_Z 1) with 1. ring. }
      rewrite Hk.
      assert (E1 : (m - 1) * ((L - 0) / m) + 0 == L - (L - 0) / m)
        by (field; lra).
      rewrite E1. lra.
Qed.

Lemma Forall2_forall_r {A B} (P : B -> Prop) (l : list A) (l' : list B) :
  Forall2 (fun _ b => P b) l l' -> Forall P l'.
Proof. induction 1; constructor; assumption. Qed.

(** X18. A model that is nowhere negative gives delays that are nowhere
    negative. For a non-empty batch, look vectors of non-negative norm
    and a model whose two queries answer one non-negative value per
    position, the serial Zenith call returns, and every hydrostatic and
    every wet delay is non-negative. *)
Theorem nonnegative_model_gives_nonnegative_zenith_delays :
  forall (util : Util) (cpu_count : nat) (schedule : list nat)
         (weather : Weather) (llas : list lla),
    llas <> [] ->
    (forall p, In p llas -> 0 <= norm util (zenith_look_vec util p)) ->
    (forall ps, exists ws,
        wm_hydrostatic_delay weather ps = inr ws /\
        length ws = length ps /\ Forall (fun v => 0 <= v) ws) ->
    (forall ps, exists ws,
        wm_wet_delay weather ps = inr ws /\
        length ws = length ps /\ Forall (fun v => 0 <= v) ws) ->
    exists hydro wet,
      delay_from_grid util cpu_count schedule weather llas Zenith false true
      = inr (hydro, wet) /\
      Forall (fun d => 0 <= d) hydro /\ Forall (fun d => 0 <= d) wet.
Proof.
  intros util cpu_count schedule weather llas Hne Hnorm Hh Hw.
  destruct (delay_from_grid_serial_zenith util cpu_count schedule weather
              llas (fun v => 0 <= v) (fun _ d => 0 <= d) Hne Hnorm Hh Hw)
    as (hydro & wet & Hrun & _ & _ & HFh & HFw).
  - intros p ts chunk Hp Hts r Hlen HV.
    assert (Ht : 0 <= trapz_value chunk (t_points r)).
    { apply trapz_value_nonneg; [|exact HV].
      unfold r, truncate_ray. cbn [t_points].
      apply diff_firstn_nonneg.
      apply (ray_thisspace_sorted util (zenith_look_vec util p));
        [apply Hnorm; exact Hp | exact Hts]. }
    apply Qmult_le_0_compat; [discriminate | exact Ht].
  - exists hydro, wet. split; [exact Hrun|].
    split; eapply Forall2_forall_r; eassumption.
Qed.

(** The hypotheses of [nonnegative_model_gives_nonnegative_zenith_delays]
    hold on the polar axis for the model that answers 1 everywhere. *)
Lemma nonnegative_model_gives_nonnegative_zenith_delays_witness :
  exists hydro wet,
    delay_from_grid PolarAxis.util 2 [] (constant_weather 1)
      [PolarAxis.pole 14955; PolarAxis.pole 14980] Zenith false true
    = inr (hydro, wet) /\
    Forall (fun d => 0 <= d) hydro /\ Forall (fun d => 0 <= d) wet.
Proof.
  apply nonnegative_model_gives_nonnegative_zenith_delays.
  - discriminate.
  - intros p _. apply polar_norm_nonneg.
  - intro ps. exists (map (fun _ => 1) ps).
    split; [reflexivity|]. split; [apply length_map|].
    apply Forall_forall. intros x Hx. apply in_map_iff in Hx.
    destruct Hx as (_ & <- & _). discriminate.
  - intro ps. exists (map (fun _ => 1) ps).
    split; [reflexivity|]. split; [apply length_map|].
    apply Forall_forall. intros x Hx. apply in_map_iff in Hx.
    destruct Hx as (_ & <- & _). discriminate.
Defined.

Lemma zenith_point_delay_linear (util : Util) (a b : Q) (d1 d2 : vec -> Q)
    (p : lla) :
  zenith_point_delay util (fun v => a * d1 v + b * d2 v) p
  == a * zenith_point_delay util d1 p + b * zenith_point_delay util d2 p.
Proof.
  unfold zenith_point_delay.
  destruct (ray_thisspace util (zenith_look_vec util p)) as [e|ts]; [ring|].
  unfold ray_delay. rewrite trapz_value_linear. ring.
Qed.

(** X19. The integrator is linear in the model. For position-by-position
    models [d1] and [d2], a non-empty batch and a non-negative norm, the
    serial Zenith delay of the model [a*d1 + b*d2] is, point by point,
    [a] times the delay of [d1] plus [b] times the delay of [d2]; in
    particular the delay of the summed model is the sum of the
    hydrostatic and wet delays. *)
Theorem zenith_delay_is_linear_in_the_model :
  forall (util : Util) (cpu_count : nat) (schedule : list nat) (a b : Q)
         (d1 d2 : vec -> Q) (llas : list lla),
    llas <> [] ->
    (forall v, 0 <= norm util v) ->
    exists combined delay1 delay2,
      delay_from_grid util cpu_count schedule
        (pointwise_weather (fun v => a * d1 v + b * d2 v)
                           (fun v => a * d1 v + b * d2 v))
        llas Zenith false true = inr (combined, combined) /\
      delay_from_grid util cpu_count schedule (pointwise_weather d1 d2)
        llas Zenith false true = inr (delay1, delay2) /\
      Forall2 (fun parts whole => whole == a * fst parts + b * snd parts)
        (combine delay1 delay2) combined.
Proof.
  intros util cpu_count schedule a b d1 d2 llas Hne Hnorm.
  exists (map (zenith_point_delay util (fun v => a * d1 v + b * d2 v)) llas),
         (map (zenith_point_delay util d1) llas),
         (map (zenith_point_delay util d2) llas).
  split; [|split].
  - eapply grid_serial_intro; [reflexivity | |];
      apply common_delay_zenith_pointwise; assumption.
  - eapply grid_serial_intro; [reflexivity | |];
      apply common_delay_zenith_pointwise; assumption.
  - clear Hne. induction llas as [|p tl IH]; [constructor|].
    cbn [map combine]. constructor; [|exact IH].
    cbn [fst snd]. apply zenith_point_delay_linear.
Qed.

(** The hypotheses of [zenith_delay_is_linear_in_the_model] hold on the
    polar axis for the models answering 1 and 2 everywhere. *)
Lemma zenith_delay_is_linear_in_the_model_witness :
  exists combined delay1 delay2,
    delay_from_grid PolarAxis.util 2 []
      (pointwise_weather (fun v => 1 * 1 + 1 * 2) (fun v => 1 * 1 + 1 * 2))
      [PolarAxis.pole 14955] Zenith false true = inr (combined, combined) /\
    delay_from_grid PolarAxis.util 2 []
      (pointwise_weather (fun _ => 1) (fun _ => 2))
      [PolarAxis.pole 14955] Zenith false true = inr (delay1, delay2) /\
    Forall2 (fun parts whole => whole == 1 * fst parts + 1 * snd parts)
      (combine delay1 delay2) combined.
Proof.
  apply (zenith_delay_is_linear_in_the_model PolarAxis.util 2 [] 1 1
           (fun _ => 1) (fun _ => 2) [PolarAxis.pole 14955]).
  - discriminate.
  - apply polar_norm_nonneg.
Defined.

(** ** Output file names *)

Lemma string_app_cancel (p a b : string) :
  (p ++ a = p ++ b)%string -> a = b.
Proof.
  induction p as [|c p IH]; [auto|].
  cbn [String.append]. intro H. injection H as H. apply IH, H.
Qed.

(** X20. The two output files of [tropo_delay] never share a name: for
    every weather-model name, time stamp, look type and format the
    hydrostatic and the wet name differ, and they differ only in the
    component tag: both start with the model name and end with the same
    time stamp, look-type letter and extension. *)
Theorem output_names_are_distinct :
  forall (weather_fmt : string) (time_iso : option string)
         (los_given : bool) (outformat : string),
    let names := output_names weather_fmt time_iso los_given outformat in
    fst names <> snd names /\
    exists rest,
      fst names = (weather_fmt ++ "_hydro_" ++ rest)%string /\
      snd names = (weather_fmt ++ "_wet_" ++ rest)%string /\
      exists stamp,
        rest = (stamp ++ "td." ++ outformat)%string.
Proof.
  intros weather_fmt time_iso los_given outformat names.
  unfold names, output_names, output_name. cbn [fst snd]. split.
  - intro H. apply string_app_cancel in H. discriminate.
  - eexists. split; [reflexivity|]. split; [reflexivity|].
    exists (match time_iso with
            | Some t => t ++ "_"
            | None => EmptyString
            end ++ (if los_given then "s" else "z"))%string.
    rewrite string_app_assoc. reflexivity.
Qed.

(** ** One value per pixel *)

(** X21. [delay_from_files] returns one delay per pixel. Whenever it
    returns, the three rasters have one shape, and for rasters holding
    one value per pixel each component holds exactly one delay per
    pixel, serial or parallel. *)
Theorem delay_from_files_returns_one_delay_per_pixel :
  forall (util : Util) (cpu_count : nat) (schedule : list nat)
         (los_to_lv : Raster -> Raster -> Raster -> Raster -> Raster -> Q ->
                      result (list vec))
         (weather : Weather) (lats lons hts : Raster) (parallel : bool)
         (los : FileLos) (raytrace : bool) (hydro wet : list Q),
    length (data lons) = length (data lats) ->
    length (data hts) = length (data lats) ->
    delay_from_files util cpu_count schedule los_to_lv weather lats lons hts
      parallel los raytrace = inr (hydro, wet) ->
    shape lats = shape lons /\ shape lons = shape hts /\
    length hydro = length (data lats) /\ length wet = length (data lats).
Proof.
  intros util cpu_count schedule los_to_lv weather lats lons hts parallel
         los raytrace hydro wet Hlons Hhts H.
  unfold delay_from_files in H.
  apply bind_inr in H. destruct H as (los' & _ & H).
  destruct (shape_eqb (shape lats) (shape lons)) eqn:E1;
    [|discriminate].
  destruct (shape_eqb (shape lons) (shape hts)) eqn:E2;
    [|discriminate].
  cbn [andb negb] in H.
  unfold shape_eqb in E1, E2.
  destruct (list_eq_dec Nat.eq_dec (shape lats) (shape lons)) as [S1|];
    [|discriminate].
  destruct (list_eq_dec Nat.eq_dec (shape lons) (shape hts)) as [S2|];
    [|discriminate].
  apply one_delay_per_point in H.
  rewrite length_map, !length_combine in H.
  split; [exact S1|]. split; [exact S2|]. lia.
Qed.

(** The hypotheses of [delay_from_files_returns_one_delay_per_pixel] hold
    for rasters of two pixels on the polar axis. *)
Lemma delay_from_files_returns_one_delay_per_pixel_witness :
  exists hydro wet,
    delay_from_files PolarAxis.util 2 [] (fun _ _ _ _ _ _ => ret [])
      (constant_weather 1)
      (mkRaster [1; 2]%nat [90; 90]) (mkRaster [1; 2]%nat [0; 0])
      (mkRaster [1; 2]%nat [14955; 14980]) false ZenithLos true
    = inr (hydro, wet) /\
    length hydro = 2%nat /\ length wet = 2%nat.
Proof.
  assert (Hrun : exists hydro wet,
             delay_from_files PolarAxis.util 2 [] (fun _ _ _ _ _ _ => ret [])
               (constant_weather 1)
               (mkRaster [1; 2]%nat [90; 90]) (mkRaster [1; 2]%nat [0; 0])
               (mkRaster [1; 2]%nat [14955; 14980]) false ZenithLos true
             = inr (hydro, wet))
    by (eexists _, _; vm_compute; reflexivity).
  destruct Hrun as (hydro & wet & Hrun). exists hydro, wet.
  split; [exact Hrun|].
  destruct (delay_from_files_returns_one_delay_per_pixel PolarAxis.util 2 []
              (fun _ _ _ _ _ _ => ret []) (constant_weather 1)
              (mkRaster [1; 2]%nat [90; 90]) (mkRaster [1; 2]%nat [0; 0])
              (mkRaster [1; 2]%nat [14955; 14980]) false ZenithLos true
              hydro wet eq_refl eq_refl Hrun) as (_ & _ & H1 & H2).
  split; [exact H1 | exact H2].
Defined.

(** ** The constant model, with the far end of the ray kept or cut *)

Lemma too_high_last (util : Util) (ps : list vec) (q : vec) (z : Q) :
  Forall (fun p => ht (ecef2lla util p) <= z) ps ->
  z < ht (ecef2lla util q) ->
  _too_high util (ps ++ [q]) z = length ps.
Proof.
  intros Hps Hq.
  pose proof (too_high_le util (ps ++ [q]) z) as Hle.
  pose proof (too_high_kept util (ps ++ [q]) z) as Hk.
  pose proof (too_high_cut util (ps ++ [q]) z) as Hc.
  set (k := _too_high util (ps ++ [q]) z) in *.
  rewrite length_app in Hle. simpl in Hle.
  destruct (Nat.lt_trichotomy k (length ps)) as [Hlt|[Heq|Hgt]].
  - exfalso. rewrite skipn_app in Hc.
    destruct (skipn k ps) as [|p tl] eqn:E.
    + apply (f_equal (@length _)) in E. rewrite length_skipn in E.
      simpl in E. lia.
    + cbn [app] in Hc.
      assert (Hin : In p ps).
      { rewrite <- (firstn_skipn k ps), E. apply in_or_app. right. now left. }
      rewrite Forall_forall in Hps. specialize (Hps _ Hin).
      apply (Qlt_not_le _ _ Hc Hps).
  - exact Heq.
  - exfalso. assert (Hk1 : k = S (length ps)) by lia.
    rewrite Hk1 in Hk.
    rewrite firstn_all2 in Hk by (rewrite length_app; simpl; lia).
    apply Forall_app in Hk. destruct Hk as [_ Hk].
    inversion Hk as [|? ? Hq' _]; subst.
    apply (Qlt_not_le _ _ Hq Hq').
Qed.

(** The samples of a ray with at least two of them: the evenly spaced
    ones below the far end, then the far end itself. *)
Lemma ray_thisspace_long (util : Util) (lv : vec) :
  _STEP < norm util lv ->
  let L := norm util lv in
  let n := Qceiling (L / _STEP) in
  exists k,
    (n - 1 = Z.of_nat (S k))%Z /\
    ray_thisspace util lv
    = inr (map (fun i => inject_Z (Z.of_nat i) * ((L - 0) / inject_Z (n - 1)) + 0)
             (seq 0 (S k)) ++ [L]).
Proof.
  intros HL L n.
  assert (H0 : 0 < L) by (unfold _STEP in HL; fold L in HL; lra).
  pose proof (steps_positive L H0) as Hpos.
  pose proof (steps_one_iff L H0) as Hone.
  fold n in Hpos, Hone.
  assert (Hn : (2 <= n)%Z).
  { destruct (Z.eq_dec n 1) as [E|E]; [|lia].
    apply Hone in E. fold L in HL. lra. }
  exists (Z.to_nat (n - 2)). split; [lia|].
  unfold ray_thisspace, np.linspace. fold L. fold n.
  destruct (n <? 0)%Z eqn:E; [apply Z.ltb_lt in E; lia|].
  replace (Z.to_nat n) with (S (S (Z.to_nat (n - 2)))) by lia.
  reflexivity.
Qed.

Lemma last_map_seq (g : nat -> Q) (k : nat) :
  last (map g (seq 0 (S k))) 0 = g k.
Proof.
  rewrite seq_S, map_app. cbn [map plus]. apply last_last.
Qed.

Lemma abs_scaled (c x b : Q) :
  0 <= x -> x <= b ->
  Qabs (- ((1 # 1000000) * c * x)) <= (1 # 1000000) * Qabs c * b.
Proof.
  intros H0 H1. rewrite Qabs_opp, !Qabs_Qmult.
  change (Qabs (1 # 1000000)) with (1 # 1000000).
  rewrite (Qabs_pos x) by exact H0.
  pose proof (Qabs_nonneg c) as Ha. set (a := Qabs c) in *.
  assert (a * x <= a * b).
  { rewrite (Qmult_comm a x), (Qmult_comm a b).
    apply Qmult_le_compat_r; assumption. }
  lra.
Qed.

(** The delay of one point on a constant model, from its chunk of the
    model's answer. *)
Lemma constant_form_of_chunk (util : Util) (c : Q) (p : lla)
    (ts chunk : list Q) :
  ray_thisspace util (zenith_look_vec util p) = inr ts ->
  let r := truncate_ray util (lla2ecef util (lat p) (lon p) (ht p))
             (scaled_look_vec util (zenith_look_vec util p)) ts in
  length chunk = first_high r ->
  Forall (fun x => x = c) chunk ->
  constant_form util c p ((1 # 1000000) * trapz_value chunk (t_points r)).
Proof.
  intros Hts r Hlen HV. unfold constant_form. cbv zeta.
  intros HL HnL.
  set (lv := zenith_look_vec util p) in *.
  set (L := _ZREF util - ht p) in *.
  set (start := lla2ecef util (lat p) (lon p) (ht p)) in *.
  set (scaled := scaled_look_vec util lv) in *.
  set (f := fun t => vadd start (vscale t scaled)).
  assert (HLn : 0 < norm util lv) by (rewrite HnL; exact HL).
  assert (Hchunk : chunk = repeat c (first_high r))
    by (rewrite <- Hlen; apply Forall_eq_repeat; exact HV).
  assert (Hn : Qceiling (L / _STEP) = Qceiling (norm util lv / _STEP))
    by (rewrite HnL; reflexivity).
  destruct (Qlt_le_dec _STEP (norm util lv)) as [Hlong|Hshort].
  - (* at least two samples *)
    assert (HlongL : _STEP < L) by (rewrite <- HnL; exact Hlong).
    split; [intro; exfalso; lra|]. intros _ Hbelow. rewrite Hn in *.
    destruct (ray_thisspace_long util lv Hlong) as (k & Hk & Hts0).
    cbv zeta in Hk, Hts0.
    set (m := inject_Z (Qceiling (norm util lv / _STEP) - 1)) in *.
    assert (Hm : m == inject_Z (Z.of_nat k) + 1).
    { unfold m. rewrite Hk, Nat2Z.inj_succ. unfold Z.succ.
      rewrite inject_Z_plus. reflexivity. }
    assert (Hk0 : 0 <= inject_Z (Z.of_nat k)).
    { change 0 with (inject_Z 0). rewrite <- Zle_Qle. lia. }
    assert (Hm1 : 1 <= m) by lra.
    set (step := (norm util lv - 0) / m) in *.
    assert (Hstep : step * m == L).
    { unfold step. rewrite <- HnL. field. lra. }
    assert (Hstep0 : 0 < step).
    { unfold step. apply Qlt_shift_div_l; lra. }
    set (lowers := map (fun i => inject_Z (Z.of_nat i) * step + 0)
                     (seq 0 (S k))) in *.
    assert (Hts' : ts = lowers ++ [norm util lv]) by congruence.
    clear Hts0.
    assert (Hspacing : L / m == step)
      by (rewrite <- Hstep; field; lra).
    assert (Hlow : Forall (fun t => ht (ecef2lla util (f t)) <= _ZREF util)
                     lowers).
    { unfold lowers. apply Forall_map, Forall_forall.
      intros i Hi. apply in_seq in Hi. apply Hbelow.
      - assert (0 <= inject_Z (Z.of_nat i))
          by (change 0 with (inject_Z 0); rewrite <- Zle_Qle; lia).
        nra.
      - assert (inject_Z (Z.of_nat i) <= inject_Z (Z.of_nat k))
          by (rewrite <- Zle_Qle; lia).
        rewrite Hspacing. nra. }
    destruct (steps_bracket (norm util lv)) as [Hlo Hhi].
    fold m in Hlo, Hhi. rewrite HnL in Hlo, Hhi.
    assert (Hsp : L / m <= 2 * _STEP).
    { unfold _STEP. apply Qle_shift_div_r; lra. }
    assert (Hsp0 : 0 <= L / m).
    { apply Qle_shift_div_l; lra. }
    destruct (Qlt_le_dec (_ZREF util) (ht (ecef2lla util (f (norm util lv)))))
      as [Hcut|Hkeep].
    + (* the far end reads above the reference height *)
      assert (Hfh : first_high r = S k).
      { unfold r, truncate_ray. cbn [first_high]. unfold ray_positions.
        rewrite Hts', map_app. cbn [map]. fold f.
        rewrite (too_high_last util (map f lowers) (f (norm util lv)));
          [unfold lowers; rewrite !length_map, length_seq; reflexivity
          | apply Forall_map; exact Hlow | exact Hcut]. }
      assert (Htp : t_points r = lowers).
      { unfold r, truncate_ray in *. cbn [t_points first_high] in *.
        rewrite Hfh, Hts'.
        rewrite firstn_app, firstn_all2
          by (unfold lowers; rewrite length_map, length_seq; lia).
        unfold lowers at 2. rewrite length_map, length_seq, Nat.sub_diag.
        cbn [firstn]. apply app_nil_r. }
      assert (Hval : trapz_value chunk (t_points r)
                     == c * (L - L / m)).
      { rewrite Hchunk, Hfh, Htp.
        replace (S k) with (length lowers)
          by (unfold lowers; rewrite length_map, length_seq; reflexivity).
        rewrite trapz_value_constant.
        unfold lowers. rewrite last_map_seq. cbn [seq map hd].
        setoid_replace (L / m) with step
          by (rewrite <- Hstep; field; lra).
        rewrite <- Hstep. change (inject_Z (Z.of_nat 0)) with 0.
        rewrite Hm. ring. }
      split; [intros Hc'; exfalso; apply (Qlt_not_le _ _ Hcut Hc')|].
      split.
      * intros _. rewrite Hval. ring.
      * rewrite Hval.
        setoid_replace ((1 # 1000000) * (c * (L - L / m))
                        - (1 # 1000000) * c * L)
          with (- ((1 # 1000000) * c * (L / m))) by ring.
        apply abs_scaled; assumption.
    + (* every sample is kept *)
      assert (Hall : Forall (fun t => ht (ecef2lla util (f t)) <= _ZREF util)
                       ts).
      { rewrite Hts'. apply Forall_app. split; [exact Hlow|].
        constructor; [exact Hkeep | constructor]. }
      destruct (truncate_ray_keeps_all util start scaled ts Hall)
        as [Htp Hfh].
      fold r in Htp, Hfh.
      destruct (constant_over_thisspace util lv c ts HLn Hts) as [_ Hval].
      specialize (Hval Hlong).
      assert (Hd : (1 # 1000000) * trapz_value chunk (t_points r)
                   == (1 # 1000000) * c * L).
      { rewrite Hchunk, Hfh, Htp, Hval, HnL. ring. }
      split; [intros _; exact Hd|].
      split; [intros Hc'; exfalso; apply (Qlt_not_le _ _ Hc' Hkeep)|].
      rewrite Hd.
      setoid_replace ((1 # 1000000) * c * L - (1 # 1000000) * c * L)
        with (- ((1 # 1000000) * c * 0)) by ring.
      apply abs_scaled; [lra | unfold _STEP; lra].
  - (* a single sample *)
    assert (HshortL : L <= _STEP) by (rewrite <- HnL; exact Hshort).
    assert (Hone : ts = [0]).
    { apply (steps_one_iff _ HLn) in Hshort.
      unfold ray_thisspace in Hts. rewrite Hshort in Hts.
      injection Hts as <-. reflexivity. }
    assert (Hval : trapz_value chunk (t_points r) = 0).
    { apply trapz_value_short_x. unfold r, truncate_ray. cbn [t_points].
      rewrite Hone, length_firstn. simpl. lia. }
    rewrite Hval.
    split; [|intro; exfalso; lra].
    intros _. split; [ring|].
    setoid_replace ((1 # 1000000) * 0 - (1 # 1000000) * c * L)
      with (- ((1 # 1000000) * c * L)) by ring.
    apply abs_scaled; [lra | exact HshortL].
Qed.

(** C2, as the code has it. With a model answering the constant [c] at
    every position, take a point [L > 0] meters below the reference
    height whose Zenith ray has length [L].  For [L] up to [_STEP] the
    ray has a single sample and the delay is 0, which is within
    [1e-6 * |c| * _STEP] of [1e-6 * c * L].  For longer rays whose
    samples before the far end read at most the reference height, the
    far end, which lies at the reference height itself, decides: when it
    reads at most the reference height every sample is kept and the
    delay is [1e-6 * c * L]; when it reads higher it is cut and the
    delay is [1e-6 * c * (L - spacing)], the spacing being
    [L / (count - 1)]; either way the delay is within
    [1e-6 * |c| * 2 * _STEP] of [1e-6 * c * L].  This holds of both
    components, under every schedule. *)
Theorem constant_model_zenith_delay_closed_form :
  forall (util : Util) (cpu_count : nat) (schedule : list nat) (c : Q)
         (llas : list lla),
    llas <> [] ->
    (forall v, 0 <= norm util v) ->
    exists hydro wet,
      delay_from_grid util cpu_count schedule (constant_weather c) llas
        Zenith false true = inr (hydro, wet) /\
      hydrostatic_delay util (constant_weather c) llas Zenith true
      = inr hydro /\
      wet_delay util (constant_weather c) llas Zenith true = inr wet /\
      Forall2 (constant_form util c) llas hydro /\
      Forall2 (constant_form util c) llas wet.
Proof.
  intros util cpu_count schedule c llas Hne Hnorm.
  apply (delay_from_grid_serial_zenith util cpu_count schedule
           (constant_weather c) llas (fun x => x = c));
    try assumption.
  - intros p _. apply Hnorm.
  - intro ps. apply constant_query_values.
  - intro ps. apply constant_query_values.
  - intros p ts chunk _ Hts r Hlen HV.
    apply constant_form_of_chunk; assumption.
Qed.

(** The hypotheses of [constant_model_zenith_delay_closed_form] hold on
    the polar axis, and so do those of the form for a point 45 m below
    the reference height.  With [c = 2] and the exact height conversion
    the far end is kept and the hydrostatic delay is [1e-6 * 2 * 45];
    with the conversion reading two micrometers too high the far end is
    cut and the delay is [1e-6 * 2 * (45 - 45/2)]. *)
Lemma constant_model_zenith_delay_closed_form_witness :
  (exists hydro wet d tl,
     delay_from_grid PolarAxis.util 2 [] (constant_weather 2)
       [PolarAxis.pole 14955; PolarAxis.pole 14990]
       Zenith false true = inr (hydro, wet) /\
     hydro = d :: tl /\
     d == (1 # 1000000) * 2 * 45) /\
  (exists hydro wet d tl,
     delay_from_grid PolarAxis.util_high 2 [] (constant_weather 2)
       [PolarAxis.pole 14955]
       Zenith false true = inr (hydro, wet) /\
     hydro = d :: tl /\
     d == (1 # 1000000) * 2 * (45 - 45 / 2)).
Proof.
  split.
  - destruct (constant_model_zenith_delay_closed_form PolarAxis.util 2 [] 2
                [PolarAxis.pole 14955; PolarAxis.pole 14990])
      as (hydro & wet & H & _ & _ & Hh & _).
    + discriminate.
    + exact polar_norm_nonneg.
    + destruct (Forall2_head _ _ _ _ Hh) as (d & tl & -> & Hd).
      exists (d :: tl), wet, d, tl. split; [exact H|]. split; [reflexivity|].
      unfold constant_form in Hd. cbv zeta in Hd.
      destruct Hd as (_ & Hlong); [reflexivity | reflexivity |].
      destruct Hlong as (Hkeep & _ & _).
      * reflexivity.
      * intros t Ht0 Ht1.
        cbn [ecef2lla lla2ecef PolarAxis.util ht PolarAxis.ecef2lla
             PolarAxis.lla2ecef PolarAxis.pole vadd vscale vz lat lon
             _ZREF zref] in *.
        set (s := vz (scaled_look_vec _ _)).
        assert (Hs : s == 1) by reflexivity.
        rewrite Hs.
        assert (Hb : t <= 225 # 10)
          by (eapply Qle_trans; [exact Ht1 | vm_compute; discriminate]).
        unfold PolarAxis.b. lra.
      * setoid_replace ((1 # 1000000) * 2 * 45)
          with ((1 # 1000000) * 2 * (_ZREF PolarAxis.util
                                     - ht (PolarAxis.pole 14955)))
          by reflexivity.
        apply Hkeep. vm_compute. discriminate.
  - destruct (constant_model_zenith_delay_closed_form PolarAxis.util_high 2
                [] 2 [PolarAxis.pole 14955])
      as (hydro & wet & H & _ & _ & Hh & _).
    + discriminate.
    + exact polar_norm_nonneg.
    + destruct (Forall2_head _ _ _ _ Hh) as (d & tl & -> & Hd).
      exists (d :: tl), wet, d, tl. split; [exact H|]. split; [reflexivity|].
      unfold constant_form in Hd. cbv zeta in Hd.
      destruct Hd as (_ & Hlong); [reflexivity | reflexivity |].
      destruct Hlong as (_ & Hcut & _).
      * reflexivity.
      * intros t Ht0 Ht1.
        cbn [ecef2lla lla2ecef PolarAxis.util_high ht PolarAxis.ecef2lla_high
             PolarAxis.lla2ecef PolarAxis.pole vadd vscale vz lat lon
             _ZREF zref] in *.
        set (s := vz (scaled_look_vec _ _)).
        assert (Hs : s == 1) by reflexivity.
        rewrite Hs.
        assert (Hb : t <= 225 # 10)
          by (eapply Qle_trans; [exact Ht1 | vm_compute; discriminate]).
        unfold PolarAxis.b. lra.
      * setoid_replace ((1 # 1000000) * 2 * (45 - 45 / 2))
          with ((1 # 1000000) * 2
                * (_ZREF PolarAxis.util_high - ht (PolarAxis.pole 14955)
                   - (_ZREF PolarAxis.util_high - ht (PolarAxis.pole 14955))
                     / inject_Z (Qceiling
                          ((_ZREF PolarAxis.util_high
                            - ht (PolarAxis.pole 14955)) / _STEP) - 1)))
          by reflexivity.
        apply Hcut. vm_compute. reflexivity.
Defined.

(** C2, as stated, fails for a height conversion that is not exact at
    the reference height.  With a conversion reading two micrometers too
    high, a model answering 1 and a point 45 m below the reference
    height, the ray of length 45 has three samples, at 0, 22.5 and 45;
    the last one reads above the reference height and is cut, and the
    delay is [22.5e-6], which is further from [1e-6 * 1 * 45] than
    [1e-6 * _STEP]. *)
Lemma constant_model_delay_misses_top_sample :
  (forall h, ht (ecef2lla PolarAxis.util_high
                   (lla2ecef PolarAxis.util_high 90 0 h))
             == h + (2 # 1000000)) /\
  norm PolarAxis.util_high
    (zenith_look_vec PolarAxis.util_high (PolarAxis.pole 14955)) == 45 /\
  (exists t0 t1 t2,
     ray_thisspace PolarAxis.util_high
       (zenith_look_vec PolarAxis.util_high (PolarAxis.pole 14955))
     = inr [t0; t1; t2] /\
     t0 == 0 /\ t1 == 225 # 10 /\ t2 == 45) /\
  exists d,
    delay_from_grid PolarAxis.util_high 2 [] (constant_weather 1)
      [PolarAxis.pole 14955] Zenith false true = inr ([d], [d]) /\
    d == (225 # 10) * (1 # 1000000) /\
    ~ Qabs (d - (1 # 1000000) * 1 * 45) <= (1 # 1000000) * Qabs 1 * _STEP.
Proof.
  split; [intro h; cbn; ring|].
  split; [reflexivity|].
  split.
  { do 3 eexists. split; [vm_compute; reflexivity|].
    repeat split; vm_compute; reflexivity. }
  eexists. split; [vm_compute; reflexivity|].
  split; [vm_compute; reflexivity|].
  intro H. vm_compute in H. apply H. reflexivity.
Qed.
